(** * EmailAlies: persistence and sync subsystem

    A shallow embedding of the storage adapter ([DatabaseManager]), the
    alias routes, the sync service ([SyncService]) and the key wrapping
    script of the EmailAlies repository, with the properties its
    specification states about them.

    Conventions of the embedding.
    - SQL statements are embedded at the level of their relational
      meaning: a table is a list of rows, oldest insertion first, a
      [WHERE] clause is a boolean filter, a constraint violation raises
      (primary keys, [UNIQUE] columns, and the foreign keys, which both
      engines of the source enforce).
    - Identifiers are kept as the source spells them.  The fifth column
      of [sync_data] is spelled [dat-id] in the table definition, in the
      [INSERT] and in the row mapper alike; it is read as the name of
      that column in all three places, the design notes of the
      specification setting the spelling aside.  [Schema.schemas_strict]
      is the list of statements as an engine sees it that rejects the
      spelling.
    - A [DATETIME DEFAULT CURRENT_TIMESTAMP] column holds the text
      [YYYY-MM-DD HH:MM:SS] that the engine renders from the clock; a
      JavaScript [Date] bound as a parameter is the text produced by
      [toISOString()].  A row keeps the clock reading it was stamped
      with, and the text is rendered again wherever the engine compares.
    - [async] functions run on one thread and can be interleaved with
      other requests at their [await]s only: a step of the environment
      is an explicit argument wherever a property depends on it. *)

From Stdlib Require Import ZArith Lia List Bool Ascii String Arith.
From stdpp Require Import gmap strings list fin_maps.
Import ListNotations.

(* ===================================================================== *)
(** * Results of fallible operations *)
(* ===================================================================== *)

(** A JavaScript computation either returns or throws. *)
Inductive Res (A : Type) : Type :=
| Ret (a : A)
| Throw (msg : string).
Arguments Ret {A} a.
Arguments Throw {A} msg.

#[global] Instance res_ret : MRet Res := fun _ a => Ret a.
#[global] Instance res_bind : MBind Res := fun _ _ k r =>
  match r with
  | Ret a => k a
  | Throw m => Throw m
  end.

(** [try { body } catch (e) { handler(e) }] *)
Definition try_catch {A} (body : Res A) (handler : string -> Res A) : Res A :=
  match body with
  | Ret a => Ret a
  | Throw m => handler m
  end.

Definition returns {A} (r : Res A) : Prop := exists a, r = Ret a.

(** A statement acts on the engine's state and either returns or raises;
    the state it leaves is kept in both cases. *)
Definition Eff (S A : Type) : Type := S -> Res A * S.

Definition and_then {S A B} (m : Eff S A) (k : A -> Eff S B) : Eff S B :=
  fun s => match m s with
           | (Ret a, s') => k a s'
           | (Throw e, s') => (Throw e, s')
           end.

Notation "'await' x <- m ; k" := (and_then m (fun x => k))
  (at level 10, x name, m at level 100, k at level 200, only parsing).

(** [try { body } catch (e) { handler(e) }] around such statements. *)
Definition try_eff {S A} (body : Eff S A) (handler : string -> Eff S A) : Eff S A :=
  fun s => match body s with
           | (Ret a, s') => (Ret a, s')
           | (Throw e, s') => handler e s'
           end.

(** Case analysis on every test of a statement, then computation. *)
Ltac case_ifs :=
  repeat match goal with
         | |- context [if ?b then _ else _] => destruct b
         end;
  simpl; auto.

(* ===================================================================== *)
(** * Dates and their two textual renderings *)
(* ===================================================================== *)

Module JsDate.

(** A [Date] by its UTC calendar fields.  On well-formed dates the
    field-wise lexicographic order is the order of the instants. *)
Record Date : Type := mkDate {
  year : N; month : N; day : N;
  hour : N; minute : N; second : N; millis : N
}.

Definition wf (d : Date) : Prop :=
  (year d < 10000 /\ 1 <= month d <= 12 /\ 1 <= day d <= 31 /\
   hour d < 24 /\ minute d < 60 /\ second d < 60 /\ millis d < 1000)%N.

(** [new Date(0)] *)
Definition epoch : Date := mkDate 1970 1 1 0 0 0 0.

Definition fields (d : Date) : list N :=
  [year d; month d; day d; hour d; minute d; second d; millis d].

Fixpoint lex_compare (a b : list N) : comparison :=
  match a, b with
  | [], [] => Eq
  | [], _ :: _ => Lt
  | _ :: _, [] => Gt
  | x :: a', y :: b' =>
      match N.compare x y with
      | Eq => lex_compare a' b'
      | c => c
      end
  end.

Definition compare (a b : Date) : comparison := lex_compare (fields a) (fields b).

Definition lt (a b : Date) : Prop := compare a b = Lt.
Definition le (a b : Date) : Prop := compare a b <> Gt.
Definition leb (a b : Date) : bool := if compare a b is Gt then false else true.

(** The calendar day of a date, the part both renderings start with. *)
Definition ymd (d : Date) : list N := [year d; month d; day d].

(** Truncation to the second, the resolution of [CURRENT_TIMESTAMP]. *)
Definition to_second (d : Date) : Date :=
  mkDate (year d) (month d) (day d) (hour d) (minute d) (second d) 0.

(** ** Fixed-width decimal rendering *)

Definition digit (n : N) : ascii := ascii_of_N (48 + n mod 10).

(** [digits k n]: the [k] low decimal digits of [n], most significant first. *)
Fixpoint digits (k : nat) (n : N) : string :=
  match k with
  | 0 => EmptyString
  | S k' => digits k' (n / 10) +:+ String (digit n) EmptyString
  end.

Definition date_text (d : Date) : string :=
  digits 4 (year d) +:+ "-" +:+ digits 2 (month d) +:+ "-" +:+ digits 2 (day d).

Definition time_text (d : Date) : string :=
  digits 2 (hour d) +:+ ":" +:+ digits 2 (minute d) +:+ ":" +:+ digits 2 (second d).

(** [Date.prototype.toISOString()]: [YYYY-MM-DDTHH:mm:ss.sssZ]
    (years 0000 to 9999). *)
Definition toISOString (d : Date) : string :=
  date_text d +:+ "T" +:+ time_text d +:+ "." +:+ digits 3 (millis d) +:+ "Z".

(** The text SQLite stores for [CURRENT_TIMESTAMP] at clock reading [d]:
    [YYYY-MM-DD HH:MM:SS], in UTC. *)
Definition sql_text (d : Date) : string :=
  date_text d +:+ " " +:+ time_text d.

(** SQLite's [a > b] on two TEXT values (BINARY collation). *)
Definition text_gt (a b : string) : bool :=
  if String.compare a b is Gt then true else false.

End JsDate.

(* ===================================================================== *)
(** * Schema/Migration Manager: [initializeTables], [initializeTablesAsync] *)
(* ===================================================================== *)

Module Schema.

(** What the engine knows of its schema: each table with its column
    names, each index with the table and column it covers. *)
Record Catalog : Type := mkCatalog {
  tables : gmap string (list string);
  indexes : gmap string (string * string)
}.

Definition empty_catalog : Catalog := mkCatalog ∅ ∅.

(** The three statement forms that occur in [schemas], and a text the
    engine cannot parse. *)
Inductive Stmt : Type :=
| CreateTableIfNotExists (name : string) (cols : list string)
| AlterTableAddColumn (table col : string)
| CreateIndexIfNotExists (name table col : string)
| Unparsable (sql : string).

(** SQLite's behaviour on one statement: the new catalog, or the error
    message it raises (the catalog is then unchanged). *)
Definition exec_stmt (st : Stmt) (c : Catalog) : Res Catalog :=
  match st with
  | CreateTableIfNotExists t cols =>
      match tables c !! t with
      | Some _ => Ret c
      | None =>
          match indexes c !! t with
          | Some _ => Throw ("there is already an index named " +:+ t)
          | None => Ret (mkCatalog (<[t := cols]> (tables c)) (indexes c))
          end
      end
  | AlterTableAddColumn t col =>
      match tables c !! t with
      | None => Throw ("no such table: " +:+ t)
      | Some cols =>
          if bool_decide (col ∈ cols)
          then Throw ("duplicate column name: " +:+ col)
          else Ret (mkCatalog (<[t := cols ++ [col]]> (tables c)) (indexes c))
      end
  | CreateIndexIfNotExists i t col =>
      match tables c !! t with
      | None => Throw ("no such table: main." +:+ t)
      | Some cols =>
          match tables c !! i with
          | Some _ => Throw ("there is already a table named " +:+ i)
          | None =>
              match indexes c !! i with
              | Some _ => Ret c
              | None =>
                  if bool_decide (col ∈ cols)
                  then Ret (mkCatalog (tables c) (<[i := (t, col)]> (indexes c)))
                  else Throw ("no such column: " +:+ col)
              end
          end
      end
  | Unparsable _ => Throw "syntax error"
  end.

(** [db.exec(sql)] on a text of several statements: they run in order,
    the first error stops the run and is raised, and what ran before it
    stays in place. *)
Fixpoint exec (sql : list Stmt) (c : Catalog) : Res unit * Catalog :=
  match sql with
  | [] => (Ret tt, c)
  | st :: rest =>
      match exec_stmt st c with
      | Ret c' => exec rest c'
      | Throw m => (Throw m, c)
      end
  end.

(** The list [schemas], declared with the same text in
    [initializeTables] and in [initializeTablesAsync]. *)
Definition schemas : list (list Stmt) :=
  [ [CreateTableIfNotExists "users"
       ["id"; "email"; "encryption_key"; "master_key_salt"; "is_admin";
        "created_at"; "updated_at"]];
    [AlterTableAddColumn "users" "master_key_salt"];
    [AlterTableAddColumn "users" "is_admin"];
    [CreateTableIfNotExists "email_aliases"
       ["id"; "user_id"; "alias"; "description"; "forwarding_email";
        "is_active"; "created_at"; "updated_at"]];
    [CreateTableIfNotExists "emails"
       ["id"; "alias_id"; "from_email"; "to_email"; "subject"; "content";
        "is_read"; "received_at"]];
    [CreateTableIfNotExists "devices"
       ["id"; "user_id"; "device_name"; "device_key"; "last_sync";
        "created_at"]];
    [CreateTableIfNotExists "sync_data"
       ["id"; "user_id"; "device_id"; "data_type"; "dat-id";
        "encrypted_data"; "operation"; "timestamp"]];
    [CreateIndexIfNotExists "idx_email_aliases_user_id" "email_aliases" "user_id";
     CreateIndexIfNotExists "idx_emails_alias_id" "emails" "alias_id";
     CreateIndexIfNotExists "idx_devices_user_id" "devices" "user_id";
     CreateIndexIfNotExists "idx_sync_data_user_id" "sync_data" "user_id"] ].

(** [s.includes(sub)] *)
Definition includes (sub s : string) : bool :=
  if String.index 0 sub s is Some _ then true else false.

Definition is_alter (st : Stmt) : bool :=
  match st with
  | AlterTableAddColumn _ _ => true
  | Unparsable sql => includes "ALTER TABLE" sql
  | _ => false
  end.

(** [schema.includes('ALTER TABLE')]: the text of a script contains
    these words exactly when one of its statements is an [ALTER TABLE]. *)
Definition includes_ALTER_TABLE (sql : list Stmt) : bool := existsb is_alter sql.

(** The state [initializeTables] acts on: the engine's catalog and the
    lines written by [console.error]. *)
Record Env : Type := mkEnv {
  cat : Catalog;
  console : list string
}.

(** [exec] and [console.error] as they act on that state. *)
Definition exec_on (sql : list Stmt) : Eff Env unit := fun e =>
  let (r, c') := exec sql (cat e) in (r, mkEnv c' (console e)).

Definition console_error (line : string) : Eff Env unit := fun e =>
  (Ret tt, mkEnv (cat e) (console e ++ [line])).

(** One turn of the loop:
    [try { exec(schema) } catch (error) { if (...) console.error(...) }] *)
Definition init_one (schema : list Stmt) : Eff Env unit :=
  try_eff (exec_on schema)
    (fun message =>
       (* Ignore errors for "ALTER TABLE" if column already exists *)
       if negb (includes_ALTER_TABLE schema) || negb (includes "duplicate column" message)
       then console_error message
       else fun e => (Ret tt, e)).

(** [for (const schema of schemas) { ... }]: a turn that throws ends
    the loop and the function with it. *)
Fixpoint for_each (l : list (list Stmt)) : Eff Env unit :=
  match l with
  | [] => fun e => (Ret tt, e)
  | schema :: rest => await _ <- init_one schema; for_each rest
  end.

(** The part of a [DatabaseManager] the two functions look at. *)
Record DatabaseManager : Type := mkManager {
  isCloudflare : bool;
  d1Db_bound : bool
}.

Definition initializeTables (this : DatabaseManager) : Eff Env unit := fun e =>
  if isCloudflare this then (Ret tt, e)
  else for_each schemas e.

Definition initializeTablesAsync (this : DatabaseManager) : Eff Env unit := fun e =>
  if negb (isCloudflare this) || negb (d1Db_bound this) then (Ret tt, e)
  else for_each schemas e.

(** The catalog left by a script whose error, if any, is swallowed. *)
Definition after (sql : list Stmt) (c : Catalog) : Catalog := snd (exec sql c).

Definition run (l : list (list Stmt)) (c : Catalog) : Catalog :=
  fold_left (fun c sql => after sql c) l c.

(** One statement with its error swallowed. *)
Definition step (st : Stmt) (c : Catalog) : Catalog := after [st] c.

Definition steps (l : list Stmt) (c : Catalog) : Catalog :=
  fold_left (fun c st => step st c) l c.

(** A statement is quiet in a catalog it leaves as it is. *)
Definition quiet (st : Stmt) (c : Catalog) : Prop := step st c = c.

(** [compatible st st']: running [st'] cannot wake up a quiet [st]. *)
Definition compatible (st st' : Stmt) : bool :=
  match st, st' with
  | CreateTableIfNotExists _ _, _ => true
  | AlterTableAddColumn t _, CreateTableIfNotExists t' _ => negb (String.eqb t t')
  | AlterTableAddColumn _ _, _ => true
  | CreateIndexIfNotExists _ _ _, _ => false
  | Unparsable _, _ => true
  end.

(** No statement is followed by one that could wake it up. *)
Fixpoint ordered (l : list Stmt) : bool :=
  match l with
  | [] => true
  | st :: l' => forallb (compatible st) l' && ordered l'
  end.

Definition is_index (st : Stmt) : bool :=
  if st is CreateIndexIfNotExists _ _ _ then true else false.

(** [c ≼ c']: the same tables, and at least the indexes of [c]. *)
Definition below (c c' : Catalog) : Prop :=
  tables c = tables c' /\ indexes c ⊆ indexes c'.

(** The seven statements on tables of [schemas], and its last script. *)
Definition table_statements : list Stmt := concat (take 7 schemas).
Definition index_script : list Stmt := concat (drop 7 schemas).

(** [schemas] as an engine reads it that takes [dat-id] for what its
    grammar makes of it, a column name followed by a minus sign: the
    statement that creates [sync_data] is then rejected. *)
Definition schemas_strict : list (list Stmt) :=
  take 6 schemas ++
  [[Unparsable "CREATE TABLE IF NOT EXISTS sync_data"]] ++
  drop 7 schemas.

End Schema.

(* ===================================================================== *)
(** * Storage Engine Adapter: the data operations of [DatabaseManager] *)
(* ===================================================================== *)

Module Store.
Import JsDate.

(** ** Rows, as the tables of [schemas] declare them *)

Record UserRow : Type := mkUserRow {
  u_id : string; u_email : string; u_encryption_key : string;
  u_master_key_salt : string; u_is_admin : Z;
  u_created_at : Date; u_updated_at : Date
}.

Record AliasRow : Type := mkAliasRow {
  a_id : string; a_user_id : string; a_alias : string;
  a_description : option string;          (* [description TEXT], nullable *)
  a_forwarding_email : string; a_is_active : Z;
  a_created_at : Date; a_updated_at : Date
}.

Record EmailRow : Type := mkEmailRow {
  e_id : string; e_alias_id : string; e_from_email : string;
  e_to_email : string; e_subject : string; e_content : string;
  e_is_read : Z; e_received_at : Date
}.

Record DeviceRow : Type := mkDeviceRow {
  d_id : string; d_user_id : string; d_device_name : string;
  d_device_key : string; d_last_sync : Date; d_created_at : Date
}.

Record SyncRow : Type := mkSyncRow {
  s_id : string; s_user_id : string; s_device_id : string;
  s_data_type : string; s_dat_id : string; s_encrypted_data : string;
  s_operation : string; s_timestamp : Date
}.

(** The engine: its clock and its five tables.  The clock is the one
    [CURRENT_TIMESTAMP] and [new Date()] both read. *)
Record Db : Type := mkDb {
  now : Date;
  users : list UserRow;
  email_aliases : list AliasRow;
  emails : list EmailRow;
  devices : list DeviceRow;
  sync_data : list SyncRow
}.

Definition CURRENT_TIMESTAMP (db : Db) : Date := to_second (now db).

Definition set_email_aliases (l : list AliasRow) (db : Db) : Db :=
  mkDb (now db) (users db) l (emails db) (devices db) (sync_data db).
Definition set_emails (l : list EmailRow) (db : Db) : Db :=
  mkDb (now db) (users db) (email_aliases db) l (devices db) (sync_data db).
Definition set_devices (l : list DeviceRow) (db : Db) : Db :=
  mkDb (now db) (users db) (email_aliases db) (emails db) l (sync_data db).
Definition set_sync_data (l : list SyncRow) (db : Db) : Db :=
  mkDb (now db) (users db) (email_aliases db) (emails db) (devices db) l.
Definition set_users (l : list UserRow) (db : Db) : Db :=
  mkDb (now db) l (email_aliases db) (emails db) (devices db) (sync_data db).

(** ** The objects the adapter hands to its callers *)

Record User : Type := mkUser {
  User_id : string; User_email : string; encryptionKey : string;
  masterKeySalt : string; isAdmin : bool
}.

Record EmailAlias : Type := mkEmailAlias {
  id : string; userId : string; alias : string;
  description : option string; forwardingEmail : string; isActive : bool;
  createdAt : Date; updatedAt : Date
}.

Record Email : Type := mkEmail {
  Email_id : string; aliasId : string; from : string; to : string;
  subject : string; content : string; isRead : bool; receivedAt : Date
}.

Record Device : Type := mkDevice {
  Device_id : string; Device_userId : string; deviceName : string;
  deviceKey : string; lastSync : Date; Device_createdAt : Date
}.

Record SyncData : Type := mkSyncData {
  SyncData_id : string; SyncData_userId : string; deviceId : string;
  dataType : string; dataId : string; encryptedData : string;
  operation : string; timestamp : Date
}.

(** [b ? 1 : 0] *)
Definition bit (b : bool) : Z := if b then 1 else 0.

(** ** [ORDER BY]: a stable insertion sort; [before x y] says that [x]
    may stand in front of [y]. *)
Fixpoint insert_by {A} (before : A -> A -> bool) (x : A) (l : list A) : list A :=
  match l with
  | [] => [x]
  | y :: l' => if before x y then x :: l else y :: insert_by before x l'
  end.

Definition order_by {A} (before : A -> A -> bool) (l : list A) : list A :=
  foldr (insert_by before) [] l.

Definition text_desc (a b : Date) : bool :=
  if String.compare (sql_text a) (sql_text b) is Lt then false else true.
Definition text_asc (a b : Date) : bool :=
  if String.compare (sql_text a) (sql_text b) is Gt then false else true.

(** ** Users *)

Definition createUser (user : User) : Eff Db unit := fun db =>
  if existsb (fun r => String.eqb (u_id r) (User_id user)) (users db)
  then (Throw "UNIQUE constraint failed: users.id", db)
  else if existsb (fun r => String.eqb (u_email r) (User_email user)) (users db)
  then (Throw "UNIQUE constraint failed: users.email", db)
  else (Ret tt,
        set_users (users db ++
          [mkUserRow (User_id user) (User_email user) (encryptionKey user)
             (masterKeySalt user) (bit (isAdmin user))
             (CURRENT_TIMESTAMP db) (CURRENT_TIMESTAMP db)]) db).

Definition user_of_row (row : UserRow) : User :=
  mkUser (u_id row) (u_email row) (u_encryption_key row)
         (u_master_key_salt row) (Z.eqb (u_is_admin row) 1).

Definition getUserById (uid : string) (db : Db) : option User :=
  user_of_row <$> List.find (fun r => String.eqb (u_id r) uid) (users db).

Definition getUserByEmail (email : string) (db : Db) : option User :=
  user_of_row <$> List.find (fun r => String.eqb (u_email r) email) (users db).

(** ** Email aliases *)

(** The argument of [createAlias]: an [EmailAlias] without its dates. *)
Record NewAlias : Type := mkNewAlias {
  new_id : string; new_userId : string; new_alias : string;
  new_description : option string; new_forwardingEmail : string;
  new_isActive : bool
}.

(** [INSERT INTO email_aliases ...]: [id] is the primary key, [alias] is
    [UNIQUE], [user_id] references [users (id)]. *)
Definition createAlias (a : NewAlias) : Eff Db unit := fun db =>
  if existsb (fun r => String.eqb (a_id r) (new_id a)) (email_aliases db)
  then (Throw "UNIQUE constraint failed: email_aliases.id", db)
  else if existsb (fun r => String.eqb (a_alias r) (new_alias a)) (email_aliases db)
  then (Throw "UNIQUE constraint failed: email_aliases.alias", db)
  else if negb (existsb (fun r => String.eqb (u_id r) (new_userId a)) (users db))
  then (Throw "FOREIGN KEY constraint failed", db)
  else (Ret tt,
        set_email_aliases (email_aliases db ++
          [mkAliasRow (new_id a) (new_userId a) (new_alias a) (new_description a)
             (new_forwardingEmail a) (bit (new_isActive a))
             (CURRENT_TIMESTAMP db) (CURRENT_TIMESTAMP db)]) db).

Definition alias_of_row (row : AliasRow) : EmailAlias :=
  mkEmailAlias (a_id row) (a_user_id row) (a_alias row) (a_description row)
               (a_forwarding_email row) (Z.eqb (a_is_active row) 1)
               (a_created_at row) (a_updated_at row).

(** [SELECT * FROM email_aliases WHERE user_id = ? ORDER BY created_at DESC] *)
Definition getAliasesByUserId (uid : string) (db : Db) : list EmailAlias :=
  map alias_of_row
    (order_by (fun x y => text_desc (a_created_at x) (a_created_at y))
       (List.filter (fun r => String.eqb (a_user_id r) uid) (email_aliases db))).

(** [Partial<Pick<EmailAlias, 'description' | 'isActive'>>] *)
Record AliasUpdates : Type := mkAliasUpdates {
  upd_description : option string;
  upd_isActive : option bool
}.

(** [updates.isActive ? 1 : 0]: [undefined] is falsy. *)
Definition isActive_param (updates : AliasUpdates) : Z :=
  match upd_isActive updates with
  | Some true => 1
  | Some false => 0
  | None => 0
  end.

(** [UPDATE email_aliases SET description = ?, is_active = ?,
     updated_at = CURRENT_TIMESTAMP WHERE id = ?], with the parameters
    [[updates.description, updates.isActive ? 1 : 0, id]]; an absent
    [description] is bound as [NULL]. *)
Definition updateAlias (aid : string) (updates : AliasUpdates) : Eff Db unit := fun db =>
  (Ret tt,
   set_email_aliases
     (map (fun r =>
             if String.eqb (a_id r) aid
             then mkAliasRow (a_id r) (a_user_id r) (a_alias r)
                    (upd_description updates) (a_forwarding_email r)
                    (isActive_param updates)
                    (a_created_at r) (CURRENT_TIMESTAMP db)
             else r)
          (email_aliases db)) db).

(** [DELETE FROM emails WHERE alias_id = ?] *)
Definition delete_emails_of_alias (aid : string) : Eff Db unit := fun db =>
  (Ret tt,
   set_emails (List.filter (fun e => negb (String.eqb (e_alias_id e) aid)) (emails db)) db).

(** [DELETE FROM email_aliases WHERE id = ?]: refused while a row of
    [emails] still references a row it would delete. *)
Definition delete_alias_row (aid : string) : Eff Db unit := fun db =>
  if existsb (fun r => String.eqb (a_id r) aid) (email_aliases db) &&
     existsb (fun e => String.eqb (e_alias_id e) aid) (emails db)
  then (Throw "FOREIGN KEY constraint failed", db)
  else (Ret tt,
        set_email_aliases
          (List.filter (fun r => negb (String.eqb (a_id r) aid)) (email_aliases db)) db).

Definition deleteAlias (aid : string) : Eff Db unit :=
  (* Delete associated emails first *)
  await _ <- delete_emails_of_alias aid;
  (* Then delete the alias *)
  delete_alias_row aid.

(** ** Emails *)

Record NewEmail : Type := mkNewEmail {
  ne_id : string; ne_aliasId : string; ne_from : string; ne_to : string;
  ne_subject : string; ne_content : string
}.

Definition createEmail (e : NewEmail) : Eff Db unit := fun db =>
  if existsb (fun r => String.eqb (e_id r) (ne_id e)) (emails db)
  then (Throw "UNIQUE constraint failed: emails.id", db)
  else if negb (existsb (fun r => String.eqb (a_id r) (ne_aliasId e)) (email_aliases db))
  then (Throw "FOREIGN KEY constraint failed", db)
  else (Ret tt,
        set_emails (emails db ++
          [mkEmailRow (ne_id e) (ne_aliasId e) (ne_from e) (ne_to e)
             (ne_subject e) (ne_content e) 0 (CURRENT_TIMESTAMP db)]) db).

Definition email_of_row (row : EmailRow) : Email :=
  mkEmail (e_id row) (e_alias_id row) (e_from_email row) (e_to_email row)
          (e_subject row) (e_content row) (Z.eqb (e_is_read row) 1)
          (e_received_at row).

(** [SELECT * FROM emails WHERE alias_id = ? ORDER BY received_at DESC] *)
Definition getEmailsByAliasId (aid : string) (db : Db) : list Email :=
  map email_of_row
    (order_by (fun x y => text_desc (e_received_at x) (e_received_at y))
       (List.filter (fun r => String.eqb (e_alias_id r) aid) (emails db))).

(** [UPDATE emails SET is_read = 1 WHERE id = ?] *)
Definition markEmailAsRead (eid : string) : Eff Db unit := fun db =>
  (Ret tt,
   set_emails
     (map (fun r =>
             if String.eqb (e_id r) eid
             then mkEmailRow (e_id r) (e_alias_id r) (e_from_email r) (e_to_email r)
                    (e_subject r) (e_content r) 1 (e_received_at r)
             else r)
          (emails db)) db).

(** ** Devices *)

Record NewDevice : Type := mkNewDevice {
  nd_id : string; nd_userId : string; nd_deviceName : string; nd_deviceKey : string
}.

Definition createDevice (d : NewDevice) : Eff Db unit := fun db =>
  if existsb (fun r => String.eqb (d_id r) (nd_id d)) (devices db)
  then (Throw "UNIQUE constraint failed: devices.id", db)
  else if negb (existsb (fun r => String.eqb (u_id r) (nd_userId d)) (users db))
  then (Throw "FOREIGN KEY constraint failed", db)
  else (Ret tt,
        set_devices (devices db ++
          [mkDeviceRow (nd_id d) (nd_userId d) (nd_deviceName d) (nd_deviceKey d)
             (CURRENT_TIMESTAMP db) (CURRENT_TIMESTAMP db)]) db).

Definition device_of_row (row : DeviceRow) : Device :=
  mkDevice (d_id row) (d_user_id row) (d_device_name row) (d_device_key row)
           (d_last_sync row) (d_created_at row).

Definition getDevicesByUserId (uid : string) (db : Db) : list Device :=
  map device_of_row
    (order_by (fun x y => text_desc (d_created_at x) (d_created_at y))
       (List.filter (fun r => String.eqb (d_user_id r) uid) (devices db))).

(** [UPDATE devices SET last_sync = CURRENT_TIMESTAMP WHERE id = ?] *)
Definition updateDeviceLastSync (did : string) : Eff Db unit := fun db =>
  (Ret tt,
   set_devices
     (map (fun r =>
             if String.eqb (d_id r) did
             then mkDeviceRow (d_id r) (d_user_id r) (d_device_name r)
                    (d_device_key r) (CURRENT_TIMESTAMP db) (d_created_at r)
             else r)
          (devices db)) db).

(** ** Sync log *)

Record NewSyncData : Type := mkNewSyncData {
  ns_id : string; ns_userId : string; ns_deviceId : string; ns_dataType : string;
  ns_dataId : string; ns_encryptedData : string; ns_operation : string
}.

(** [INSERT INTO sync_data ...]: the row is stamped by the column
    default [CURRENT_TIMESTAMP]. *)
Definition createSyncData (sd : NewSyncData) : Eff Db unit := fun db =>
  if existsb (fun r => String.eqb (s_id r) (ns_id sd)) (sync_data db)
  then (Throw "UNIQUE constraint failed: sync_data.id", db)
  else if negb (existsb (fun r => String.eqb (u_id r) (ns_userId sd)) (users db)) ||
          negb (existsb (fun r => String.eqb (d_id r) (ns_deviceId sd)) (devices db))
  then (Throw "FOREIGN KEY constraint failed", db)
  else (Ret tt,
        set_sync_data (sync_data db ++
          [mkSyncRow (ns_id sd) (ns_userId sd) (ns_deviceId sd) (ns_dataType sd)
             (ns_dataId sd) (ns_encryptedData sd) (ns_operation sd)
             (CURRENT_TIMESTAMP db)]) db).

(** The row mapper; [new Date(row.timestamp)] reads the stored text
    back (the process runs in UTC). *)
Definition syncdata_of_row (row : SyncRow) : SyncData :=
  mkSyncData (s_id row) (s_user_id row) (s_device_id row) (s_data_type row)
             (s_dat_id row) (s_encrypted_data row) (s_operation row)
             (s_timestamp row).

(** The [WHERE] clause [user_id = ? AND timestamp > ?], the second
    parameter being [timestamp.toISOString()]: both sides of [>] are
    TEXT, and SQLite compares them byte by byte. *)
Definition sync_where (uid : string) (param : string) (row : SyncRow) : bool :=
  String.eqb (s_user_id row) uid && text_gt (sql_text (s_timestamp row)) param.

(** [SELECT * FROM sync_data WHERE user_id = ? AND timestamp > ?
     ORDER BY timestamp ASC] *)
Definition getSyncDataAfterTimestamp (uid : string) (timestamp : Date) (db : Db)
  : list SyncData :=
  map syncdata_of_row
    (order_by (fun x y => text_asc (s_timestamp x) (s_timestamp y))
       (List.filter (sync_where uid (toISOString timestamp)) (sync_data db))).

End Store.

(* ===================================================================== *)
(** * Requests that run between the [await]s of a handler *)
(* ===================================================================== *)

Module Interleaving.
Import JsDate Store.

Definition wfb (d : Date) : bool :=
  (year d <? 10000)%N && (1 <=? month d)%N && (month d <=? 12)%N &&
  (1 <=? day d)%N && (day d <=? 31)%N && (hour d <? 24)%N &&
  (minute d <? 60)%N && (second d <? 60)%N && (millis d <? 1000)%N.

Definition set_now (d : Date) (db : Db) : Db :=
  mkDb d (users db) (email_aliases db) (emails db) (devices db) (sync_data db).

(** What can happen to the engine in one step: the clock moves on, or
    some request has one statement of the adapter executed. *)
Inductive Op : Type :=
| Tick (d : Date)
| OpCreateUser (u : User)
| OpCreateAlias (a : NewAlias)
| OpUpdateAlias (aid : string) (updates : AliasUpdates)
| OpDeleteEmailsOfAlias (aid : string)
| OpDeleteAliasRow (aid : string)
| OpCreateEmail (e : NewEmail)
| OpMarkEmailAsRead (eid : string)
| OpCreateDevice (d : NewDevice)
| OpUpdateDeviceLastSync (did : string)
| OpCreateSyncData (sd : NewSyncData).

(** The engine after one step; a statement that raises changes nothing,
    and the clock never runs backwards. *)
Definition apply (o : Op) (db : Db) : Db :=
  match o with
  | Tick d => if wfb d && JsDate.leb (now db) d then set_now d db else db
  | OpCreateUser u => snd (createUser u db)
  | OpCreateAlias a => snd (createAlias a db)
  | OpUpdateAlias aid updates => snd (updateAlias aid updates db)
  | OpDeleteEmailsOfAlias aid => snd (delete_emails_of_alias aid db)
  | OpDeleteAliasRow aid => snd (delete_alias_row aid db)
  | OpCreateEmail e => snd (createEmail e db)
  | OpMarkEmailAsRead eid => snd (markEmailAsRead eid db)
  | OpCreateDevice d => snd (createDevice d db)
  | OpUpdateDeviceLastSync did => snd (updateDeviceLastSync did db)
  | OpCreateSyncData sd => snd (createSyncData sd db)
  end.

Definition apply_all (l : list Op) (db : Db) : Db :=
  fold_left (fun db o => apply o db) l db.

(** A freshly initialised engine at clock reading [d]. *)
Definition fresh (d : Date) : Db := mkDb d [] [] [] [] [].

Definition is_tick (o : Op) : bool := if o is Tick _ then true else false.

(** No two rows of [email_aliases] hold the same alias string. *)
Definition aliases_unique (db : Db) : Prop :=
  NoDup (map a_alias (email_aliases db)).

(** The clock shows a well-formed date, and every row of the log carries
    a well-formed stamp that the clock has reached. *)
Definition clock_inv (db : Db) : Prop :=
  wf (now db) /\
  Forall (fun r => wf (s_timestamp r) /\ le (s_timestamp r) (now db)) (sync_data db).

(** From [db] on, the clock does not go back and the log only gains
    rows, each stamped no earlier than the second [db]'s clock shows. *)
Definition later_than (db db' : Db) : Prop :=
  le (now db) (now db') /\
  exists extra, sync_data db' = sync_data db ++ extra /\
                Forall (fun r => le (to_second (now db)) (s_timestamp r)) extra.

End Interleaving.

(* ===================================================================== *)
(** * Alias routes: [POST /api/aliases], [PUT] and [DELETE /api/aliases/[id]] *)
(* ===================================================================== *)

Module AliasRoutes.
Import JsDate Store.

Inductive Response (A : Type) : Type :=
| Json200 (body : A)
| Json401
| Json404
| Json500 (error : string).
Arguments Json200 {A} body.
Arguments Json401 {A}.
Arguments Json404 {A}.
Arguments Json500 {A} error.

(** [s.replace(pat, rep)] with a string pattern: the first occurrence. *)
Definition replace_first (pat rep s : string) : string :=
  match String.index 0 pat s with
  | Some i =>
      String.substring 0 i s +:+ rep +:+
      String.substring (i + String.length pat)
        (String.length s - (i + String.length pat)) s
  | None => s
  end.

Definition getAuthenticatedUser (authHeader : option string) (db : Db) : option User :=
  match authHeader with
  | None => None
  | Some h =>
      if String.eqb h "" then None
      else getUserById (replace_first "Bearer " "" h) db
  end.

(** ** [POST]: allocation of a new alias *)

(** The body after [createAliasSchema.parse]. *)
Record CreateAliasBody : Type := mkCreateAliasBody {
  body_description : option string;
  body_forwardingEmail : string
}.

Record CreatedAlias : Type := mkCreatedAlias {
  created_id : string; created_alias : string;
  created_description : option string; created_forwardingEmail : string;
  created_isActive : bool
}.

Inductive Generated : Type :=
| OutOfFuel
| Exhausted                 (* [attempts > 10]: the handler answers 500 *)
| Picked (alias : string).

(** The [do ... while] loop.  [gen k] is what the [k]-th call of
    [EmailEncryption.generateAlias()] returns, counting from 0. *)
Fixpoint generate_unique (fuel : nat) (attempts : nat) (gen : nat -> string)
    (uid : string) (db : Db) : Generated :=
  match fuel with
  | 0 => OutOfFuel
  | S fuel' =>
      let alias_ := gen attempts in
      let attempts' := attempts + 1 in
      if 10 <? attempts' then Exhausted
      else if existsb (fun a => String.eqb (alias a) alias_) (getAliasesByUserId uid db)
           then generate_unique fuel' attempts' gen uid db
           else Picked alias_
  end.

(** The handler, from the authenticated user on; [aliasId] is the value
    of [crypto.randomUUID()].  [None]: the loop did not end within the
    fuel it was given. *)
Definition POST_with_fuel (fuel : nat) (authHeader : option string)
    (body : CreateAliasBody) (gen : nat -> string) (aliasId : string) (db : Db)
  : option (Response CreatedAlias * Db) :=
  match getAuthenticatedUser authHeader db with
  | None => Some (Json401, db)
  | Some user =>
      match generate_unique fuel 0 gen (User_id user) db with
      | OutOfFuel => None
      | Exhausted => Some (Json500 "Could not generate unique alias", db)
      | Picked alias_ =>
          match createAlias
                  (mkNewAlias aliasId (User_id user) alias_ (body_description body)
                     (body_forwardingEmail body) true) db with
          | (Ret _, db') =>
              Some (Json200 (mkCreatedAlias aliasId alias_ (body_description body)
                               (body_forwardingEmail body) true), db')
          | (Throw _, db') => Some (Json500 "Internal server error", db')
          end
      end
  end.

Definition POST := POST_with_fuel 11.

(** ** [PUT]: update of an alias *)

Definition PUT (authHeader : option string) (params_id : string)
    (updates : AliasUpdates) (db : Db) : Response unit * Db :=
  match getAuthenticatedUser authHeader db with
  | None => (Json401, db)
  | Some user =>
      match List.find (fun a => String.eqb (id a) params_id)
                      (getAliasesByUserId (User_id user) db) with
      | None => (Json404, db)
      | Some _ =>
          match updateAlias params_id updates db with
          | (Ret _, db') => (Json200 tt, db')
          | (Throw _, db') => (Json500 "Internal server error", db')
          end
      end
  end.

(** ** [DELETE]: removal of an alias *)


End AliasRoutes.

(* ===================================================================== *)
(** * Sync Service: [SyncService] *)
(* ===================================================================== *)

Module Sync.
Import JsDate Store Interleaving.

Record SyncResult : Type := mkSyncResult {
  aliases : list EmailAlias;
  syncTimestamp : Date
}.

(** A round of [syncDevice]: the value of its local [changes], and what
    it returns. *)
Record Round : Type := mkRound {
  changes : list SyncData;
  result : SyncResult
}.

Section SyncDevice.
(** [CryptoKey] is an opaque object of the Web Crypto API. *)
Variable CryptoKey : Type.

(** [syncDevice], with the requests [env1], [env2], [env3] of other
    callers that the engine serves while the three [await]s of the
    round are pending. *)
Definition syncDevice_among (env1 env2 env3 : list Op)
    (userId deviceId : string) (userMasterKey : CryptoKey)
    (lastSyncTimestamp : option Date) (db : Db) : Round * Db :=
  let syncTimestamp := now db in                      (* new Date() *)
  (* Get all changes since last sync *)
  let db1 := apply_all env1 db in
  let changes :=
    getSyncDataAfterTimestamp userId (default epoch lastSyncTimestamp) db1 in
  (* Process changes and apply to local state *)
  let db2 := apply_all env2 db1 in
  let aliases := getAliasesByUserId userId db2 in
  (* Mark device as synced *)
  let db3 := apply_all env3 db2 in
  let db4 := snd (updateDeviceLastSync deviceId db3) in
  (mkRound changes (mkSyncResult aliases syncTimestamp), db4).

(** A round that no other request interleaves with. *)
Definition syncDevice := syncDevice_among [] [] [].

End SyncDevice.

Section DecryptSyncData.
Variable CryptoKey : Type.
(** The value [JSON.parse] builds. *)
Variable Json : Type.
(** [ClientEncryption.decrypt(ciphertext, key)] of [./encryption] and
    [JSON.parse(text)]: each returns or throws. *)
Variable decrypt : string -> CryptoKey -> Res string.
Variable JSON_parse : string -> Res Json.

(** The result is [null] ([None]) or the parsed value. *)
Definition decryptSyncData (syncData : SyncData) (decryptionKey : CryptoKey)
  : Res (option Json) :=
  if String.eqb (encryptedData syncData) "" then Ret None
  else
    try_catch
      (decryptedString ← decrypt (encryptedData syncData) decryptionKey;
       value ← JSON_parse decryptedString;
       Ret (Some value))
      (fun error => Ret None).

(** Decrypting the entry fails: with the wrong key or a corrupt
    ciphertext [decrypt] throws, or what it returns is not JSON. *)
Definition decryption_fails (syncData : SyncData) (decryptionKey : CryptoKey) : Prop :=
  match decrypt (encryptedData syncData) decryptionKey with
  | Throw _ => True
  | Ret decryptedString =>
      match JSON_parse decryptedString with
      | Throw _ => True
      | Ret _ => False
      end
  end.
End DecryptSyncData.

End Sync.

(* ===================================================================== *)
(** * Key Manager: [MasterKeyManager] *)
(* ===================================================================== *)

Module KeyManager.

Definition bytes : Type := list Byte.byte.

Section Primitives.
(** Node's [crypto] and [Buffer] primitives the script calls. *)
Variable scryptSync : string -> bytes -> nat -> bytes.
(** [createCipheriv('aes-256-cbc', key, iv)], [update], [final] *)
Variable aes_256_cbc_encrypt : bytes -> bytes -> bytes -> bytes.
(** [createDecipheriv('aes-256-cbc', key, iv)], [update], [final] *)
Variable aes_256_cbc_decrypt : bytes -> bytes -> bytes -> Res bytes.
(** [buf.toString('base64')] and [Buffer.from(text, 'base64')] *)
Variable base64_encode : bytes -> string.
Variable base64_decode : string -> bytes.

Definition SERVICE_KEY : string := "emailalies-service-key-2024".

(** [generateMasterKey()]; [r32] and [r16] are what
    [crypto.randomBytes(32)] and [crypto.randomBytes(16)] return. *)
Definition generateMasterKey (r32 r16 : bytes) : bytes * bytes := (r32, r16).

(** [encryptMasterKey(masterKey, salt)]; [iv] is what
    [crypto.randomBytes(16)] returns. *)
Definition encryptMasterKey (iv : bytes) (masterKey salt : bytes) : string :=
  let key := scryptSync SERVICE_KEY salt 32 in
  let encrypted := aes_256_cbc_encrypt key iv masterKey in
  base64_encode (iv ++ encrypted).

(** Modelled from the spec: [MasterKeyManager.decryptMasterKey] of
    [@/lib/encryption], which the sync route calls with the stored blob
    and salt, is not among the sources.  Section 4.3 of the
    specification: unwrap decrypts the stored blob on demand under the
    key derived from the fixed service-wide secret and the user's salt,
    and fails with DecryptionFailed if the blob is malformed or the
    derived key does not decrypt it.  The blob is read in the layout
    [encryptMasterKey] writes: sixteen bytes of initialisation vector,
    then the ciphertext. *)
Definition decryptMasterKey (blob : string) (salt : bytes) : Res bytes :=
  let raw := base64_decode blob in
  if length raw <? 16 then Throw "DecryptionFailed"
  else
    let iv := take 16 raw in
    let encrypted := drop 16 raw in
    let key := scryptSync SERVICE_KEY salt 32 in
    try_catch (aes_256_cbc_decrypt key iv encrypted)
              (fun _ => Throw "DecryptionFailed").
End Primitives.

End KeyManager.

(* ===================================================================== *)
(** * Sample states *)
(* ===================================================================== *)

Module Samples.
Import JsDate Store Interleaving.

Definition alice : User := mkUser "u1" "a@x.com" "blob-a" "salt-a" false.
Definition bob : User := mkUser "u2" "b@x.com" "blob-b" "salt-b" false.
Definition phone : NewDevice := mkNewDevice "d1" "u1" "phone" "device-key".
Definition change1 : NewSyncData :=
  mkNewSyncData "s1" "u1" "d1" "alias" "a1" "" "create".

Definition t0800 : Date := mkDate 2024 1 15 8 0 0 0.
Definition t0900 : Date := mkDate 2024 1 15 9 0 0 0.
Definition t1030 : Date := mkDate 2024 1 15 10 30 0 250.
Definition t1100 : Date := mkDate 2024 1 15 11 0 0 0.

(** Alice registers a phone at 08:00; at 10:30:00.250 a change of hers
    is recorded. *)
Definition db_one_change : Db :=
  apply_all [OpCreateUser alice; OpCreateDevice phone; Tick t1030;
             OpCreateSyncData change1] (fresh t0800).

(** Alice has registered a phone and it is 09:00.  After a round of
    the phone a change of hers is recorded at 10:30:00.250, and at 11:00
    the phone comes back. *)
Definition db_at_0900 : Db :=
  apply_all [OpCreateUser alice; OpCreateDevice phone; Tick t0900] (fresh t0800).
Definition until_1100 : list Op :=
  [Tick t1030; OpCreateSyncData change1; Tick t1100].

(** Alice has registered a phone; the clock shows 10:00:00.900. *)
Definition db_before_round : Db :=
  apply_all [OpCreateUser alice; OpCreateDevice phone]
            (fresh (mkDate 2024 1 15 10 0 0 900)).

(** What happens while the round is under way: the clock reaches
    10:00:01.100 and a change of Alice's is recorded. *)
Definition concurrent_write : list Op :=
  [Tick (mkDate 2024 1 15 10 0 1 100); OpCreateSyncData change1].

(** Alice and Bob have an account; Bob holds the alias [x1@emailalies.io]. *)
Definition bobs_alias : NewAlias :=
  mkNewAlias "a-bob" "u2" "x1@emailalies.io" None "bob@home.org" true.
Definition db_bob_has_alias : Db :=
  apply_all [OpCreateUser alice; OpCreateUser bob; OpCreateAlias bobs_alias]
            (fresh t0800).

(** Alice holds the active alias [s7@emailalies.io], described as "shop". *)
Definition alices_alias : NewAlias :=
  mkNewAlias "a1" "u1" "s7@emailalies.io" (Some "shop") "inbox@a.com" true.
Definition db_alice_has_alias : Db :=
  apply_all [OpCreateUser alice; OpCreateAlias alices_alias] (fresh t0800).

(** Stand-ins for the primitives, to run the definitions on. *)
Definition toy_decrypt (ciphertext key : string) : Res string :=
  if String.eqb key "k1" && String.prefix "enc:" ciphertext
  then Ret (String.substring 4 (String.length ciphertext - 4) ciphertext)
  else Throw "OperationError".
Definition toy_parse (text : string) : Res string :=
  if String.eqb text "" then Throw "SyntaxError" else Ret text.
Definition entry (sid ciphertext : string) : SyncData :=
  mkSyncData sid "u1" "d1" "alias" "a1" ciphertext "create" t1030.

Definition toy_scrypt (password : string) (salt : list Byte.byte) (n : nat)
  : list Byte.byte := repeat Byte.x2a n.
Definition toy_encrypt (key iv plain : list Byte.byte) : list Byte.byte :=
  rev plain.
Definition toy_decrypt_cbc (key iv cipher : list Byte.byte) : Res (list Byte.byte) :=
  Ret (rev cipher).

End Samples.

(* ===================================================================== *)
(** * A household: two users with their aliases, devices and mail *)
(* ===================================================================== *)

Module Cases.
Import JsDate Store Interleaving Samples.

Definition t_next_day : Date := mkDate 2024 1 16 9 0 0 0.

Definition alices_second : NewAlias :=
  mkNewAlias "a2" "u1" "k9@emailalies.io" None "inbox@a.com" true.
Definition mail1 : NewEmail :=
  mkNewEmail "e1" "a1" "shop@x.com" "s7@emailalies.io" "Order" "ciphertext-1".
Definition mail2 : NewEmail :=
  mkNewEmail "e2" "a1" "news@x.com" "s7@emailalies.io" "News" "ciphertext-2".
Definition tablet : NewDevice := mkNewDevice "d2" "u2" "tablet" "device-key-2".
Definition change2 : NewSyncData :=
  mkNewSyncData "s2" "u1" "d1" "alias" "a2" "" "create".

(** Alice and Bob, an alias and a device each at 08:00; a mail arrives
    for Alice; at 10:30 she takes a second alias and the change is
    logged; on the next day a second mail arrives and a second change
    is logged. *)
Definition history : list Op :=
  [OpCreateUser alice; OpCreateUser bob; OpCreateAlias alices_alias;
   OpCreateAlias bobs_alias; OpCreateDevice phone; OpCreateDevice tablet;
   OpCreateEmail mail1; Tick t1030; OpCreateAlias alices_second;
   OpCreateSyncData change1; Tick t_next_day; OpCreateEmail mail2;
   OpCreateSyncData change2].

Definition household : Db := apply_all history (fresh t0800).

(** An administrator beside Alice, and a verification manager that
    accepts one code, issued to the administrator for a login. *)
Definition root : User := mkUser "u0" "spoass@icloud.com" "blob-0" "salt-0" true.
Definition office : Db := apply_all [OpCreateUser root; OpCreateUser alice] (fresh t0800).
Definition toy_verifyCode (email code : string) : option string :=
  if String.eqb email "spoass@icloud.com" && String.eqb code "123456"
  then Some "login" else None.


End Cases.

(* ===================================================================== *)
(** * Rate limiting: [RateLimiter] *)
(* ===================================================================== *)

Module RateLimit.

(** [requests] is the [Map<string, number[]>]; times are the
    milliseconds of [Date.now()]. *)
Record RateLimiter : Type := mkRateLimiter {
  maxRequests : Z;
  windowMs : Z;
  requests : gmap string (list Z)
}.

(** [new RateLimiter(maxRequests, windowMs)] *)
Definition new_RateLimiter (maxRequests windowMs : Z) : RateLimiter :=
  mkRateLimiter maxRequests windowMs ∅.

(** [new RateLimiter()]: 100 requests per 15 minutes. *)
Definition rateLimiter : RateLimiter := new_RateLimiter 100 (15 * 60 * 1000)%Z.

(** [isRateLimited(identifier)]; [now] is what [Date.now()] returns. *)
Definition isRateLimited (now : Z) (identifier : string) (this : RateLimiter)
  : bool * RateLimiter :=
  let windowStart := (now - windowMs this)%Z in
  (* Get existing requests for this identifier *)
  let userRequests := default [] (requests this !! identifier) in
  (* Filter out old requests *)
  let recentRequests := List.filter (fun time => (windowStart <? time)%Z) userRequests in
  (* Check if over limit *)
  if (maxRequests this <=? Z.of_nat (length recentRequests))%Z then (true, this)
  else
    (* Add current request *)
    (false,
     mkRateLimiter (maxRequests this) (windowMs this)
       (<[identifier := recentRequests ++ [now]]> (requests this))).

(** [getRemainingRequests(identifier)] *)
Definition getRemainingRequests (now : Z) (identifier : string) (this : RateLimiter) : Z :=
  let userRequests := default [] (requests this !! identifier) in
  let windowStart := (now - windowMs this)%Z in
  let recentRequests := List.filter (fun time => (windowStart <? time)%Z) userRequests in
  Z.max 0 (maxRequests this - Z.of_nat (length recentRequests))%Z.

(** A series of calls of [isRateLimited], each with its identifier and
    the time it is made at: the calls that were let through, in order,
    and the limiter after the last call. *)
Fixpoint serve (calls : list (string * Z)) (this : RateLimiter)
  : list (string * Z) * RateLimiter :=
  match calls with
  | [] => ([], this)
  | (identifier, now) :: rest =>
      let (limited, this') := isRateLimited now identifier this in
      let (passed, final) := serve rest this' in
      (if limited then passed else (identifier, now) :: passed, final)
  end.

(** The times at which calls of [identifier] were let through. *)
Definition times_of (identifier : string) (passed : list (string * Z)) : list Z :=
  map snd (List.filter (fun c => String.eqb (fst c) identifier) passed).

(** How many of them lie in the window that ends at [now]. *)
Definition in_window (this : RateLimiter) (now : Z) (times : list Z) : Z :=
  Z.of_nat (length (List.filter (fun time => (now - windowMs this <? time)%Z) times)).

(** The clock does not go back from one call to the next. *)
Fixpoint clock_monotone (from : Z) (calls : list (string * Z)) : Prop :=
  match calls with
  | [] => True
  | (_, now) :: rest => (from <= now)%Z /\ clock_monotone now rest
  end.

(** What the limiter keeps for an identifier. *)
Definition stored (this : RateLimiter) (identifier : string) : list Z :=
  default [] (requests this !! identifier).

(** The time of the last of the calls, [from] if there is none. *)
Definition last_time (from : Z) (calls : list (string * Z)) : Z :=
  List.last (map snd calls) from.

(** What the limiter keeps for an identifier agrees, on every window
    that ends at or after [from], with the calls let through. *)
Definition tracks (this : RateLimiter) (from : Z) (hist : list (string * Z)) : Prop :=
  forall identifier t0, (from <= t0)%Z ->
    List.filter (fun time => (t0 - windowMs this <? time)%Z) (stored this identifier) =
    List.filter (fun time => (t0 - windowMs this <? time)%Z) (times_of identifier hist).

End RateLimit.

(* ===================================================================== *)
(** * Sync Service, continued, and the routes that call it *)
(* ===================================================================== *)

Module SyncRoutes.
Import JsDate Store Interleaving Sync AliasRoutes.

(** [SyncService.registerDevice]; [deviceId] is the value of
    [crypto.randomUUID()] and [exportedDeviceKey] what
    [ClientEncryption.exportKey] returns for the generated key. *)
Definition registerDevice (deviceId exportedDeviceKey : string)
    (userId deviceName : string) : Eff Db string :=
  await _ <- createDevice (mkNewDevice deviceId userId deviceName exportedDeviceKey);
  fun db => (Ret deviceId, db).

(** [SyncService.getDeviceInfo] *)
Definition getDeviceInfo (userId deviceId : string) (db : Db) : option Device :=
  List.find (fun d => String.eqb (Device_id d) deviceId) (getDevicesByUserId userId db).

Section RecordChange.
Variable CryptoKey : Type.
(** The values [data] can take, those of them JavaScript holds for true,
    and [JSON.stringify]. *)
Variable Json : Type.
Variable truthy : Json -> bool.
Variable JSON_stringify : Json -> string.
(** [ClientEncryption.encrypt(text, key)] of [./encryption]. *)
Variable encrypt : string -> CryptoKey -> Res string.

End RecordChange.

(** ** [POST /api/sync/register]: a new device *)

Record RegisteredDevice : Type := mkRegisteredDevice {
  registered_deviceId : string;
  registered_deviceName : string
}.

Definition POST_register (authHeader : option string) (deviceName : string)
    (deviceId exportedDeviceKey : string) (db : Db)
  : Response RegisteredDevice * Db :=
  match getAuthenticatedUser authHeader db with
  | None => (Json401, db)
  | Some user =>
      match registerDevice deviceId exportedDeviceKey (User_id user) deviceName db with
      | (Ret deviceId', db') => (Json200 (mkRegisteredDevice deviceId' deviceName), db')
      | (Throw _, db') => (Json500 "Internal server error", db')
      end
  end.

(** ** [GET /api/sync]: the devices of the user *)

Definition GET_devices (authHeader : option string) (db : Db) : Response (list Device) :=
  match getAuthenticatedUser authHeader db with
  | None => Json401
  | Some user => Json200 (getDevicesByUserId (User_id user) db)
  end.

(** ** [POST /api/sync]: a sync round *)

(** The body after [syncSchema.parse]. *)
Record SyncBody : Type := mkSyncBody {
  body_deviceId : string;
  body_lastSyncTimestamp : option string
}.

Record SyncAnswer : Type := mkSyncAnswer {
  answer_aliases : list EmailAlias;
  answer_syncTimestamp : string
}.

Section SyncRoute.
Variable CryptoKey : Type.
(** [MasterKeyManager.decryptMasterKey] of [@/lib/encryption]. *)
Variable decryptMasterKey : string -> string -> Res CryptoKey.
(** [new Date(text)]; [None] stands for an Invalid Date. *)
Variable Date_parse : string -> option Date.

(** [lastSyncTimestamp ? new Date(lastSyncTimestamp) : undefined]; the
    empty string is falsy. *)
Definition lastSync_of (body : SyncBody) : option string :=
  match body_lastSyncTimestamp body with
  | None => None
  | Some text => if String.eqb text "" then None else Some text
  end.

Definition POST_sync (authHeader : option string) (body : SyncBody) (db : Db)
  : Response SyncAnswer * Db :=
  match getAuthenticatedUser authHeader db with
  | None => (Json401, db)
  | Some user =>
      (* Verify device belongs to user *)
      match List.find (fun d => String.eqb (Device_id d) (body_deviceId body))
                      (getDevicesByUserId (User_id user) db) with
      | None => (Json404, db)
      | Some _ =>
          (* Get user's master encryption key from database *)
          match decryptMasterKey (encryptionKey user) (masterKeySalt user) with
          | Throw _ => (Json500 "Internal server error", db)
          | Ret masterKey =>
              let round (lastSync : option Date) :=
                let (r, db') := syncDevice CryptoKey (User_id user) (body_deviceId body)
                                           masterKey lastSync db in
                (Json200 (mkSyncAnswer (aliases (result r))
                            (toISOString (syncTimestamp (result r)))), db') in
              match lastSync_of body with
              | None => round None
              | Some text =>
                  match Date_parse text with
                  | Some lastSync => round (Some lastSync)
                  | None =>
                      (* [toISOString] of an Invalid Date throws in the first
                         query of the round *)
                      (Json500 "Internal server error", db)
                  end
              end
          end
      end
  end.
End SyncRoute.

End SyncRoutes.

(* ===================================================================== *)
(** * [POST /api/auth/verify] and [GET /api/aliases] *)
(* ===================================================================== *)

Module AuthRoutes.
Import Store AliasRoutes.

Inductive Answer (A : Type) : Type :=
| Answer200 (body : A)
| AnswerError (status : Z) (error : string).
Arguments Answer200 {A} body.
Arguments AnswerError {A} status error.

Record Session : Type := mkSession {
  session_id : string; session_email : string; session_isAdmin : bool;
  session_token : string
}.

Section Verify.
(** [VerificationManager.verifyCode(email, code)] of [@/lib/verification]:
    the purpose the code was issued for, or null. *)
Variable verifyCode : string -> string -> option string.

(** The handler after [verifyCodeSchema.parse]; [sessionToken] is the
    value of [crypto.randomUUID()]. *)
Definition POST_verify (email code : string) (sessionToken : string) (db : Db)
  : Answer Session :=
  (* Verify the code *)
  match verifyCode email code with
  | None => AnswerError 400 "Invalid or expired verification code"
  | Some purpose =>
      (* Only handle login for existing admin users *)
      if negb (String.eqb purpose "login")
      then AnswerError 400 "Invalid verification purpose"
      else
        (* Get existing admin user *)
        match getUserByEmail email db with
        | None => AnswerError 404 "User not found"
        | Some user =>
            (* Ensure user is an admin *)
            if negb (isAdmin user)
            then AnswerError 403 "Access denied. Admin privileges required."
            else Answer200 (mkSession (User_id user) (User_email user)
                                      (isAdmin user) sessionToken)
        end
  end.
End Verify.

(** [GET /api/aliases] *)
Definition GET_aliases (authHeader : option string) (db : Db)
  : Response (list EmailAlias) :=
  match getAuthenticatedUser authHeader db with
  | None => Json401
  | Some user => Json200 (getAliasesByUserId (User_id user) db)
  end.

End AuthRoutes.

(* ===================================================================== *)
(** * [scripts/init-admin-users.js] *)
(* ===================================================================== *)

Module AdminScript.
Import Schema Store KeyManager.

(** The three statements the script runs, with the loop of
    [initializeTables]. *)
Definition script_schemas : list (list Stmt) :=
  [ [CreateTableIfNotExists "users"
       ["id"; "email"; "encryption_key"; "master_key_salt"; "is_admin";
        "created_at"; "updated_at"]];
    [AlterTableAddColumn "users" "master_key_salt"];
    [AlterTableAddColumn "users" "is_admin"] ].

Definition adminEmails : list string :=
  ["spoass@icloud.com"; "laila.torresanz@hotmail.com"].

(** What the script draws for one user: [randomBytes(32)],
    [randomBytes(16)] (the salt), [randomBytes(16)] (the vector) and
    [randomUUID()]. *)
Record Draw : Type := mkDraw {
  draw_masterKey : bytes; draw_salt : bytes; draw_iv : bytes; draw_userId : string
}.

(** [SELECT email FROM users WHERE email IN (?, ?)] *)
Definition existingUsers (db : Db) : list string :=
  map u_email
    (List.filter (fun r => existsb (String.eqb (u_email r)) adminEmails) (users db)).

(** [INSERT INTO users (id, email, encryption_key, master_key_salt,
    is_admin) VALUES (?, ?, ?, ?, 1)]; the salt is bound as the bytes of
    its buffer. *)
Definition insert_admin (userId email encryptedMasterKey : string) (salt : bytes)
  : Eff Db unit := fun db =>
  if existsb (fun r => String.eqb (u_id r) userId) (users db)
  then (Throw "UNIQUE constraint failed: users.id", db)
  else if existsb (fun r => String.eqb (u_email r) email) (users db)
  then (Throw "UNIQUE constraint failed: users.email", db)
  else (Ret tt,
        set_users (users db ++
          [mkUserRow userId email encryptedMasterKey (String.string_of_list_byte salt) 1
             (CURRENT_TIMESTAMP db) (CURRENT_TIMESTAMP db)]) db).

Inductive Outcome : Type :=
| Skipped                                  (* [process.exit(0)] *)
| Completed (created failed : list string).

Section Script.
Variable scryptSync : string -> bytes -> nat -> bytes.
Variable aes_256_cbc_encrypt : bytes -> bytes -> bytes -> bytes.
Variable base64_encode : bytes -> string.

(** The row the script stores for [email] from the draw [d]. *)
Definition admin_row (email : string) (d : Draw) (db : Db) : UserRow :=
  mkUserRow (draw_userId d) email
    (encryptMasterKey scryptSync aes_256_cbc_encrypt base64_encode
       (draw_iv d) (draw_masterKey d) (draw_salt d))
    (String.string_of_list_byte (draw_salt d)) 1
    (CURRENT_TIMESTAMP db) (CURRENT_TIMESTAMP db).

(** The loop [for (const email of adminEmails)], one draw per email: the
    emails created, the emails that failed, the engine. *)
Fixpoint create_admins (todo : list (string * Draw)) (db : Db)
  : list string * list string * Db :=
  match todo with
  | [] => ([], [], db)
  | (email, d) :: rest =>
      let (masterKey, salt) := generateMasterKey (draw_masterKey d) (draw_salt d) in
      let encryptedMasterKey :=
        encryptMasterKey scryptSync aes_256_cbc_encrypt base64_encode
                         (draw_iv d) masterKey salt in
      match insert_admin (draw_userId d) email encryptedMasterKey salt db with
      | (Ret _, db') =>
          let '(created, failed, final) := create_admins rest db' in
          (email :: created, failed, final)
      | (Throw _, db') =>
          let '(created, failed, final) := create_admins rest db' in
          (created, email :: failed, final)
      end
  end.

(** The script, on the catalog and the rows of the database file. *)
Definition init_admin_users (d1 d2 : Draw) (e : Env) (db : Db)
  : Outcome * Env * Db :=
  let e' := snd (for_each script_schemas e) in
  (* Check if admin users already exist *)
  if 0 <? length (existingUsers db) then (Skipped, e', db)
  else
    let '(created, failed, db') :=
      create_admins (combine adminEmails [d1; d2]) db in
    (Completed created failed, e', db').
End Script.

(** Two draws of the script's random values. *)
Definition draw1 : Draw :=
  mkDraw (repeat Byte.x01 32) (repeat Byte.x02 16) (repeat Byte.x03 16) "u-admin-1".
Definition draw2 : Draw :=
  mkDraw (repeat Byte.x04 32) (repeat Byte.x05 16) (repeat Byte.x06 16) "u-admin-2".
Definition toy_base64 (b : list Byte.byte) : string := String.string_of_list_byte b.

End AdminScript.

(* ===================================================================== *)
(** * What a run of the schema statements keeps and adds *)
(* ===================================================================== *)

Module Migration.
Import Schema.

(** [keeps c c']: every table of [c] is a table of [c'] with the same
    columns in the same places, possibly followed by new ones, and every
    index of [c] is an index of [c']. *)
Definition keeps (c c' : Catalog) : Prop :=
  (forall t cols, tables c !! t = Some cols ->
     exists extra, tables c' !! t = Some (cols ++ extra)) /\
  indexes c ⊆ indexes c'.

(** The statement names table [t] as the table it creates or alters. *)
Definition touches (t : string) (st : Stmt) : bool :=
  match st with
  | CreateTableIfNotExists t' _ => String.eqb t' t
  | AlterTableAddColumn t' _ => String.eqb t' t
  | _ => false
  end.

(** [cols] followed by those of [wanted] it lacks. *)
Definition with_columns (wanted cols : list string) : list string :=
  cols ++ List.filter (fun col => negb (bool_decide (col ∈ cols))) wanted.

(** The columns of [users] in the [CREATE TABLE] statement. *)
Definition users_columns : list string :=
  ["id"; "email"; "encryption_key"; "master_key_salt"; "is_admin";
   "created_at"; "updated_at"].

(** A database file from before the two migrations. *)
Definition legacy_catalog : Catalog :=
  mkCatalog {[ "users" := ["id"; "email"; "encryption_key"; "created_at"; "updated_at"] ]} ∅.

End Migration.

(* ===================================================================== *)
(** * Properties of the stored rows *)
(* ===================================================================== *)

Module Integrity.
Import JsDate Store Interleaving.

(** Primary keys and [UNIQUE] columns hold no value twice. *)
Definition keys_unique (db : Db) : Prop :=
  NoDup (map u_id (users db)) /\ NoDup (map u_email (users db)) /\
  NoDup (map a_id (email_aliases db)) /\ NoDup (map a_alias (email_aliases db)) /\
  NoDup (map e_id (emails db)) /\ NoDup (map d_id (devices db)) /\
  NoDup (map s_id (sync_data db)).

(** Every reference names a stored row. *)
Definition references_hold (db : Db) : Prop :=
  (forall a, In a (email_aliases db) -> In (a_user_id a) (map u_id (users db))) /\
  (forall e, In e (emails db) -> In (e_alias_id e) (map a_id (email_aliases db))) /\
  (forall d, In d (devices db) -> In (d_user_id d) (map u_id (users db))) /\
  (forall s, In s (sync_data db) ->
     In (s_user_id s) (map u_id (users db)) /\ In (s_device_id s) (map d_id (devices db))).

(** Every stamp of a row is a well-formed date. *)
Definition stamps_wf (db : Db) : Prop :=
  wf (now db) /\
  Forall (fun r => wf (a_created_at r)) (email_aliases db) /\
  Forall (fun r => wf (e_received_at r)) (emails db) /\
  Forall (fun r => wf (d_created_at r)) (devices db) /\
  Forall (fun r => wf (s_timestamp r)) (sync_data db).

(** Each element of [l] stands in relation [R] to all that follow it. *)
Fixpoint sorted_by {A} (R : A -> A -> Prop) (l : list A) : Prop :=
  match l with
  | [] => True
  | x :: l' => Forall (R x) l' /\ sorted_by R l'
  end.

(** [b] is no earlier than [a], to the second. *)
Definition not_after (a b : Date) : Prop := le (to_second a) (to_second b).

(** The fields of a date down to the second, which its stored text
    renders. *)
Definition second_fields (d : Date) : list N :=
  [year d; month d; day d; hour d; minute d; second d].

(** No row is stamped later than the second the clock shows, and none
    was updated or synced before it was created. *)
Definition stamps_ordered (db : Db) : Prop :=
  Forall (fun r => le (u_created_at r) (u_updated_at r) /\
                   le (u_updated_at r) (CURRENT_TIMESTAMP db)) (users db) /\
  Forall (fun r => le (a_created_at r) (a_updated_at r) /\
                   le (a_updated_at r) (CURRENT_TIMESTAMP db)) (email_aliases db) /\
  Forall (fun r => le (e_received_at r) (CURRENT_TIMESTAMP db)) (emails db) /\
  Forall (fun r => le (d_created_at r) (d_last_sync r) /\
                   le (d_last_sync r) (CURRENT_TIMESTAMP db)) (devices db) /\
  Forall (fun r => le (s_timestamp r) (CURRENT_TIMESTAMP db)) (sync_data db).

(** The limiter keeps no more than [maxRequests] times for any
    identifier. *)
Definition bounded (this : RateLimit.RateLimiter) : Prop :=
  forall identifier,
    (Z.of_nat (length (RateLimit.stored this identifier))
       <= Z.max 0 (RateLimit.maxRequests this))%Z.

(** A mail with its flag set, and a device with [last_sync] at [t]. *)
Definition read (m : Email) : Email :=
  mkEmail (Email_id m) (aliasId m) (from m) (to m) (subject m) (content m) true
          (receivedAt m).

Definition synced (t : Date) (d : Device) : Device :=
  mkDevice (Device_id d) (Device_userId d) (deviceName d) (deviceKey d) t
           (Device_createdAt d).

End Integrity.

(* ===================================================================== *)
(** * Properties *)
(* ===================================================================== *)

Example toISOString_epoch :
  JsDate.toISOString JsDate.epoch = "1970-01-01T00:00:00.000Z".
Proof. reflexivity. Qed.

Example sql_text_sample :
  JsDate.sql_text (JsDate.mkDate 2024 1 15 10 30 0 0) = "2024-01-15 10:30:00".
Proof. reflexivity. Qed.

(* ===================================================================== *)
(** ** Comparing the two renderings of a date *)
(* ===================================================================== *)

Section DateText.
Import JsDate.

Lemma string_compare_app (a b x y : string) :
  String.length a = String.length b ->
  String.compare (a +:+ x) (b +:+ y) =
  match String.compare a b with
  | Eq => String.compare x y
  | c => c
  end.
Proof.
  revert b. induction a as [|ca a IH]; intros [|cb b] Hlen; simpl in *; try discriminate.
  - reflexivity.
  - injection Hlen as Hlen. destruct (Ascii.compare ca cb); auto.
Qed.

Lemma string_length_app (a b : string) :
  String.length (a +:+ b) = String.length a + String.length b.
Proof. induction a; simpl; auto. Qed.

Lemma length_digits k n : String.length (digits k n) = k.
Proof.
  revert n. induction k as [|k IH]; intros n; simpl; [reflexivity|].
  rewrite string_length_app, IH. simpl. lia.
Qed.

Lemma digit_compare (a b : N) :
  Ascii.compare (digit a) (digit b) = N.compare (a mod 10) (b mod 10).
Proof.
  unfold Ascii.compare, digit.
  assert (Ha : (a mod 10 < 10)%N) by (apply N.mod_lt; discriminate).
  assert (Hb : (b mod 10 < 10)%N) by (apply N.mod_lt; discriminate).
  rewrite !N_ascii_embedding by lia.
  destruct (N.compare_spec (a mod 10) (b mod 10)) as [H|H|H].
  - rewrite H. apply N.compare_refl.
  - apply N.compare_lt_iff. lia.
  - apply N.compare_gt_iff. lia.
Qed.

Lemma digits_compare k (a b : N) :
  (a < 10 ^ N.of_nat k)%N -> (b < 10 ^ N.of_nat k)%N ->
  String.compare (digits k a) (digits k b) = N.compare a b.
Proof.
  revert a b. induction k as [|k IH]; intros a b Ha Hb.
  - simpl in *. assert (a = 0%N) by lia. assert (b = 0%N) by lia. subst. reflexivity.
  - cbn [digits]. rewrite string_compare_app by (rewrite !length_digits; reflexivity).
    rewrite Nat2N.inj_succ, N.pow_succ_r' in Ha, Hb.
    rewrite IH by (apply N.Div0.div_lt_upper_bound; lia).
    cbn [String.compare]. rewrite digit_compare.
    pose proof (N.div_mod a 10 ltac:(discriminate)) as Hda.
    pose proof (N.div_mod b 10 ltac:(discriminate)) as Hdb.
    assert (Hma : (a mod 10 < 10)%N) by (apply N.mod_lt; discriminate).
    assert (Hmb : (b mod 10 < 10)%N) by (apply N.mod_lt; discriminate).
    clear IH Ha Hb.
    generalize dependent (a mod 10)%N. generalize dependent (b mod 10)%N.
    generalize dependent (a / 10)%N. generalize dependent (b / 10)%N.
    intros qb qa rb Hdb Hmb ra Hda Hma.
    destruct (N.compare_spec qa qb) as [Hq|Hq|Hq].
    + destruct (N.compare_spec ra rb) as [Hr|Hr|Hr].
      * symmetry. apply N.compare_eq_iff. lia.
      * symmetry. apply N.compare_lt_iff. lia.
      * symmetry. apply N.compare_gt_iff. lia.
    + symmetry. apply N.compare_lt_iff. lia.
    + symmetry. apply N.compare_gt_iff. lia.
Qed.

Lemma lex_compare_app (p q x y : list N) :
  length p = length q ->
  lex_compare (p ++ x) (q ++ y) =
  match lex_compare p q with
  | Eq => lex_compare x y
  | c => c
  end.
Proof.
  revert q. induction p as [|a p IH]; intros [|b q] Hlen; simpl in *; try discriminate.
  - reflexivity.
  - injection Hlen as Hlen. destruct (N.compare a b); auto.
Qed.

Lemma length_date_text d : String.length (date_text d) = 10.
Proof.
  unfold date_text. rewrite !string_length_app, !length_digits. reflexivity.
Qed.

Lemma date_text_compare (a b : Date) :
  wf a -> wf b ->
  String.compare (date_text a) (date_text b) = lex_compare (ymd a) (ymd b).
Proof.
  intros (Hya & Hma & Hda & _) (Hyb & Hmb & Hdb & _).
  unfold date_text, ymd.
  rewrite string_compare_app by (rewrite !length_digits; reflexivity).
  rewrite (digits_compare 4) by (simpl; lia).
  cbn [lex_compare]. destruct (N.compare (year a) (year b)); try reflexivity.
  rewrite (string_compare_app "-" "-") by reflexivity.
  change (String.compare "-" "-") with Eq. cbv iota.
  rewrite string_compare_app by (rewrite !length_digits; reflexivity).
  rewrite (digits_compare 2) by (simpl; lia).
  destruct (N.compare (month a) (month b)); try reflexivity.
  rewrite (string_compare_app "-" "-") by reflexivity.
  change (String.compare "-" "-") with Eq. cbv iota.
  rewrite (digits_compare 2) by (simpl; lia).
  destruct (N.compare (day a) (day b)); reflexivity.
Qed.

(** The comparison SQLite makes in [timestamp > ?]: the texts differ at
    the eleventh character at the latest, a space in the stored text and
    a [T] in the parameter, so only the calendar day decides. *)
Lemma sql_text_vs_iso (a b : Date) :
  wf a -> wf b ->
  String.compare (sql_text a) (toISOString b) =
  match lex_compare (ymd a) (ymd b) with
  | Eq => Lt
  | c => c
  end.
Proof.
  intros Ha Hb. unfold sql_text, toISOString.
  rewrite string_compare_app by (rewrite !length_date_text; reflexivity).
  rewrite date_text_compare by assumption.
  destruct (lex_compare (ymd a) (ymd b)); reflexivity.
Qed.

Lemma text_gt_iff_later_day (a b : Date) :
  wf a -> wf b ->
  text_gt (sql_text a) (toISOString b) = true <-> lex_compare (ymd a) (ymd b) = Gt.
Proof.
  intros Ha Hb. unfold text_gt. rewrite sql_text_vs_iso by assumption.
  destruct (lex_compare (ymd a) (ymd b)); split; intros; congruence.
Qed.

Lemma compare_by_day (a b : Date) :
  JsDate.compare a b =
  match lex_compare (ymd a) (ymd b) with
  | Eq => lex_compare [hour a; minute a; second a; millis a]
                      [hour b; minute b; second b; millis b]
  | c => c
  end.
Proof.
  unfold JsDate.compare, fields, ymd.
  change [year a; month a; day a; hour a; minute a; second a; millis a]
    with ([year a; month a; day a] ++ [hour a; minute a; second a; millis a]).
  change [year b; month b; day b; hour b; minute b; second b; millis b]
    with ([year b; month b; day b] ++ [hour b; minute b; second b; millis b]).
  apply lex_compare_app. reflexivity.
Qed.

(** A stored timestamp on a later day than [b] is later than [b]. *)
Lemma later_day_lt (a b : Date) :
  lex_compare (ymd a) (ymd b) = Gt -> JsDate.compare a b = Gt.
Proof. intros H. rewrite compare_by_day, H. reflexivity. Qed.

(** A timestamp not later than [b] is not on a later day than [b]. *)
Lemma le_not_later_day (a b : Date) :
  JsDate.le a b -> lex_compare (ymd a) (ymd b) <> Gt.
Proof.
  unfold JsDate.le. rewrite compare_by_day.
  destruct (lex_compare (ymd a) (ymd b)); congruence.
Qed.

End DateText.

(* ===================================================================== *)
(** ** Order of dates *)
(* ===================================================================== *)

Section DateOrder.
Import JsDate.

Lemma lex_compare_antisym (a b : list N) :
  lex_compare a b = CompOpp (lex_compare b a).
Proof.
  revert b. induction a as [|x a IH]; intros [|y b]; simpl; try reflexivity.
  rewrite (N.compare_antisym y x). destruct (N.compare y x); simpl; auto.
Qed.

Lemma lex_compare_refl (a : list N) : lex_compare a a = Eq.
Proof. induction a as [|x a IH]; simpl; [|rewrite N.compare_refl]; auto. Qed.

Lemma lex_le_trans (a b c : list N) :
  lex_compare a b <> Gt -> lex_compare b c <> Gt -> lex_compare a c <> Gt.
Proof.
  revert b c. induction a as [|x a IH]; intros [|y b] [|z c]; simpl; try congruence.
  destruct (N.compare_spec x y) as [Hxy|Hxy|Hxy]; try congruence;
    destruct (N.compare_spec y z) as [Hyz|Hyz|Hyz]; try congruence; subst; intros H1 H2.
  - rewrite N.compare_refl. eauto.
  - apply N.compare_lt_iff in Hyz. rewrite Hyz. discriminate.
  - apply N.compare_lt_iff in Hxy. rewrite Hxy. discriminate.
  - assert (Hxz : (x < z)%N) by lia. apply N.compare_lt_iff in Hxz.
    rewrite Hxz. discriminate.
Qed.

Lemma le_trans (a b c : Date) : le a b -> le b c -> le a c.
Proof. unfold le, JsDate.compare. apply lex_le_trans. Qed.

Lemma le_refl (a : Date) : le a a.
Proof. unfold le, JsDate.compare. rewrite lex_compare_refl. discriminate. Qed.

Lemma leb_le (a b : Date) : leb a b = true -> le a b.
Proof. unfold leb, le. destruct (JsDate.compare a b); congruence. Qed.

Lemma gt_lt (a b : Date) : JsDate.compare a b = Gt -> lt b a.
Proof.
  unfold lt, JsDate.compare. intros H.
  rewrite lex_compare_antisym, H. reflexivity.
Qed.

Lemma to_second_le (a : Date) : le (to_second a) a.
Proof.
  unfold le, JsDate.compare, fields, to_second. simpl.
  rewrite !N.compare_refl. destruct (millis a); simpl; discriminate.
Qed.

Lemma to_second_wf (a : Date) : wf a -> wf (to_second a).
Proof. unfold wf, to_second. simpl. intuition lia. Qed.

Lemma wfb_wf (d : Date) : Interleaving.wfb d = true -> wf d.
Proof.
  unfold Interleaving.wfb, wf. rewrite !andb_true_iff.
  rewrite !N.ltb_lt, !N.leb_le. tauto.
Qed.

End DateOrder.

(* ===================================================================== *)
(** ** [ORDER BY] keeps the rows it is given *)
(* ===================================================================== *)

Section OrderBy.
Import Store.
Context {A : Type} (before : A -> A -> bool).

Lemma insert_by_perm (x : A) (l : list A) : insert_by before x l ≡ₚ x :: l.
Proof.
  induction l as [|y l IH]; simpl; [reflexivity|].
  destruct (before x y); [reflexivity|].
  rewrite IH. apply Permutation_swap.
Qed.

Lemma order_by_perm (l : list A) : order_by before l ≡ₚ l.
Proof.
  induction l as [|x l IH]; simpl; [reflexivity|].
  unfold order_by in *. simpl. rewrite insert_by_perm, IH. reflexivity.
Qed.

Lemma In_order_by (x : A) (l : list A) : In x (order_by before l) <-> In x l.
Proof.
  rewrite <- !list_elem_of_In. rewrite order_by_perm. reflexivity.
Qed.

End OrderBy.

(* ===================================================================== *)
(** ** The sync log and the clock *)
(* ===================================================================== *)

Section SyncLog.
Import JsDate Store Interleaving Sync.

Lemma clock_inv_fresh (d : Date) : wf d -> clock_inv (fresh d).
Proof. intros H. split; [exact H | constructor]. Qed.

(** Only [createSyncData] writes the log and only [Tick] moves the clock. *)
Lemma apply_log_clock (o : Op) (db : Db) :
  (now (apply o db) = now db /\ sync_data (apply o db) = sync_data db) \/
  (exists d, o = Tick d /\ wf d /\ le (now db) d /\
             now (apply o db) = d /\ sync_data (apply o db) = sync_data db) \/
  (exists sd, o = OpCreateSyncData sd /\ now (apply o db) = now db /\
              sync_data (apply o db) =
              sync_data db ++
                [mkSyncRow (ns_id sd) (ns_userId sd) (ns_deviceId sd) (ns_dataType sd)
                   (ns_dataId sd) (ns_encryptedData sd) (ns_operation sd)
                   (CURRENT_TIMESTAMP db)]).
Proof.
  destruct o; simpl.
  - destruct (wfb d && JsDate.leb (now db) d) eqn:E; [|left; auto].
    apply andb_true_iff in E as [Hwf Hle]. right; left. exists d.
    split; [reflexivity|]. split; [apply wfb_wf, Hwf|].
    split; [apply leb_le, Hle|]. split; reflexivity.
  - left. unfold createUser. case_ifs.
  - left. unfold createAlias. case_ifs.
  - left. split; reflexivity.
  - left. split; reflexivity.
  - left. unfold delete_alias_row. case_ifs.
  - left. unfold createEmail. case_ifs.
  - left. split; reflexivity.
  - left. unfold createDevice. case_ifs.
  - left. split; reflexivity.
  - unfold createSyncData.
    destruct (existsb _ (sync_data db)); [left; split; reflexivity|].
    destruct (_ || _); [left; split; reflexivity|].
    right; right. exists sd. repeat split; reflexivity.
Qed.

Lemma clock_inv_apply (o : Op) (db : Db) : clock_inv db -> clock_inv (apply o db).
Proof.
  intros [Hnow Hlog].
  destruct (apply_log_clock o db)
    as [[En El] | [(d & _ & Hwf & Hle & En & El) | (sd & _ & En & El)]];
    unfold clock_inv; rewrite En, El.
  - split; assumption.
  - split; [assumption|].
    eapply Forall_impl; [exact Hlog|]. intros r [Hr1 Hr2]. split; [assumption|].
    eapply le_trans; eassumption.
  - split; [assumption|]. apply Forall_app. split; [assumption|].
    constructor; [|constructor]. simpl. unfold CURRENT_TIMESTAMP.
    split; [apply to_second_wf; assumption | apply to_second_le].
Qed.

Lemma clock_inv_apply_all (l : list Op) (db : Db) :
  clock_inv db -> clock_inv (apply_all l db).
Proof.
  revert db. induction l as [|o l IH]; intros db H; simpl; [assumption|].
  apply IH, clock_inv_apply, H.
Qed.

(** Clock ticks leave the log as it is. *)
Lemma ticks_keep_log (l : list Op) (db : Db) :
  forallb is_tick l = true -> sync_data (apply_all l db) = sync_data db.
Proof.
  revert db. induction l as [|o l IH]; intros db H; simpl in *; [reflexivity|].
  apply andb_true_iff in H as [Ho Hl]. rewrite IH by assumption.
  destruct o; try discriminate. simpl. destruct (_ && _); reflexivity.
Qed.

(** What [getSyncDataAfterTimestamp] selects, stated on dates: the rows
    of the user stamped on a calendar day after the day of [t]. *)
Lemma sync_where_spec (uid : string) (t : Date) (row : SyncRow) :
  wf t -> wf (s_timestamp row) ->
  sync_where uid (toISOString t) row = true <->
  s_user_id row = uid /\ lex_compare (ymd (s_timestamp row)) (ymd t) = Gt.
Proof.
  intros Ht Hr. unfold sync_where.
  rewrite andb_true_iff, String.eqb_eq, text_gt_iff_later_day by assumption.
  reflexivity.
Qed.

Lemma In_getSyncDataAfterTimestamp (uid : string) (t : Date) (db : Db) (e : SyncData) :
  In e (getSyncDataAfterTimestamp uid t db) <->
  exists row, In row (sync_data db) /\ sync_where uid (toISOString t) row = true /\
              e = syncdata_of_row row.
Proof.
  unfold getSyncDataAfterTimestamp. rewrite in_map_iff. split.
  - intros (row & <- & Hin). apply In_order_by in Hin.
    apply filter_In in Hin as [Hin Hw]. eauto.
  - intros (row & Hin & Hw & ->). exists row. split; [reflexivity|].
    apply In_order_by. apply filter_In. auto.
Qed.

(** What the delta read returns, exactly: the rows of the user stamped
    on a calendar day after the day of the watermark. *)
Lemma getSyncDataAfterTimestamp_exactly (uid : string) (t : Date) (db : Db) (e : SyncData) :
  wf t -> clock_inv db ->
  In e (getSyncDataAfterTimestamp uid t db) <->
  exists row, In row (sync_data db) /\ s_user_id row = uid /\
              lex_compare (ymd (s_timestamp row)) (ymd t) = Gt /\
              e = syncdata_of_row row.
Proof.
  intros Ht [_ Hlog]. rewrite List.Forall_forall in Hlog.
  rewrite In_getSyncDataAfterTimestamp. split.
  - intros (row & Hin & Hw & ->). exists row. split; [exact Hin|].
    apply sync_where_spec in Hw as [Hu Hday]; [auto|exact Ht|apply (Hlog row Hin)].
  - intros (row & Hin & Hu & Hday & ->). exists row. split; [exact Hin|].
    split; [|reflexivity]. apply sync_where_spec; [exact Ht|apply (Hlog row Hin)|auto].
Qed.

(** With the watermark at the epoch the read returns the whole log of
    the user, every stamp being later than 1 January 1970. *)
Lemma getSyncDataAfterTimestamp_epoch (uid : string) (db : Db) (e : SyncData) :
  clock_inv db ->
  Forall (fun r => lex_compare (ymd (s_timestamp r)) (ymd epoch) = Gt) (sync_data db) ->
  In e (getSyncDataAfterTimestamp uid epoch db) <->
  exists row, In row (sync_data db) /\ s_user_id row = uid /\ e = syncdata_of_row row.
Proof.
  intros Hinv Hlate. rewrite List.Forall_forall in Hlate.
  rewrite getSyncDataAfterTimestamp_exactly; [|vm_compute; repeat split; congruence|exact Hinv].
  split.
  - intros (row & Hin & Hu & _ & He). eauto.
  - intros (row & Hin & Hu & He). exists row. auto.
Qed.

(** The sound half of the delta read: whatever it returns belongs to the
    user and is stamped after [t]. *)
Lemma getSyncDataAfterTimestamp_sound (uid : string) (t : Date) (db : Db) (e : SyncData) :
  wf t -> clock_inv db ->
  In e (getSyncDataAfterTimestamp uid t db) ->
  SyncData_userId e = uid /\ lt t (timestamp e).
Proof.
  intros Ht [_ Hlog] Hin.
  apply In_getSyncDataAfterTimestamp in Hin as (row & Hin & Hw & ->).
  rewrite List.Forall_forall in Hlog. destruct (Hlog row Hin) as [Hwf _].
  apply sync_where_spec in Hw as [Hu Hday]; [|assumption..].
  split; [exact Hu|]. simpl. apply gt_lt, later_day_lt, Hday.
Qed.

(** A log whose stamps the watermark [t] has reached yields no row. *)
Lemma getSyncDataAfterTimestamp_nil (uid : string) (t : Date) (db : Db) :
  wf t ->
  Forall (fun r => wf (s_timestamp r) /\ le (s_timestamp r) t) (sync_data db) ->
  getSyncDataAfterTimestamp uid t db = [].
Proof.
  intros Ht Hlog.
  destruct (getSyncDataAfterTimestamp uid t db) as [|e l] eqn:E; [reflexivity|].
  assert (Hin : In e (getSyncDataAfterTimestamp uid t db)) by (rewrite E; left; auto).
  apply In_getSyncDataAfterTimestamp in Hin as (row & Hin & Hw & _).
  rewrite List.Forall_forall in Hlog. destruct (Hlog row Hin) as [Hwf Hle].
  apply sync_where_spec in Hw as [_ Hday]; [|assumption..].
  exfalso. eapply le_not_later_day; eassumption.
Qed.

End SyncLog.

(* ===================================================================== *)
(** ** Sync rounds *)
(* ===================================================================== *)

Section SyncRounds.
Import JsDate Store Interleaving Sync Samples.

Lemma lex_compare_last (p q : list N) (x y : N) :
  length p = length q ->
  lex_compare (p ++ [x]) (q ++ [y]) <> Gt ->
  lex_compare (p ++ [0%N]) (q ++ [0%N]) <> Gt.
Proof.
  intros Hlen. rewrite !lex_compare_app by assumption.
  destruct (lex_compare p q); simpl; congruence.
Qed.

Lemma to_second_mono (a b : Date) : le a b -> le (to_second a) (to_second b).
Proof.
  unfold le, JsDate.compare, fields, to_second. cbn [year month day hour minute second millis].
  apply (lex_compare_last [year a; month a; day a; hour a; minute a; second a]
                          [year b; month b; day b; hour b; minute b; second b]).
  reflexivity.
Qed.

Lemma later_than_refl (db : Db) : later_than db db.
Proof.
  split; [apply le_refl|]. exists []. split; [symmetry; apply app_nil_r | constructor].
Qed.

Lemma later_than_apply (o : Op) (db db' : Db) :
  later_than db db' -> later_than db (apply o db').
Proof.
  intros [Hclock (extra & Hlog & Hextra)].
  destruct (apply_log_clock o db')
    as [[En El] | [(d & _ & _ & Hle & En & El) | (sd & _ & En & El)]];
    unfold later_than; rewrite En, El.
  - split; [assumption|]. eauto.
  - split; [eapply le_trans; eassumption|]. eauto.
  - split; [assumption|].
    eexists (extra ++ [_]). rewrite Hlog, <- app_assoc. split; [reflexivity|].
    apply Forall_app. split; [assumption|]. constructor; [|constructor].
    simpl. unfold CURRENT_TIMESTAMP. apply to_second_mono, Hclock.
Qed.

Lemma later_than_apply_all (l : list Op) (db db' : Db) :
  later_than db db' -> later_than db (apply_all l db').
Proof.
  revert db'. induction l as [|o l IH]; intros db' H; simpl; [assumption|].
  apply IH, later_than_apply, H.
Qed.

Lemma syncDevice_among_final_later (CryptoKey : Type) (env1 env2 env3 : list Op)
    (userId deviceId : string) (k : CryptoKey) (last : option Date) (db : Db) :
  later_than db (snd (syncDevice_among CryptoKey env1 env2 env3 userId deviceId k last db)).
Proof.
  unfold syncDevice_among. cbn [snd].
  assert (H : later_than db (apply_all env3 (apply_all env2 (apply_all env1 db))))
    by (do 3 apply later_than_apply_all; apply later_than_refl).
  destruct H as [Hc (extra & Hl & He)]. split; [exact Hc|].
  exists extra. split; [exact Hl | exact He].
Qed.

(** C2 (code defect): the delta read compares the stored text
    [2024-01-15 10:30:00] with the parameter [2024-01-15T09:00:00.000Z]
    byte by byte; the space sorts before the [T], so the row of user
    [u1] stamped at 10:30, strictly after the watermark 09:00 of the same
    day, is not returned, neither by [getSyncDataAfterTimestamp] nor to
    the round of [syncDevice] that presents this watermark. *)
Theorem C2_same_day_entry_not_returned :
  let row := mkSyncRow "s1" "u1" "d1" "alias" "a1" "" "create"
                       (mkDate 2024 1 15 10 30 0 0) in
  sync_data db_one_change = [row] /\
  lt t0900 (s_timestamp row) /\
  getSyncDataAfterTimestamp "u1" t0900 db_one_change = [] /\
  changes (fst (syncDevice unit "u1" "d1" tt (Some t0900) db_one_change)) = [].
Proof. vm_compute. repeat split. Qed.

(** With the watermark omitted the round reads from the epoch on, and
    the row is read. *)
Example full_sync_reads_the_entry :
  changes (fst (syncDevice unit "u1" "d1" tt None db_one_change)) =
  [mkSyncData "s1" "u1" "d1" "alias" "a1" "" "create" (mkDate 2024 1 15 10 30 0 0)].
Proof. vm_compute. reflexivity. Qed.

(** The same in the course of a day: the phone syncs at 09:00, a change
    is recorded at 10:30, and the round of 11:00, presenting the
    timestamp the round of 09:00 returned, reads nothing. *)
Example second_round_misses_the_entry :
  let first := syncDevice unit "u1" "d1" tt None db_at_0900 in
  let db2 := apply_all until_1100 (snd first) in
  let second := syncDevice unit "u1" "d1" tt
                  (Some (syncTimestamp (result (fst first)))) db2 in
  syncTimestamp (result (fst first)) = t0900 /\
  map s_timestamp (sync_data db2) = [mkDate 2024 1 15 10 30 0 0] /\
  changes (fst second) = [].
Proof. vm_compute. repeat split. Qed.

(** C3 (as stated, refuted): the round starts at 10:00:00.900; after it
    has read the log and before it ends, a change is recorded and
    stamped 10:00:01.  The [syncTimestamp] the round returns is earlier
    than the timestamp of that entry, written concurrently with it. *)
Lemma C3_concurrent_entry_is_later :
  let round := syncDevice_among unit [] concurrent_write [] "u1" "d1" tt None
                                db_before_round in
  ~ Forall (fun row => le (s_timestamp row) (syncTimestamp (result (fst round))))
           (sync_data (snd round)).
Proof.
  vm_compute. intros H. inversion H as [|e l Hle _]. apply Hle. reflexivity.
Qed.

(** When the change is recorded while the first query of the round is
    still pending, the round reads the entry, and returns a timestamp
    earlier than that of an entry it has read. *)
Example observed_entry_is_later :
  let round := fst (syncDevice_among unit concurrent_write [] [] "u1" "d1" tt None
                                     db_before_round) in
  map timestamp (changes round) = [mkDate 2024 1 15 10 0 1 0] /\
  syncTimestamp (result round) = mkDate 2024 1 15 10 0 0 900 /\
  lt (syncTimestamp (result round)) (mkDate 2024 1 15 10 0 1 0).
Proof. vm_compute. repeat split. Qed.

(** A change recorded after the round has read the log is not read by
    that round, nor by the next round, which presents the timestamp of
    the first: the comparison of the two texts hides it. *)
Example next_round_skips_concurrent_entry :
  let first := syncDevice_among unit [] concurrent_write [] "u1" "d1" tt None
                                db_before_round in
  let second := syncDevice unit "u1" "d1" tt
                  (Some (syncTimestamp (result (fst first))))
                  (apply_all [Tick t1100] (snd first)) in
  changes (fst first) = [] /\
  map s_id (sync_data (snd first)) = ["s1"] /\
  changes (fst second) = [].
Proof. vm_compute. repeat split. Qed.

(** C3 (amended): [syncTimestamp] is the clock reading taken when the
    round starts, before the log is read.  Whatever other requests run
    during the round, it is at or after the timestamp of every entry that
    was in the log when the round started, and every entry written during
    the round is stamped no earlier than the second in which the round
    started. *)
Theorem C3_sync_timestamp_is_round_start (CryptoKey : Type) (env1 env2 env3 : list Op)
    (userId deviceId : string) (userMasterKey : CryptoKey)
    (lastSyncTimestamp : option Date) (db : Db) :
  clock_inv db ->
  let round := syncDevice_among CryptoKey env1 env2 env3 userId deviceId
                                userMasterKey lastSyncTimestamp db in
  syncTimestamp (result (fst round)) = now db /\
  (forall row, In row (sync_data db) ->
               le (s_timestamp row) (syncTimestamp (result (fst round)))) /\
  (exists written,
      sync_data (snd round) = sync_data db ++ written /\
      Forall (fun row => le (to_second (syncTimestamp (result (fst round))))
                            (s_timestamp row)) written).
Proof.
  intros [_ Hlog] round. split; [reflexivity|]. split.
  - intros row Hin. rewrite List.Forall_forall in Hlog. apply (Hlog row Hin).
  - destruct (syncDevice_among_final_later CryptoKey env1 env2 env3 userId deviceId
                userMasterKey lastSyncTimestamp db) as [_ H]. exact H.
Qed.

Lemma clock_inv_db_before_round : clock_inv db_before_round.
Proof.
  split; [|constructor]. vm_compute. repeat split; congruence.
Defined.

Lemma C3_sync_timestamp_is_round_start_witness :
  clock_inv db_before_round /\
  let round := syncDevice_among unit concurrent_write [] [] "u1" "d1" tt None
                                db_before_round in
  syncTimestamp (result (fst round)) = now db_before_round /\
  (forall row, In row (sync_data db_before_round) ->
               le (s_timestamp row) (syncTimestamp (result (fst round)))) /\
  (exists written,
      sync_data (snd round) = sync_data db_before_round ++ written /\
      Forall (fun row => le (to_second (syncTimestamp (result (fst round))))
                            (s_timestamp row)) written).
Proof.
  split; [exact clock_inv_db_before_round|].
  exact (C3_sync_timestamp_is_round_start unit concurrent_write [] [] "u1" "d1" tt None
           db_before_round clock_inv_db_before_round).
Defined.

(** C4: a round, then a second round presenting the first round's
    [syncTimestamp] with no write in between (the clock may have moved
    on): the second round's [changes] is empty. *)
Theorem C4_second_round_reads_nothing (CryptoKey : Type) (k1 k2 : CryptoKey)
    (userId deviceId : string) (lastSyncTimestamp : option Date)
    (db : Db) (ticks : list Op) :
  clock_inv db ->
  forallb is_tick ticks = true ->
  let first := syncDevice CryptoKey userId deviceId k1 lastSyncTimestamp db in
  let second := syncDevice CryptoKey userId deviceId k2
                  (Some (syncTimestamp (result (fst first))))
                  (apply_all ticks (snd first)) in
  changes (fst second) = [].
Proof.
  intros [Hnow Hlog] Hticks first second.
  unfold second, first, syncDevice, syncDevice_among.
  cbn [fst snd changes result syncTimestamp apply_all fold_left default].
  apply getSyncDataAfterTimestamp_nil; [exact Hnow|].
  rewrite ticks_keep_log by exact Hticks. exact Hlog.
Qed.

Lemma clock_inv_db_one_change : clock_inv db_one_change.
Proof.
  split.
  - vm_compute. repeat split; congruence.
  - constructor; [|constructor]. split; vm_compute; [repeat split|]; congruence.
Defined.

Lemma C4_second_round_reads_nothing_witness :
  clock_inv db_one_change /\
  forallb is_tick [Tick t1100] = true /\
  let first := syncDevice unit "u1" "d1" tt None db_one_change in
  let second := syncDevice unit "u1" "d1" tt
                  (Some (syncTimestamp (result (fst first))))
                  (apply_all [Tick t1100] (snd first)) in
  changes (fst second) = [].
Proof.
  split; [exact clock_inv_db_one_change|]. split; [reflexivity|].
  exact (C4_second_round_reads_nothing unit tt tt "u1" "d1" None db_one_change
           [Tick t1100] clock_inv_db_one_change eq_refl).
Defined.

(** C10: the alias snapshot, the returned timestamp, the log window and
    the state of the engine after a round are the same for any two
    master keys; [syncDevice] never looks at [userMasterKey]. *)
Theorem C10_sync_ignores_master_key (CryptoKey : Type) (k1 k2 : CryptoKey)
    (env1 env2 env3 : list Op) (userId deviceId : string)
    (lastSyncTimestamp : option Date) (db : Db) :
  syncDevice CryptoKey userId deviceId k1 lastSyncTimestamp db =
  syncDevice CryptoKey userId deviceId k2 lastSyncTimestamp db /\
  syncDevice_among CryptoKey env1 env2 env3 userId deviceId k1 lastSyncTimestamp db =
  syncDevice_among CryptoKey env1 env2 env3 userId deviceId k2 lastSyncTimestamp db.
Proof. split; reflexivity. Qed.

End SyncRounds.

(* ===================================================================== *)
(** ** Schema initialisation *)
(* ===================================================================== *)

Section SchemaInit.
Import Schema.

(** The loop never lets an error out, and its effect on the catalog is
    that of running the scripts with every error swallowed. *)
Lemma init_one_returns (sql : list Stmt) (e : Env) :
  fst (init_one sql e) = Ret tt /\
  cat (snd (init_one sql e)) = after sql (cat e).
Proof.
  unfold init_one, try_eff, exec_on, after.
  destruct (exec sql (cat e)) as [[[]|m] c']; simpl.
  - auto.
  - destruct (_ || _); auto.
Qed.

Lemma for_each_returns (l : list (list Stmt)) (e : Env) :
  fst (for_each l e) = Ret tt /\ cat (snd (for_each l e)) = run l (cat e).
Proof.
  revert e. induction l as [|sql l IH]; intros e; simpl; [auto|].
  destruct (init_one_returns sql e) as [Hr Hc]. unfold and_then.
  destruct (init_one sql e) as [[[]|m] e']; simpl in *; [|discriminate].
  rewrite <- Hc. apply IH.
Qed.

Lemma step_unfold (st : Stmt) (c : Catalog) :
  step st c = match exec_stmt st c with Ret c' => c' | Throw _ => c end.
Proof. unfold step, after. simpl. destruct (exec_stmt st c); reflexivity. Qed.

Lemma quiet_create (t : string) (cols : list string) (c : Catalog) :
  quiet (CreateTableIfNotExists t cols) c <->
  is_Some (tables c !! t) \/ is_Some (indexes c !! t).
Proof.
  unfold quiet. rewrite step_unfold. simpl.
  destruct (tables c !! t) as [old|] eqn:Et.
  - split; [eauto | reflexivity].
  - destruct (indexes c !! t) as [i|] eqn:Ei.
    + split; [eauto | reflexivity].
    + split.
      * intros H. apply (f_equal (fun c => tables c !! t)) in H. simpl in H.
        rewrite lookup_insert_eq, Et in H. discriminate.
      * intros [[? ?]|[? ?]]; discriminate.
Qed.

Lemma quiet_alter (t col : string) (c : Catalog) :
  quiet (AlterTableAddColumn t col) c <->
  match tables c !! t with
  | None => True
  | Some cols => col ∈ cols
  end.
Proof.
  unfold quiet. rewrite step_unfold. simpl.
  destruct (tables c !! t) as [cols|] eqn:Et; [|tauto].
  case_bool_decide as Hin; [tauto|]. split; [|tauto].
  intros H. apply (f_equal (fun c => tables c !! t)) in H. simpl in H.
  rewrite lookup_insert_eq, Et in H. injection H as H.
  apply (f_equal length) in H. rewrite length_app in H. simpl in H. lia.
Qed.

(** The effect of a statement on the two maps of the catalog. *)
Lemma step_tables (st : Stmt) (c : Catalog) (t : string) :
  tables (step st c) !! t = tables c !! t \/
  (exists cols, st = CreateTableIfNotExists t cols /\ tables c !! t = None /\
                tables (step st c) !! t = Some cols) \/
  (exists col cols, st = AlterTableAddColumn t col /\ tables c !! t = Some cols /\
                    tables (step st c) !! t = Some (cols ++ [col])).
Proof.
  rewrite step_unfold. destruct st as [t' cols|t' col|i t' col|sql]; simpl; [| | |auto].
  - destruct (tables c !! t') eqn:Et; [auto|].
    destruct (indexes c !! t'); [auto|]. simpl.
    destruct (decide (t' = t)) as [->|Hne].
    + right; left. exists cols. rewrite lookup_insert_eq. auto.
    + left. apply lookup_insert_ne, Hne.
  - destruct (tables c !! t') as [cols|] eqn:Et; [|auto].
    case_bool_decide as Hcol; [auto|]. simpl.
    destruct (decide (t' = t)) as [->|Hne].
    + right; right. exists col, cols. rewrite lookup_insert_eq. auto.
    + left. apply lookup_insert_ne, Hne.
  - destruct (tables c !! t'); [|auto]. destruct (tables c !! i); [auto|].
    destruct (indexes c !! i); [auto|]. case_bool_decide; auto.
Qed.

Lemma step_indexes (st : Stmt) (c : Catalog) (i : string) :
  is_Some (indexes c !! i) -> is_Some (indexes (step st c) !! i).
Proof.
  rewrite step_unfold. destruct st as [t' cols|t' col|i' t' col|sql]; simpl; [| | |auto].
  - destruct (tables c !! t'); [auto|]. destruct (indexes c !! t'); auto.
  - destruct (tables c !! t'); [|auto]. case_bool_decide; auto.
  - destruct (tables c !! t'); [|auto]. destruct (tables c !! i'); [auto|].
    destruct (indexes c !! i') eqn:Ei; [auto|]. case_bool_decide as Hcol; [|auto]. simpl.
    intros H. destruct (decide (i' = i)) as [->|Hne].
    + rewrite lookup_insert_eq. eauto.
    + rewrite lookup_insert_ne by exact Hne. exact H.
Qed.

(** Every statement is quiet right after it has run. *)
Lemma quiet_after_step (st : Stmt) (c : Catalog) : quiet st (step st c).
Proof.
  unfold quiet. rewrite (step_unfold st c).
  destruct (exec_stmt st c) as [c'|m] eqn:E.
  - rewrite step_unfold. destruct st as [t cols|t col|i t col|sql]; simpl in *;
      [| | |discriminate].
    + destruct (tables c !! t) eqn:Et.
      * injection E as <-. rewrite Et. reflexivity.
      * destruct (indexes c !! t); [discriminate|]. injection E as <-. simpl.
        rewrite lookup_insert_eq. reflexivity.
    + destruct (tables c !! t) as [cols|] eqn:Et; [|discriminate].
      case_bool_decide as Hin; [discriminate|]. injection E as <-. simpl.
      rewrite lookup_insert_eq. rewrite bool_decide_true; [reflexivity|].
      apply elem_of_app. right. apply list_elem_of_singleton. reflexivity.
    + destruct (tables c !! t) as [cols|] eqn:Et; [|discriminate].
      destruct (tables c !! i) eqn:Eti; [discriminate|].
      destruct (indexes c !! i) eqn:Ei.
      * injection E as <-. rewrite Et, Eti, Ei. reflexivity.
      * case_bool_decide; [|discriminate]. injection E as <-. simpl.
        rewrite Et, Eti, lookup_insert_eq. reflexivity.
  - rewrite step_unfold, E. reflexivity.
Qed.

Lemma quiet_preserved (st st' : Stmt) (c : Catalog) :
  compatible st st' = true -> quiet st c -> quiet st (step st' c).
Proof.
  destruct st as [t cols|t col|i t col|sql]; simpl; [intros _| |discriminate|].
  3:{ intros _ _. unfold quiet. rewrite step_unfold. reflexivity. }
  - rewrite !quiet_create. intros [Ht|Hi].
    + left. destruct (step_tables st' c t) as [E|[(x & _ & _ & E)|(x & y & _ & _ & E)]];
        rewrite E; eauto.
    + right. apply step_indexes, Hi.
  - intros Hc. rewrite !quiet_alter.
    destruct (step_tables st' c t) as [E|[(x & -> & _ & E)|(x & y & _ & Ey & E)]];
      rewrite E.
    + auto.
    + simpl in Hc. rewrite String.eqb_refl in Hc. discriminate.
    + rewrite Ey. intros Hin. apply elem_of_app. auto.
Qed.

Lemma quiet_preserved_steps (st : Stmt) (l : list Stmt) (c : Catalog) :
  forallb (compatible st) l = true -> quiet st c -> quiet st (steps l c).
Proof.
  revert c. induction l as [|st' l IH]; intros c Hl Hq; simpl in *; [exact Hq|].
  apply andb_true_iff in Hl as [H1 H2]. apply IH; [exact H2|].
  apply quiet_preserved; assumption.
Qed.

(** After an ordered list has run, each of its statements is quiet. *)
Lemma all_quiet_after_steps (l : list Stmt) (c : Catalog) :
  ordered l = true -> List.Forall (fun st => quiet st (steps l c)) l.
Proof.
  revert c. induction l as [|st l IH]; intros c Ho; simpl in *; [constructor|].
  apply andb_true_iff in Ho as [H1 H2]. constructor.
  - apply quiet_preserved_steps; [exact H1 | apply quiet_after_step].
  - apply IH, H2.
Qed.

Lemma steps_quiet (l : list Stmt) (c : Catalog) :
  List.Forall (fun st => quiet st c) l -> steps l c = c.
Proof.
  induction 1 as [|st l Hq _ IH]; simpl; [reflexivity|].
  rewrite Hq. exact IH.
Qed.

Lemma below_refl (c : Catalog) : below c c.
Proof. split; reflexivity. Qed.

Lemma below_trans (a b c : Catalog) : below a b -> below b c -> below a c.
Proof. intros [H1 H2] [H3 H4]. split; [congruence | etrans; eassumption]. Qed.

Lemma below_antisym (a b : Catalog) : below a b -> below b a -> a = b.
Proof.
  intros [H1 H2] [_ H4]. destruct a, b; simpl in *. f_equal; [exact H1|].
  apply (anti_symm (⊆)); assumption.
Qed.

Lemma after_cons (st : Stmt) (rest : list Stmt) (c : Catalog) :
  after (st :: rest) c =
  match exec_stmt st c with
  | Ret c1 => after rest c1
  | Throw _ => c
  end.
Proof. unfold after. simpl. destruct (exec_stmt st c); reflexivity. Qed.

Lemma exec_index_below (st : Stmt) (c c1 : Catalog) :
  is_index st = true -> exec_stmt st c = Ret c1 -> below c c1.
Proof.
  destruct st as [| |i t col|]; try discriminate. intros _. simpl.
  destruct (tables c !! t); [|discriminate]. destruct (tables c !! i); [discriminate|].
  destruct (indexes c !! i) eqn:Ei.
  - intros [= <-]. apply below_refl.
  - case_bool_decide; [|discriminate]. intros [= <-]. split; [reflexivity|]. simpl.
    apply insert_subseteq, Ei.
Qed.

Lemma after_index_below (sql : list Stmt) (c : Catalog) :
  forallb is_index sql = true -> below c (after sql c).
Proof.
  revert c. induction sql as [|st rest IH]; intros c H; [apply below_refl|].
  simpl in H. apply andb_true_iff in H as [H1 H2]. rewrite after_cons.
  destruct (exec_stmt st c) as [c1|m] eqn:E; [|apply below_refl].
  eapply below_trans; [eapply exec_index_below; eassumption | apply IH, H2].
Qed.

(** A script of index statements reaches the same catalog from any
    catalog between its start and its result. *)
Lemma after_index_between (sql : list Stmt) (c c' : Catalog) :
  forallb is_index sql = true ->
  below c c' -> below c' (after sql c) -> after sql c' = after sql c.
Proof.
  revert c c'. induction sql as [|st rest IH]; intros c c' H Hlo Hhi.
  - apply below_antisym; assumption.
  - simpl in H. apply andb_true_iff in H as [H1 H2].
    rewrite after_cons in Hhi. rewrite (after_cons st rest c).
    destruct (exec_stmt st c) as [c1|m] eqn:E.
    + pose proof (exec_index_below st c c1 H1 E) as Hc1.
      pose proof (after_index_below rest c1 H2) as Hrest.
      rewrite after_cons.
      destruct st as [| |i t col|]; try discriminate. simpl in E |- *.
      destruct Hlo as [Ht Hi]. rewrite <- Ht.
      destruct (tables c !! t) as [cols|]; [|discriminate].
      destruct (tables c !! i); [discriminate|].
      destruct (indexes c' !! i) as [x|] eqn:Ei'.
      * apply IH; [exact H2| |exact Hhi]. split; [destruct Hc1; congruence|].
        destruct (indexes c !! i) eqn:Ei.
        -- injection E as <-. exact Hi.
        -- case_bool_decide; [|discriminate]. injection E as <-. simpl.
           apply insert_subseteq_l; [|exact Hi].
           destruct Hhi as [_ Hhi], Hrest as [_ Hrest]. simpl in Hrest.
           pose proof (lookup_weaken _ _ _ _ Ei' Hhi) as Hx.
           assert (Hy : indexes (after rest (mkCatalog (tables c) (<[i:=(t, col)]> (indexes c)))) !! i
                        = Some (t, col))
             by (eapply lookup_weaken; [apply lookup_insert_eq | exact Hrest]).
           congruence.
      * assert (Ei : indexes c !! i = None).
        { destruct (indexes c !! i) eqn:Ei; [|reflexivity].
          rewrite (lookup_weaken _ _ _ _ Ei Hi) in Ei'. discriminate. }
        rewrite Ei in E. case_bool_decide; [|discriminate]. injection E as <-.
        apply IH; [exact H2| |].
        -- split; [reflexivity|]. simpl. apply insert_mono, Hi.
        -- split; [simpl; destruct Hhi as [Hhi _]; congruence|]. simpl.
           destruct Hhi as [_ Hhi], Hrest as [_ Hrest]. simpl in Hrest.
           apply insert_subseteq_l; [|exact Hhi].
           eapply lookup_weaken; [apply lookup_insert_eq | exact Hrest].
    + assert (c' = c) as -> by (apply below_antisym; assumption).
      rewrite after_cons, E. reflexivity.
Qed.

Lemma after_index_idempotent (sql : list Stmt) (c : Catalog) :
  forallb is_index sql = true -> after sql (after sql c) = after sql c.
Proof.
  intros H. apply after_index_between; [exact H| |apply below_refl].
  apply after_index_below, H.
Qed.

(** More indexes do not wake up a statement on tables. *)
Lemma quiet_below (st : Stmt) (c c' : Catalog) :
  is_index st = false -> below c c' -> quiet st c -> quiet st c'.
Proof.
  intros Hst [Ht Hi]. destruct st as [t cols|t col| |sql]; [| |discriminate|].
  3:{ intros _. unfold quiet. rewrite step_unfold. reflexivity. }
  - rewrite !quiet_create, <- Ht. intros [H|[x Hx]]; [auto|].
    right. exists x. eapply lookup_weaken; eassumption.
  - rewrite !quiet_alter, <- Ht. auto.
Qed.

(** The shape of [schemas]: statements on tables, one per script, in an
    order in which none wakes up an earlier one, then one script of
    index statements.  Running such a list twice is running it once. *)
Lemma tables_then_indexes_idempotent (tbl idx : list Stmt) (c : Catalog) :
  ordered tbl = true ->
  forallb (fun st => negb (is_index st)) tbl = true ->
  forallb is_index idx = true ->
  let r c := after idx (steps tbl c) in
  r (r c) = r c.
Proof.
  intros Ho Hidx Hi r. unfold r.
  assert (Hq : List.Forall (fun st => quiet st (after idx (steps tbl c))) tbl).
  { pose proof (all_quiet_after_steps tbl c Ho) as Hq.
    rewrite forallb_forall in Hidx. rewrite List.Forall_forall in *. intros st Hin.
    eapply quiet_below; [|apply after_index_below, Hi | apply Hq, Hin].
    apply negb_true_iff, Hidx, Hin. }
  rewrite (steps_quiet tbl _ Hq). apply after_index_idempotent, Hi.
Qed.

Lemma run_schemas (c : Catalog) :
  run schemas c = after index_script (steps table_statements c).
Proof. reflexivity. Qed.

Lemma run_schemas_idempotent (c : Catalog) :
  run schemas (run schemas c) = run schemas c.
Proof.
  rewrite !run_schemas.
  apply (tables_then_indexes_idempotent table_statements index_script c); reflexivity.
Qed.

Lemma iter_run_schemas (n : nat) (c : Catalog) :
  Nat.iter (S n) (run schemas) c = run schemas c.
Proof.
  induction n as [|n IH]; [reflexivity|].
  change (Nat.iter (S (S n)) (run schemas) c)
    with (run schemas (Nat.iter (S n) (run schemas) c)).
  rewrite IH. apply run_schemas_idempotent.
Qed.

(** What one call does to the catalog. *)
Lemma initializeTables_cat (this : DatabaseManager) (e : Env) :
  fst (initializeTables this e) = Ret tt /\
  cat (snd (initializeTables this e)) =
  if isCloudflare this then cat e else run schemas (cat e).
Proof.
  unfold initializeTables. destruct (isCloudflare this); [auto|].
  apply for_each_returns.
Qed.

Lemma initializeTablesAsync_cat (this : DatabaseManager) (e : Env) :
  fst (initializeTablesAsync this e) = Ret tt /\
  cat (snd (initializeTablesAsync this e)) =
  if negb (isCloudflare this) || negb (d1Db_bound this) then cat e
  else run schemas (cat e).
Proof.
  unfold initializeTablesAsync. destruct (_ || _); [auto|].
  apply for_each_returns.
Qed.

Lemma iter_cat (f : Env -> Env) (g : Catalog -> Catalog) (n : nat) (e : Env) :
  (forall e, cat (f e) = g (cat e)) -> cat (Nat.iter n f e) = Nat.iter n g (cat e).
Proof.
  intros H. induction n as [|n IH]; [reflexivity|]. simpl. rewrite H, IH. reflexivity.
Qed.

Lemma iter_id {A} (n : nat) (a : A) : Nat.iter n (fun x => x) a = a.
Proof. induction n; simpl; auto. Qed.

(** C5: on either engine, from any catalog and any console, a call of
    the schema initialisation returns without raising, and one call or
    any larger number of calls in a row leave the same tables, columns
    and indexes. *)
Theorem C5_schema_init_idempotent (this : DatabaseManager) (e : Env) (n : nat) :
  let init e := snd (initializeTables this e) in
  let initAsync e := snd (initializeTablesAsync this e) in
  fst (initializeTables this e) = Ret tt /\
  cat (Nat.iter (S n) init e) = cat (init e) /\
  fst (initializeTablesAsync this e) = Ret tt /\
  cat (Nat.iter (S n) initAsync e) = cat (initAsync e).
Proof.
  intros init initAsync.
  split; [apply initializeTables_cat|]. split; [|split; [apply initializeTablesAsync_cat|]].
  - rewrite (iter_cat init (fun c => if isCloudflare this then c else run schemas c))
      by (intros e'; apply initializeTables_cat).
    unfold init. rewrite (proj2 (initializeTables_cat this e)).
    destruct (isCloudflare this); [apply iter_id | apply iter_run_schemas].
  - rewrite (iter_cat initAsync
               (fun c => if negb (isCloudflare this) || negb (d1Db_bound this)
                         then c else run schemas c))
      by (intros e'; apply initializeTablesAsync_cat).
    unfold initAsync. rewrite (proj2 (initializeTablesAsync_cat this e)).
    destruct (_ || _); [apply iter_id | apply iter_run_schemas].
Qed.

(** On a new database the local initialisation creates the five tables
    and the four indexes, and writes nothing to the console. *)
Example initializeTables_on_empty :
  let e := snd (initializeTables (mkManager false false) (mkEnv empty_catalog [])) in
  console e = [] /\
  map fst (map_to_list (tables (cat e))) ≡ₚ
    ["users"; "email_aliases"; "emails"; "devices"; "sync_data"] /\
  size (indexes (cat e)) = 4.
Proof.
  vm_compute. split; [reflexivity|]. split; [|reflexivity].
  apply (bool_decide_unpack _). vm_compute. exact I.
Qed.

(** The same for an engine that rejects the [sync_data] statement.  The
    loop logs that error, and the error of the index on the missing
    table, on every run; it still returns, and a second run leaves the
    catalog of the first. *)
Lemma run_schemas_strict (c : Catalog) :
  run schemas_strict c =
  after index_script (steps (concat (take 7 schemas_strict)) c).
Proof. reflexivity. Qed.

Lemma run_schemas_strict_idempotent (c : Catalog) :
  run schemas_strict (run schemas_strict c) = run schemas_strict c.
Proof.
  rewrite !run_schemas_strict.
  apply (tables_then_indexes_idempotent (concat (take 7 schemas_strict)) index_script c);
    reflexivity.
Qed.

Lemma schemas_strict_idempotent (e : Env) (n : nat) :
  let init e := snd (for_each schemas_strict e) in
  fst (for_each schemas_strict e) = Ret tt /\
  cat (Nat.iter (S n) init e) = cat (init e).
Proof.
  intros init. split; [apply for_each_returns|].
  rewrite (iter_cat init (run schemas_strict))
    by (intros e'; apply for_each_returns).
  unfold init. rewrite (proj2 (for_each_returns schemas_strict e)).
  generalize (cat e). intros c.
  induction n as [|n IH]; [reflexivity|].
  rewrite Nat.iter_succ, IH. apply run_schemas_strict_idempotent.
Qed.

Example strict_engine_on_empty :
  let e := snd (for_each schemas_strict (mkEnv empty_catalog [])) in
  console e = ["syntax error"; "no such table: main.sync_data"] /\
  tables (cat e) !! "sync_data" = None /\
  size (tables (cat e)) = 4 /\ size (indexes (cat e)) = 3.
Proof. vm_compute. repeat split. Qed.

End SchemaInit.

(* ===================================================================== *)
(** ** Aliases: allocation, update, removal *)
(* ===================================================================== *)

Section Aliases.
Import JsDate Store Interleaving AliasRoutes Samples.

Lemma existsb_eqb_In {A} (f : A -> string) (x : string) (l : list A) :
  existsb (fun r => String.eqb (f r) x) l = true <-> In x (map f l).
Proof.
  rewrite existsb_exists, in_map_iff. split.
  - intros (r & Hin & He). apply String.eqb_eq in He. eauto.
  - intros (r & He & Hin). exists r. split; [exact Hin|]. apply String.eqb_eq, He.
Qed.

Lemma NoDup_map_filter {A B} (f : A -> B) (p : A -> bool) (l : list A) :
  NoDup (map f l) -> NoDup (map f (List.filter p l)).
Proof.
  induction l as [|x l IH]; simpl; [auto|]. intros H.
  apply NoDup_cons in H as [Hx Hl]. destruct (p x); simpl; [|auto].
  apply NoDup_cons. split; [|auto].
  rewrite list_elem_of_In, in_map_iff in *. intros (y & Hy & Hin).
  apply Hx. exists y. split; [exact Hy|]. apply filter_In in Hin. tauto.
Qed.

(** [createAlias] stores a row only if no stored row holds its alias. *)
Lemma createAlias_spec (a : NewAlias) (db : Db) :
  (exists m, createAlias a db = (Throw m, db)) \/
  (~ In (new_alias a) (map a_alias (email_aliases db)) /\
   exists row, a_alias row = new_alias a /\ a_user_id row = new_userId a /\
               createAlias a db = (Ret tt, set_email_aliases (email_aliases db ++ [row]) db)).
Proof.
  unfold createAlias.
  destruct (existsb _ (email_aliases db)) eqn:E1; [eauto|].
  destruct (existsb (fun r => String.eqb (a_alias r) (new_alias a)) (email_aliases db)) eqn:E2;
    [eauto|].
  destruct (negb _); [eauto|]. right. split.
  - rewrite <- existsb_eqb_In, E2. discriminate.
  - eexists. split; [|split; [|reflexivity]]; reflexivity.
Qed.

Lemma createAlias_unique (a : NewAlias) (db : Db) :
  aliases_unique db -> aliases_unique (snd (createAlias a db)).
Proof.
  intros H. destruct (createAlias_spec a db) as [[m E]|(Hnew & row & Ha & _ & E)];
    rewrite E; simpl; [exact H|].
  unfold aliases_unique. simpl. rewrite map_app. simpl. rewrite Ha.
  apply NoDup_app. split; [exact H|]. split; [|apply NoDup_singleton].
  intros x Hx Hx1. apply list_elem_of_singleton in Hx1. subst x.
  apply Hnew, list_elem_of_In, Hx.
Qed.

Lemma updateAlias_keeps_strings (aid : string) (updates : AliasUpdates) (db : Db) :
  map (fun r => (a_id r, a_user_id r, a_alias r, a_forwarding_email r))
      (email_aliases (snd (updateAlias aid updates db))) =
  map (fun r => (a_id r, a_user_id r, a_alias r, a_forwarding_email r))
      (email_aliases db).
Proof.
  simpl. rewrite map_map. apply map_ext. intros r.
  destruct (String.eqb (a_id r) aid); reflexivity.
Qed.

Lemma updateAlias_keeps_alias (aid : string) (updates : AliasUpdates) (db : Db) :
  map a_alias (email_aliases (snd (updateAlias aid updates db))) =
  map a_alias (email_aliases db).
Proof.
  simpl. rewrite map_map. apply map_ext. intros r.
  destruct (String.eqb (a_id r) aid); reflexivity.
Qed.

(** Every step of the engine keeps the alias strings distinct. *)
Lemma aliases_unique_apply (o : Op) (db : Db) :
  aliases_unique db -> aliases_unique (apply o db).
Proof.
  intros H. destruct o; simpl.
  - destruct (_ && _); exact H.
  - unfold createUser. case_ifs.
  - apply createAlias_unique, H.
  - unfold aliases_unique.
    pose proof (updateAlias_keeps_alias aid updates db) as E.
    simpl in E |- *. rewrite E. exact H.
  - exact H.
  - unfold delete_alias_row. destruct (_ && _); [exact H|].
    apply NoDup_map_filter, H.
  - unfold createEmail. case_ifs.
  - exact H.
  - unfold createDevice. case_ifs.
  - exact H.
  - unfold createSyncData. case_ifs.
Qed.

Lemma aliases_unique_apply_all (l : list Op) (db : Db) :
  aliases_unique db -> aliases_unique (apply_all l db).
Proof.
  revert db. induction l as [|o l IH]; intros db H; simpl; [exact H|].
  apply IH, aliases_unique_apply, H.
Qed.

(** In every state the engine can reach from an empty database, no two
    stored aliases are equal. *)
Lemma aliases_unique_reachable (l : list Op) (d : Date) :
  aliases_unique (apply_all l (fresh d)).
Proof. apply aliases_unique_apply_all. constructor. Qed.

(** The loop ends within the eleven turns the handler gives it. *)
Lemma generate_unique_fuel (fuel attempts : nat) (gen : nat -> string)
    (uid : string) (db : Db) :
  0 < fuel -> 11 <= fuel + attempts ->
  generate_unique fuel attempts gen uid db <> OutOfFuel.
Proof.
  revert attempts. induction fuel as [|fuel IH]; intros attempts H0 H; simpl; [lia|].
  destruct (10 <? attempts + 1) eqn:E; [discriminate|].
  apply Nat.ltb_ge in E.
  destruct (existsb _ _); [|discriminate].
  apply IH; lia.
Qed.

(** The alias the loop picks is none of the requesting user's aliases,
    and it is one of the first ten candidates. *)
Lemma generate_unique_picked (fuel attempts : nat) (gen : nat -> string)
    (uid : string) (db : Db) (a : string) :
  generate_unique fuel attempts gen uid db = Picked a ->
  ~ In a (map alias (getAliasesByUserId uid db)) /\
  exists k, attempts <= k < 10 /\ a = gen k.
Proof.
  revert attempts. induction fuel as [|fuel IH]; intros attempts; simpl; [discriminate|].
  destruct (10 <? attempts + 1) eqn:E; [discriminate|].
  apply Nat.ltb_ge in E.
  destruct (existsb _ _) eqn:Ex.
  - intros H. destruct (IH _ H) as [H1 (k & Hk & ->)]. split; [exact H1|].
    exists k. split; [lia | reflexivity].
  - intros [= <-]. split.
    + rewrite <- existsb_eqb_In, Ex. discriminate.
    + exists attempts. split; [lia | reflexivity].
Qed.

Lemma POST_total (authHeader : option string) (body : CreateAliasBody)
    (gen : nat -> string) (aliasId : string) (db : Db) :
  exists resp db', POST authHeader body gen aliasId db = Some (resp, db').
Proof.
  unfold POST, POST_with_fuel.
  destruct (getAuthenticatedUser authHeader db) as [user|]; [|eauto].
  pose proof (generate_unique_fuel 11 0 gen (User_id user) db ltac:(lia) ltac:(lia)) as Hf.
  destruct (generate_unique 11 0 gen (User_id user) db); [congruence|eauto|].
  destruct (createAlias _ db) as [[[]|m] db']; eauto.
Qed.

(** C1 (as stated, refuted): Bob holds [x1@emailalies.io]; the generator
    hands the same string to Alice's request.  The loop compares it with
    Alice's aliases only and picks it, although it is stored. *)
Lemma C1_check_is_per_user :
  ~ (forall a,
       generate_unique 11 0 (fun _ => "x1@emailalies.io") "u1" db_bob_has_alias = Picked a ->
       ~ In a (map a_alias (email_aliases db_bob_has_alias))).
Proof.
  intros H. apply (H "x1@emailalies.io"); [reflexivity|]. left. reflexivity.
Qed.

(** The insertion is then refused by the [UNIQUE] constraint, the
    handler answers 500 and the table is as before. *)
Example POST_collision_with_another_user :
  POST (Some "Bearer u1") (mkCreateAliasBody None "inbox@a.com")
       (fun _ => "x1@emailalies.io") "a-new" db_bob_has_alias =
  Some (Json500 "Internal server error", db_bob_has_alias).
Proof. vm_compute. reflexivity. Qed.

(** C1 (amended): no two stored aliases are equal, in any state and
    whatever runs next.  The allocation loop compares a candidate with
    the aliases of the requesting user only; it is the [UNIQUE]
    constraint on the [alias] column that keeps an alias held by anyone
    from being stored twice: a request answered 200 has stored an alias
    that no row held, and any other answer leaves the table as it was. *)
Theorem C1_stored_aliases_stay_distinct (db : Db) (authHeader : option string)
    (body : CreateAliasBody) (gen : nat -> string) (aliasId : string) :
  aliases_unique db ->
  (forall o, aliases_unique (apply o db)) /\
  exists resp db',
    POST authHeader body gen aliasId db = Some (resp, db') /\
    aliases_unique db' /\
    (forall created, resp = Json200 created ->
       (exists user, getAuthenticatedUser authHeader db = Some user /\
          ~ In (created_alias created)
               (map alias (getAliasesByUserId (User_id user) db))) /\
       ~ In (created_alias created) (map a_alias (email_aliases db)) /\
       map a_alias (email_aliases db') =
       map a_alias (email_aliases db) ++ [created_alias created]) /\
    ((forall created, resp <> Json200 created) -> db' = db).
Proof.
  intros Hu. split; [intros o; apply aliases_unique_apply, Hu|].
  unfold POST, POST_with_fuel.
  destruct (getAuthenticatedUser authHeader db) as [user|] eqn:Eu.
  2:{ eexists _, _. split; [reflexivity|]. split; [exact Hu|].
      split; [discriminate | reflexivity]. }
  pose proof (generate_unique_fuel 11 0 gen (User_id user) db ltac:(lia) ltac:(lia)) as Hf.
  destruct (generate_unique 11 0 gen (User_id user) db) as [| |a] eqn:Eg; [congruence| |].
  { eexists _, _. split; [reflexivity|]. split; [exact Hu|].
    split; [discriminate | reflexivity]. }
  apply generate_unique_picked in Eg as [Hmine _].
  set (new := mkNewAlias aliasId (User_id user) a (body_description body)
                (body_forwardingEmail body) true).
  pose proof (createAlias_unique new db Hu) as Hu'.
  destruct (createAlias_spec new db) as [[m E]|(Hnew & row & Ha & _ & E)];
    rewrite E in *; simpl in Hu'.
  - eexists _, _. split; [reflexivity|]. split; [exact Hu|].
    split; [discriminate | reflexivity].
  - eexists _, _. split; [reflexivity|]. split; [exact Hu'|]. split.
    + intros created [= <-]. simpl. split; [eauto|]. split; [exact Hnew|].
      rewrite map_app. simpl. rewrite Ha. reflexivity.
    + intros H. exfalso. eapply H. reflexivity.
Qed.

Lemma aliases_unique_db_bob_has_alias : aliases_unique db_bob_has_alias.
Proof. unfold aliases_unique. vm_compute. apply NoDup_singleton. Defined.

Lemma C1_stored_aliases_stay_distinct_witness :
  aliases_unique db_bob_has_alias /\
  (forall o, aliases_unique (apply o db_bob_has_alias)) /\
  exists resp db',
    POST (Some "Bearer u1") (mkCreateAliasBody None "inbox@a.com")
         (fun _ => "n9@emailalies.io") "a-new" db_bob_has_alias = Some (resp, db') /\
    aliases_unique db' /\
    (forall created, resp = Json200 created ->
       (exists user, getAuthenticatedUser (Some "Bearer u1") db_bob_has_alias = Some user /\
          ~ In (created_alias created)
               (map alias (getAliasesByUserId (User_id user) db_bob_has_alias))) /\
       ~ In (created_alias created) (map a_alias (email_aliases db_bob_has_alias)) /\
       map a_alias (email_aliases db') =
       map a_alias (email_aliases db_bob_has_alias) ++ [created_alias created]) /\
    ((forall created, resp <> Json200 created) -> db' = db_bob_has_alias).
Proof.
  split; [exact aliases_unique_db_bob_has_alias|].
  exact (C1_stored_aliases_stay_distinct db_bob_has_alias (Some "Bearer u1")
           (mkCreateAliasBody None "inbox@a.com") (fun _ => "n9@emailalies.io") "a-new"
           aliases_unique_db_bob_has_alias).
Defined.

Example POST_allocates :
  option_map fst
    (POST (Some "Bearer u1") (mkCreateAliasBody None "inbox@a.com")
          (fun _ => "n9@emailalies.io") "a-new" db_bob_has_alias) =
  Some (Json200 (mkCreatedAlias "a-new" "n9@emailalies.io" None "inbox@a.com" true)).
Proof. vm_compute. reflexivity. Qed.

(** C6 (code defect): Alice's alias is active and described as "shop".
    A [PUT] that supplies a new description only is answered 200, and
    the alias is stored inactive: [updates.isActive ? 1 : 0] turns the
    omitted flag into 0.  The alias string and the forwarding address are
    as before. *)
Theorem C6_omitted_isActive_is_cleared :
  let updates := mkAliasUpdates (Some "shopping") None in
  let before := getAliasesByUserId "u1" db_alice_has_alias in
  let answer := PUT (Some "Bearer u1") "a1" updates db_alice_has_alias in
  let after := getAliasesByUserId "u1" (snd answer) in
  map isActive before = [true] /\
  fst answer = Json200 tt /\
  map isActive after = [false] /\
  map description after = [Some "shopping"] /\
  map alias after = map alias before /\
  map forwardingEmail after = map forwardingEmail before.
Proof. vm_compute. repeat split. Qed.

(** The same on the other field: a [PUT] that supplies the flag only
    erases the description. *)
Example omitted_description_is_erased :
  let answer := PUT (Some "Bearer u1") "a1" (mkAliasUpdates None (Some true))
                    db_alice_has_alias in
  map description (getAliasesByUserId "u1" db_alice_has_alias) = [Some "shop"] /\
  map description (getAliasesByUserId "u1" (snd answer)) = [None].
Proof. vm_compute. repeat split. Qed.

(** When both fields are supplied the row takes them. *)
Lemma updateAlias_full (aid : string) (d : string) (b : bool) (db : Db) (row : AliasRow) :
  In row (email_aliases (snd (updateAlias aid (mkAliasUpdates (Some d) (Some b)) db))) ->
  a_id row = aid -> a_description row = Some d /\ a_is_active row = bit b.
Proof.
  simpl. rewrite in_map_iff. intros (r & Hr & _) Hid.
  destruct (String.eqb (a_id r) aid) eqn:E; subst row; simpl in *.
  - destruct b; auto.
  - apply String.eqb_neq in E. contradiction.
Qed.

(** C7: [deleteAlias] runs two statements.  The first removes exactly
    the emails of the alias and leaves the aliases alone; the second
    then removes the alias row and is never refused; afterwards the
    emails of that alias are an empty sequence, and the emails of the
    other aliases are the ones stored before. *)
Theorem C7_deleteAlias_cascades (aid : string) (db : Db) :
  let phase1 := snd (delete_emails_of_alias aid db) in
  let done := deleteAlias aid db in
  emails phase1 = List.filter (fun e => negb (String.eqb (e_alias_id e) aid)) (emails db) /\
  email_aliases phase1 = email_aliases db /\
  fst done = Ret tt /\
  emails (snd done) = emails phase1 /\
  email_aliases (snd done) =
    List.filter (fun r => negb (String.eqb (a_id r) aid)) (email_aliases db) /\
  getEmailsByAliasId aid (snd done) = [] /\
  (forall other, other <> aid ->
     getEmailsByAliasId other (snd done) = getEmailsByAliasId other db).
Proof.
  intros phase1 done.
  assert (Hnone : existsb (fun e => String.eqb (e_alias_id e) aid) (emails phase1) = false).
  { apply not_true_is_false. intros H. apply existsb_exists in H as (e & Hin & He).
    unfold phase1 in Hin. simpl in Hin. apply filter_In in Hin as [_ Hne].
    rewrite He in Hne. discriminate. }
  assert (Hdone : done = (Ret tt,
            set_email_aliases
              (List.filter (fun r => negb (String.eqb (a_id r) aid)) (email_aliases phase1))
              phase1)).
  { unfold done, deleteAlias, and_then.
    change (delete_emails_of_alias aid db) with (@Ret unit tt, phase1).
    cbv beta iota. unfold delete_alias_row.
    rewrite Hnone, andb_false_r. reflexivity. }
  rewrite Hdone. simpl. repeat split.
  - unfold getEmailsByAliasId. simpl.
    replace (List.filter _ (List.filter _ (emails db))) with (@nil EmailRow); [reflexivity|].
    symmetry. induction (emails db) as [|e l IH]; simpl; [reflexivity|].
    destruct (String.eqb (e_alias_id e) aid) eqn:E; simpl; [exact IH|].
    rewrite E. exact IH.
  - intros other Hne. unfold getEmailsByAliasId. simpl. do 2 f_equal.
    induction (emails db) as [|e l IH]; simpl; [reflexivity|].
    destruct (String.eqb (e_alias_id e) aid) eqn:E; simpl.
    + apply String.eqb_eq in E.
      assert (E' : String.eqb (e_alias_id e) other = false)
        by (apply String.eqb_neq; congruence).
      rewrite E'. exact IH.
    + destruct (String.eqb (e_alias_id e) other); [f_equal|]; exact IH.
Qed.

(** The order of the two statements matters: with an email stored, the
    engine refuses to delete the alias row first. *)
Example delete_alias_row_first_is_refused :
  let db := apply_all [OpCreateEmail (mkNewEmail "e1" "a1" "shop@x.org"
                                        "s7@emailalies.io" "hello" "text")]
                      db_alice_has_alias in
  fst (delete_alias_row "a1" db) = Throw "FOREIGN KEY constraint failed" /\
  fst (deleteAlias "a1" db) = Ret tt.
Proof. vm_compute. split; reflexivity. Qed.

End Aliases.

(* ===================================================================== *)
(** ** Decryption of sync entries *)
(* ===================================================================== *)

Section Decrypt.
Import Store Sync Samples.

Lemma decryptSyncData_returns (CryptoKey Json : Type)
    (decrypt : string -> CryptoKey -> Res string) (JSON_parse : string -> Res Json)
    (sd : SyncData) (key : CryptoKey) :
  returns (decryptSyncData CryptoKey Json decrypt JSON_parse sd key).
Proof.
  unfold decryptSyncData, returns.
  destruct (String.eqb (encryptedData sd) ""); [eauto|].
  destruct (decrypt (encryptedData sd) key) as [text|m]; simpl; [|eauto].
  destruct (JSON_parse text); simpl; eauto.
Qed.

(** C8: if decrypting an entry fails, [decryptSyncData] returns [null]
    for it and does not raise; it raises for no entry at all; and in a
    list of entries decrypted one by one the failing entry yields [null]
    at its place while every other entry yields what it yields without
    the failing entry. *)
Theorem C8_decrypt_failure_is_isolated (CryptoKey Json : Type)
    (decrypt : string -> CryptoKey -> Res string) (JSON_parse : string -> Res Json)
    (key : CryptoKey) (bad : SyncData) (before after : list SyncData) :
  decryption_fails CryptoKey Json decrypt JSON_parse bad key ->
  let read sd := decryptSyncData CryptoKey Json decrypt JSON_parse sd key in
  read bad = Ret None /\
  (forall sd, returns (read sd)) /\
  map read (before ++ bad :: after) = map read before ++ Ret None :: map read after /\
  map read (before ++ after) = map read before ++ map read after.
Proof.
  intros Hbad read. assert (Hnull : read bad = Ret None).
  { unfold read, decryptSyncData. unfold decryption_fails in Hbad.
    destruct (String.eqb (encryptedData bad) ""); [reflexivity|].
    destruct (decrypt (encryptedData bad) key) as [text|m]; simpl; [|reflexivity].
    destruct (JSON_parse text); simpl; [contradiction | reflexivity]. }
  split; [exact Hnull|]. split; [intros sd; apply decryptSyncData_returns|].
  rewrite !map_app. simpl. rewrite Hnull. split; reflexivity.
Qed.

Lemma C8_decrypt_failure_is_isolated_witness :
  decryption_fails string string toy_decrypt toy_parse (entry "s2" "corrupt") "k1" /\
  let read sd := decryptSyncData string string toy_decrypt toy_parse sd "k1" in
  read (entry "s2" "corrupt") = Ret None /\
  (forall sd, returns (read sd)) /\
  map read ([entry "s1" "enc:one"] ++ entry "s2" "corrupt" :: [entry "s3" "enc:three"]) =
    map read [entry "s1" "enc:one"] ++ Ret None :: map read [entry "s3" "enc:three"] /\
  map read ([entry "s1" "enc:one"] ++ [entry "s3" "enc:three"]) =
    map read [entry "s1" "enc:one"] ++ map read [entry "s3" "enc:three"].
Proof.
  assert (H : decryption_fails string string toy_decrypt toy_parse
                               (entry "s2" "corrupt") "k1") by (vm_compute; exact I).
  split; [exact H|].
  exact (C8_decrypt_failure_is_isolated string string toy_decrypt toy_parse "k1"
           (entry "s2" "corrupt") [entry "s1" "enc:one"] [entry "s3" "enc:three"] H).
Defined.

Example decrypt_round_with_one_corrupt_entry :
  map (fun sd => decryptSyncData string string toy_decrypt toy_parse sd "k1")
      [entry "s1" "enc:one"; entry "s2" "corrupt"; entry "s3" "enc:three"; entry "s4" ""] =
  [Ret (Some "one"); Ret None; Ret (Some "three"); Ret None].
Proof. vm_compute. reflexivity. Qed.

Example decrypt_with_wrong_key :
  map (fun sd => decryptSyncData string string toy_decrypt toy_parse sd "k2")
      [entry "s1" "enc:one"; entry "s3" "enc:three"] = [Ret None; Ret None].
Proof. vm_compute. reflexivity. Qed.

End Decrypt.

(* ===================================================================== *)
(** ** Key wrapping *)
(* ===================================================================== *)

Section KeyWrapping.
Import KeyManager Samples.

Variable scryptSync : string -> bytes -> nat -> bytes.
Variable aes_256_cbc_encrypt : bytes -> bytes -> bytes -> bytes.
Variable aes_256_cbc_decrypt : bytes -> bytes -> bytes -> Res bytes.
Variable base64_encode : bytes -> string.
Variable base64_decode : string -> bytes.

(** What the script relies on from Node: [scryptSync] returns as many
    bytes as asked for, decrypting under the key and vector of the
    encryption gives the plaintext back, and base64 decodes what it
    encoded. *)
Hypothesis scrypt_length :
  forall password salt n, length (scryptSync password salt n) = n.
Hypothesis aes_round_trip :
  forall key iv plain, length key = 32 -> length iv = 16 ->
    aes_256_cbc_decrypt key iv (aes_256_cbc_encrypt key iv plain) = Ret plain.
Hypothesis base64_round_trip :
  forall raw, base64_decode (base64_encode raw) = raw.

(** C9: for every master key and salt that [generateMasterKey] returns
    and every 16-byte initialisation vector drawn by [encryptMasterKey],
    unwrapping the wrapped key under the same salt gives the key back. *)
Theorem C9_unwrap_wrap (r32 r16 iv : bytes) :
  length iv = 16 ->
  let (masterKey, salt) := generateMasterKey r32 r16 in
  decryptMasterKey scryptSync aes_256_cbc_decrypt base64_decode
    (encryptMasterKey scryptSync aes_256_cbc_encrypt base64_encode iv masterKey salt)
    salt = Ret masterKey.
Proof.
  intros Hiv. unfold generateMasterKey, decryptMasterKey, encryptMasterKey.
  rewrite base64_round_trip.
  assert (Hlen : (length (iv ++ aes_256_cbc_encrypt (scryptSync SERVICE_KEY r16 32) iv r32)
                  <? 16) = false).
  { apply Nat.ltb_ge. rewrite length_app. lia. }
  rewrite Hlen.
  rewrite take_app_length' by (symmetry; exact Hiv).
  rewrite drop_app_length' by (symmetry; exact Hiv).
  rewrite aes_round_trip by (auto using scrypt_length). reflexivity.
Qed.

End KeyWrapping.

Lemma C9_unwrap_wrap_witness :
  length (repeat Byte.x07 16) = 16 /\
  let (masterKey, salt) :=
    KeyManager.generateMasterKey (repeat Byte.x01 32) (repeat Byte.x02 16) in
  KeyManager.decryptMasterKey Samples.toy_scrypt Samples.toy_decrypt_cbc
    String.list_byte_of_string
    (KeyManager.encryptMasterKey Samples.toy_scrypt Samples.toy_encrypt
       String.string_of_list_byte (repeat Byte.x07 16) masterKey salt)
    salt = Ret masterKey.
Proof.
  split; [reflexivity|].
  apply (C9_unwrap_wrap Samples.toy_scrypt Samples.toy_encrypt Samples.toy_decrypt_cbc
           String.string_of_list_byte String.list_byte_of_string).
  - intros password salt n. apply repeat_length.
  - intros key iv plain _ _. unfold Samples.toy_decrypt_cbc, Samples.toy_encrypt.
    rewrite rev_involutive. reflexivity.
  - apply String.list_byte_of_string_of_list_byte.
  - reflexivity.
Defined.

(* ===================================================================== *)
(** ** The rate limiter *)
(* ===================================================================== *)

Section RateLimiting.
Import RateLimit.

Lemma filter_filter_window (w t0 now : Z) (l : list Z) :
  (now <= t0)%Z ->
  List.filter (fun time => (t0 - w <? time)%Z)
              (List.filter (fun time => (now - w <? time)%Z) l) =
  List.filter (fun time => (t0 - w <? time)%Z) l.
Proof.
  intros H. induction l as [|x l IH]; simpl; [reflexivity|].
  destruct (now - w <? x)%Z eqn:E; simpl.
  - rewrite IH. reflexivity.
  - rewrite IH. apply Z.ltb_ge in E.
    assert (E' : (t0 - w <? x)%Z = false) by (apply Z.ltb_ge; lia).
    rewrite E'. reflexivity.
Qed.

Lemma times_of_app (identifier : string) (a b : list (string * Z)) :
  times_of identifier (a ++ b) = times_of identifier a ++ times_of identifier b.
Proof. unfold times_of. rewrite List.filter_app, map_app. reflexivity. Qed.

Lemma last_cons (a d : Z) (l : list Z) : List.last (a :: l) d = List.last l a.
Proof.
  revert a d. induction l as [|x l IH]; intros a d; [reflexivity|].
  change (List.last (a :: x :: l) d) with (List.last (x :: l) d).
  rewrite (IH x d), (IH x a). reflexivity.
Qed.

Lemma times_of_one (identifier i : string) (now : Z) :
  times_of i [(identifier, now)] = if String.eqb identifier i then [now] else [].
Proof. unfold times_of. simpl. destruct (String.eqb identifier i); reflexivity. Qed.

Lemma isRateLimited_fields (now : Z) (identifier : string) (this : RateLimiter) :
  maxRequests (snd (isRateLimited now identifier this)) = maxRequests this /\
  windowMs (snd (isRateLimited now identifier this)) = windowMs this.
Proof. unfold isRateLimited. destruct (_ <=? _)%Z; split; reflexivity. Qed.

Lemma isRateLimited_tracks (now from : Z) (identifier : string) (this : RateLimiter)
    (hist : list (string * Z)) :
  tracks this from hist -> (from <= now)%Z ->
  tracks (snd (isRateLimited now identifier this)) now
         (hist ++ if fst (isRateLimited now identifier this) then []
                  else [(identifier, now)]).
Proof.
  intros Ht Hle. unfold isRateLimited.
  destruct (_ <=? _)%Z eqn:E; simpl.
  - rewrite app_nil_r. intros i t0 H0. apply Ht. lia.
  - intros i t0 H0. unfold stored. simpl. rewrite times_of_app.
    destruct (decide (identifier = i)) as [->|Hne].
    + rewrite lookup_insert_eq. simpl.
      rewrite !List.filter_app, filter_filter_window by exact H0.
      fold (stored this i). rewrite (Ht i t0) by lia.
      rewrite times_of_one, String.eqb_refl. reflexivity.
    + rewrite lookup_insert_ne by exact Hne.
      fold (stored this i). rewrite (Ht i t0) by lia.
      assert (En : String.eqb identifier i = false) by (apply String.eqb_neq, Hne).
      rewrite times_of_one, En. simpl. rewrite app_nil_r. reflexivity.
Qed.

Lemma serve_tracks (calls : list (string * Z)) :
  forall (this : RateLimiter) (from : Z) (hist : list (string * Z)),
  tracks this from hist -> clock_monotone from calls ->
  maxRequests (snd (serve calls this)) = maxRequests this /\
  windowMs (snd (serve calls this)) = windowMs this /\
  tracks (snd (serve calls this)) (last_time from calls) (hist ++ fst (serve calls this)).
Proof.
  induction calls as [|[identifier now] rest IH]; intros this from hist Ht Hm.
  - simpl. rewrite app_nil_r. auto.
  - destruct Hm as [Hle Hm]. cbn [serve].
    pose proof (isRateLimited_tracks now from identifier this hist Ht Hle) as Ht1.
    pose proof (isRateLimited_fields now identifier this) as [Hmax Hwin].
    destruct (isRateLimited now identifier this) as [limited this1]. simpl in *.
    specialize (IH this1 now _ Ht1 Hm).
    destruct (serve rest this1) as [passed final]. simpl in *.
    destruct IH as (H1 & H2 & H3). split; [congruence|]. split; [congruence|].
    assert (Hl : last_time from ((identifier, now) :: rest) = last_time now rest).
    { unfold last_time. cbn [map snd]. apply last_cons. }
    rewrite Hl. destruct limited; simpl in *.
    + rewrite app_nil_r in H3. exact H3.
    + rewrite <- app_assoc in H3. exact H3.
Qed.

Lemma tracks_new (max w from : Z) : tracks (new_RateLimiter max w) from [].
Proof. intros i t0 _. reflexivity. Qed.

Lemma clock_monotone_app (from : Z) (calls : list (string * Z)) (identifier : string) (now : Z) :
  clock_monotone from (calls ++ [(identifier, now)]) ->
  clock_monotone from calls /\ (last_time from calls <= now)%Z.
Proof.
  revert from. induction calls as [|[i t] rest IH]; intros from; simpl.
  - intros [H _]. split; [exact I | exact H].
  - intros [H1 H2]. destruct (IH _ H2) as [H3 H4]. split; [auto|].
    unfold last_time in *. cbn [map snd]. rewrite last_cons. exact H4.
Qed.

(** The window of the limiter, read off the calls let through. *)
Lemma serve_window (max w start : Z) (calls : list (string * Z))
    (identifier : string) (now : Z) :
  clock_monotone start (calls ++ [(identifier, now)]) ->
  maxRequests (snd (serve calls (new_RateLimiter max w))) = max /\
  windowMs (snd (serve calls (new_RateLimiter max w))) = w /\
  List.filter (fun time => (now - w <? time)%Z)
              (stored (snd (serve calls (new_RateLimiter max w))) identifier) =
  List.filter (fun time => (now - w <? time)%Z)
              (times_of identifier (fst (serve calls (new_RateLimiter max w)))).
Proof.
  intros Hm. apply clock_monotone_app in Hm as [Hm Hlast].
  destruct (serve_tracks calls (new_RateLimiter max w) start [] (tracks_new max w start) Hm)
    as (H1 & H2 & H3).
  split; [exact H1|]. split; [exact H2|].
  specialize (H3 identifier now Hlast). rewrite H2 in H3. exact H3.
Qed.

(** X1: whatever calls came before, on a clock that does not go back, a
    call of [isRateLimited] is refused exactly when the calls of the same
    identifier that were let through within the window ending now number
    [maxRequests] or more. *)
Theorem X1_isRateLimited_counts_the_window (max w start : Z) (calls : list (string * Z))
    (identifier : string) (now : Z) :
  clock_monotone start (calls ++ [(identifier, now)]) ->
  let served := serve calls (new_RateLimiter max w) in
  fst (isRateLimited now identifier (snd served)) =
  (max <=? in_window (new_RateLimiter max w) now (times_of identifier (fst served)))%Z.
Proof.
  intros Hm served. destruct (serve_window max w start calls identifier now Hm)
    as (H1 & H2 & H3). fold served in H1, H2, H3.
  unfold isRateLimited, in_window. fold (stored (snd served) identifier).
  rewrite H1, H2, H3. simpl. destruct (_ <=? _)%Z; reflexivity.
Qed.

Lemma X1_isRateLimited_counts_the_window_witness :
  clock_monotone 0 ([("ip1", 5); ("ip2", 6); ("ip1", 7); ("ip1", 8)] ++ [("ip1", 14)])%Z /\
  let served := serve [("ip1", 5); ("ip2", 6); ("ip1", 7); ("ip1", 8)]%Z
                      (new_RateLimiter 2 10) in
  fst (isRateLimited 14 "ip1" (snd served)) =
  (2 <=? in_window (new_RateLimiter 2 10) 14 (times_of "ip1" (fst served)))%Z.
Proof.
  assert (H : clock_monotone 0
                ([("ip1", 5); ("ip2", 6); ("ip1", 7); ("ip1", 8)] ++ [("ip1", 14)])%Z)
    by (simpl; lia).
  split; [exact H|].
  exact (X1_isRateLimited_counts_the_window 2 10 0
           [("ip1", 5); ("ip2", 6); ("ip1", 7); ("ip1", 8)]%Z "ip1" 14 H).
Defined.

(** X2: on the same terms [getRemainingRequests] is [maxRequests] less
    the calls of the identifier let through within the window, and not
    below zero; it is zero exactly when [isRateLimited] would refuse. *)
Theorem X2_getRemainingRequests_counts_the_window (max w start : Z)
    (calls : list (string * Z)) (identifier : string) (now : Z) :
  clock_monotone start (calls ++ [(identifier, now)]) ->
  let served := serve calls (new_RateLimiter max w) in
  getRemainingRequests now identifier (snd served) =
  Z.max 0 (max - in_window (new_RateLimiter max w) now (times_of identifier (fst served))) /\
  (getRemainingRequests now identifier (snd served) = 0%Z <->
   fst (isRateLimited now identifier (snd served)) = true).
Proof.
  intros Hm served. destruct (serve_window max w start calls identifier now Hm)
    as (H1 & H2 & H3). fold served in H1, H2, H3.
  unfold getRemainingRequests, isRateLimited, in_window.
  fold (stored (snd served) identifier). rewrite H1, H2, H3. simpl.
  split; [reflexivity|].
  destruct (_ <=? _)%Z eqn:E; simpl.
  - apply Z.leb_le in E. split; [reflexivity | lia].
  - apply Z.leb_gt in E. split; [lia | discriminate].
Qed.

Lemma X2_getRemainingRequests_counts_the_window_witness :
  clock_monotone 0 ([("ip1", 5); ("ip2", 6); ("ip1", 7); ("ip1", 8)] ++ [("ip1", 14)])%Z /\
  let served := serve [("ip1", 5); ("ip2", 6); ("ip1", 7); ("ip1", 8)]%Z
                      (new_RateLimiter 2 10) in
  getRemainingRequests 14 "ip1" (snd served) =
  Z.max 0 (2 - in_window (new_RateLimiter 2 10) 14 (times_of "ip1" (fst served))) /\
  (getRemainingRequests 14 "ip1" (snd served) = 0%Z <->
   fst (isRateLimited 14 "ip1" (snd served)) = true).
Proof.
  assert (H : clock_monotone 0
                ([("ip1", 5); ("ip2", 6); ("ip1", 7); ("ip1", 8)] ++ [("ip1", 14)])%Z)
    by (simpl; lia).
  split; [exact H|].
  exact (X2_getRemainingRequests_counts_the_window 2 10 0
           [("ip1", 5); ("ip2", 6); ("ip1", 7); ("ip1", 8)]%Z "ip1" 14 H).
Defined.

(** Two requests per ten milliseconds: the third call of [ip1] within
    the window is refused, the call after the window has passed is not. *)
Example rate_limiter_run :
  let served := serve [("ip1", 5); ("ip2", 6); ("ip1", 7); ("ip1", 8); ("ip1", 16)]%Z
                      (new_RateLimiter 2 10) in
  fst served = [("ip1", 5); ("ip2", 6); ("ip1", 7); ("ip1", 16)]%Z /\
  requests (snd served) !! "ip1" = Some [7; 16]%Z /\
  getRemainingRequests 16 "ip1" (snd served) = 0%Z /\
  getRemainingRequests 17 "ip1" (snd served) = 1%Z.
Proof. vm_compute. repeat split. Qed.

(** X3: a refused call leaves the limiter as it was; a call let through
    takes one from what remains for its identifier; and no call changes
    what remains for another identifier. *)
Theorem X3_isRateLimited_spends_one (this : RateLimiter) (now : Z) (identifier : string) :
  (0 < windowMs this)%Z ->
  let after := snd (isRateLimited now identifier this) in
  (fst (isRateLimited now identifier this) = true -> after = this) /\
  (fst (isRateLimited now identifier this) = false ->
   getRemainingRequests now identifier after =
   (getRemainingRequests now identifier this - 1)%Z /\
   (0 < getRemainingRequests now identifier this)%Z) /\
  (forall other t, other <> identifier ->
     getRemainingRequests t other after = getRemainingRequests t other this).
Proof.
  intros Hw after. unfold after, isRateLimited, getRemainingRequests.
  destruct (_ <=? _)%Z eqn:E; simpl.
  - split; [reflexivity|]. split; [discriminate|]. reflexivity.
  - apply Z.leb_gt in E. split; [discriminate|]. split.
    + intros _. rewrite lookup_insert_eq. simpl.
      rewrite List.filter_app. simpl.
      assert (Hn : (now - windowMs this <? now)%Z = true) by (apply Z.ltb_lt; lia).
      rewrite Hn.
      rewrite (filter_filter_window (windowMs this) now now) by lia.
      rewrite length_app. simpl. lia.
    + intros other t Hne. rewrite lookup_insert_ne by congruence. reflexivity.
Qed.

Lemma X3_isRateLimited_spends_one_witness :
  (0 < windowMs rateLimiter)%Z /\
  let after := snd (isRateLimited 1000 "ip1" rateLimiter) in
  (fst (isRateLimited 1000 "ip1" rateLimiter) = true -> after = rateLimiter) /\
  (fst (isRateLimited 1000 "ip1" rateLimiter) = false ->
   getRemainingRequests 1000 "ip1" after =
   (getRemainingRequests 1000 "ip1" rateLimiter - 1)%Z /\
   (0 < getRemainingRequests 1000 "ip1" rateLimiter)%Z) /\
  (forall other t, other <> "ip1" ->
     getRemainingRequests t other after = getRemainingRequests t other rateLimiter).
Proof.
  assert (H : (0 < windowMs rateLimiter)%Z) by reflexivity.
  split; [exact H|].
  exact (X3_isRateLimited_spends_one rateLimiter 1000 "ip1" H).
Defined.

End RateLimiting.

(* ===================================================================== *)
(** ** Keys and references of the stored rows *)
(* ===================================================================== *)

Section StoredRows.
Import JsDate Store Interleaving Integrity.

Lemma NoDup_map_snoc {A} (f : A -> string) (l : list A) (x : A) :
  NoDup (map f l) ->
  existsb (fun r => String.eqb (f r) (f x)) l = false ->
  NoDup (map f (l ++ [x])).
Proof.
  intros Hl Hx. rewrite map_app. simpl. apply NoDup_app. split; [exact Hl|].
  split; [|apply NoDup_singleton].
  intros y Hy Hy1. apply list_elem_of_singleton in Hy1. subst y.
  apply list_elem_of_In, existsb_eqb_In in Hy. congruence.
Qed.

Lemma map_map_if {A B} (f : A -> B) (c : A -> bool) (g : A -> A) (l : list A) :
  (forall r, f (g r) = f r) ->
  map f (map (fun r => if c r then g r else r) l) = map f l.
Proof.
  intros H. rewrite map_map. apply map_ext. intros r. destruct (c r); auto.
Qed.

Lemma In_map_snoc {A} (f : A -> string) (l : list A) (x : A) (k : string) :
  In k (map f l) -> In k (map f (l ++ [x])).
Proof. rewrite map_app, in_app_iff. auto. Qed.

Lemma keys_unique_apply (o : Op) (db : Db) : keys_unique db -> keys_unique (apply o db).
Proof.
  intros (Hu & Hue & Ha & Haa & He & Hd & Hs). destruct o; simpl.
  - destruct (_ && _); repeat split; assumption.
  - unfold createUser. destruct (existsb _ (users db)) eqn:E1; [repeat split; assumption|].
    destruct (existsb (fun r => String.eqb (u_email r) _) (users db)) eqn:E2;
      [repeat split; assumption|].
    unfold keys_unique. simpl. repeat split; try assumption.
    + apply (NoDup_map_snoc u_id); assumption.
    + apply (NoDup_map_snoc u_email); assumption.
  - unfold createAlias. destruct (existsb _ (email_aliases db)) eqn:E1;
      [repeat split; assumption|].
    destruct (existsb (fun r => String.eqb (a_alias r) _) (email_aliases db)) eqn:E2;
      [repeat split; assumption|].
    destruct (negb _); [repeat split; assumption|].
    unfold keys_unique. simpl. repeat split; try assumption.
    + apply (NoDup_map_snoc a_id); assumption.
    + apply (NoDup_map_snoc a_alias); assumption.
  - unfold keys_unique. simpl.
    rewrite (map_map_if a_id), (map_map_if a_alias) by reflexivity.
    repeat split; assumption.
  - unfold keys_unique. simpl. repeat split; try assumption.
    apply NoDup_map_filter, He.
  - unfold delete_alias_row. destruct (_ && _); [repeat split; assumption|].
    unfold keys_unique. simpl. repeat split; try assumption; apply NoDup_map_filter; assumption.
  - unfold createEmail. destruct (existsb _ (emails db)) eqn:E1; [repeat split; assumption|].
    destruct (negb _); [repeat split; assumption|].
    unfold keys_unique. simpl. repeat split; try assumption.
    apply (NoDup_map_snoc e_id); assumption.
  - unfold keys_unique. simpl. rewrite (map_map_if e_id) by reflexivity.
    repeat split; assumption.
  - unfold createDevice. destruct (existsb _ (devices db)) eqn:E1; [repeat split; assumption|].
    destruct (negb _); [repeat split; assumption|].
    unfold keys_unique. simpl. repeat split; try assumption.
    apply (NoDup_map_snoc d_id); assumption.
  - unfold keys_unique. simpl. rewrite (map_map_if d_id) by reflexivity.
    repeat split; assumption.
  - unfold createSyncData. destruct (existsb _ (sync_data db)) eqn:E1;
      [repeat split; assumption|].
    destruct (_ || _); [repeat split; assumption|].
    unfold keys_unique. simpl. repeat split; try assumption.
    apply (NoDup_map_snoc s_id); assumption.
Qed.

Lemma keys_unique_fresh (d : Date) : keys_unique (fresh d).
Proof. repeat split; constructor. Qed.

Lemma keys_unique_apply_all (l : list Op) (db : Db) :
  keys_unique db -> keys_unique (apply_all l db).
Proof.
  revert db. induction l as [|o l IH]; intros db H; simpl; [exact H|].
  apply IH, keys_unique_apply, H.
Qed.

Lemma negb_existsb_In {A} (f : A -> string) (x : string) (l : list A) :
  negb (existsb (fun r => String.eqb (f r) x) l) = false -> In x (map f l).
Proof. intros H. apply existsb_eqb_In. destruct (existsb _ l); [reflexivity|discriminate]. Qed.

Lemma references_hold_apply (o : Op) (db : Db) :
  references_hold db -> references_hold (apply o db).
Proof.
  intros (Ha & He & Hd & Hs). destruct o; simpl.
  - destruct (_ && _); repeat split; try assumption; apply Hs; assumption.
  - unfold createUser.
    destruct (existsb _ (users db));
      [repeat split; try assumption; apply Hs; assumption|].
    destruct (existsb _ (users db)); [repeat split; try assumption; apply Hs; assumption|].
    unfold references_hold. simpl. split; [|split; [|split]].
    + intros a H. apply In_map_snoc, Ha, H.
    + exact He.
    + intros d H. apply In_map_snoc, Hd, H.
    + intros s H. split; [apply In_map_snoc|]; apply Hs, H.
  - unfold createAlias.
    destruct (existsb _ (email_aliases db));
      [repeat split; try assumption; apply Hs; assumption|].
    destruct (existsb _ (email_aliases db)); [repeat split; try assumption; apply Hs; assumption|].
    destruct (negb _) eqn:Efk; [repeat split; try assumption; apply Hs; assumption|].
    unfold references_hold. simpl. split; [|split; [|split]].
    + intros r H. apply in_app_iff in H as [H|[<-|[]]]; [apply Ha, H|].
      simpl. apply negb_existsb_In, Efk.
    + intros e H. apply In_map_snoc, He, H.
    + exact Hd.
    + exact Hs.
  - unfold references_hold. simpl. split; [|split; [|split]].
    + intros r H. apply in_map_iff in H as (r0 & <- & H0).
      destruct (String.eqb (a_id r0) aid); simpl; apply Ha, H0.
    + intros e H. rewrite (map_map_if a_id) by reflexivity. apply He, H.
    + exact Hd.
    + exact Hs.
  - unfold references_hold. simpl. split; [|split; [|split]]; try assumption.
    intros e H. apply filter_In in H as [H _]. apply He, H.
  - unfold delete_alias_row.
    destruct (existsb (fun r => String.eqb (a_id r) aid) (email_aliases db)) eqn:E1;
    destruct (existsb (fun e => String.eqb (e_alias_id e) aid) (emails db)) eqn:E2; simpl;
      try (repeat split; try assumption; apply Hs; assumption).
    + unfold references_hold. simpl. split; [|split; [|split]]; try assumption.
      * intros r H. apply filter_In in H as [H _]. apply Ha, H.
      * intros e H. pose proof (He e H) as Hin.
        apply in_map_iff in Hin as (r & Hr & Hin). apply in_map_iff. exists r.
        split; [exact Hr|]. apply filter_In. split; [exact Hin|].
        apply negb_true_iff, String.eqb_neq. intros Heq.
        assert (Hex : existsb (fun e => String.eqb (e_alias_id e) aid) (emails db) = true).
        { apply existsb_exists. exists e. split; [exact H|]. apply String.eqb_eq. congruence. }
        congruence.
    + unfold references_hold. simpl. split; [|split; [|split]]; try assumption.
      * intros r H. apply filter_In in H as [H _]. apply Ha, H.
      * intros e H. pose proof (He e H) as Hin.
        apply in_map_iff in Hin as (r & Hr & Hin). apply in_map_iff. exists r.
        split; [exact Hr|]. apply filter_In. split; [exact Hin|].
        apply negb_true_iff, String.eqb_neq. intros Heq.
        assert (Hex : existsb (fun r => String.eqb (a_id r) aid) (email_aliases db) = true).
        { apply existsb_exists. exists r. split; [exact Hin|]. apply String.eqb_eq, Heq. }
        congruence.
    + unfold references_hold. simpl. split; [|split; [|split]]; try assumption.
      * intros r H. apply filter_In in H as [H _]. apply Ha, H.
      * intros e H. pose proof (He e H) as Hin.
        apply in_map_iff in Hin as (r & Hr & Hin). apply in_map_iff. exists r.
        split; [exact Hr|]. apply filter_In. split; [exact Hin|].
        apply negb_true_iff, String.eqb_neq. intros Heq.
        assert (Hex : existsb (fun r => String.eqb (a_id r) aid) (email_aliases db) = true).
        { apply existsb_exists. exists r. split; [exact Hin|]. apply String.eqb_eq, Heq. }
        congruence.
  - unfold createEmail.
    destruct (existsb _ (emails db));
      [repeat split; try assumption; apply Hs; assumption|].
    destruct (negb _) eqn:Efk; [repeat split; try assumption; apply Hs; assumption|].
    unfold references_hold. simpl. split; [|split; [|split]]; try assumption.
    intros r H. apply in_app_iff in H as [H|[<-|[]]]; [apply He, H|].
    simpl. apply negb_existsb_In, Efk.
  - unfold references_hold. simpl. split; [|split; [|split]]; try assumption.
    intros r H. apply in_map_iff in H as (r0 & <- & H0).
    destruct (String.eqb (e_id r0) eid); simpl; apply He, H0.
  - unfold createDevice.
    destruct (existsb _ (devices db));
      [repeat split; try assumption; apply Hs; assumption|].
    destruct (negb _) eqn:Efk; [repeat split; try assumption; apply Hs; assumption|].
    unfold references_hold. simpl. split; [|split; [|split]]; try assumption.
    + intros r H. apply in_app_iff in H as [H|[<-|[]]]; [apply Hd, H|].
      simpl. apply negb_existsb_In, Efk.
    + intros s H. split; [|apply In_map_snoc]; apply Hs, H.
  - unfold references_hold. simpl. split; [|split; [|split]]; try assumption.
    + intros r H. apply in_map_iff in H as (r0 & <- & H0).
      destruct (String.eqb (d_id r0) did); simpl; apply Hd, H0.
    + intros s H. rewrite (map_map_if d_id) by reflexivity. apply Hs, H.
  - unfold createSyncData.
    destruct (existsb _ (sync_data db));
      [repeat split; try assumption; apply Hs; assumption|].
    destruct (negb (existsb (fun r => String.eqb (u_id r) _) (users db))) eqn:E1; simpl;
      [repeat split; try assumption; apply Hs; assumption|].
    destruct (negb (existsb (fun r => String.eqb (d_id r) _) (devices db))) eqn:E2; simpl;
      [repeat split; try assumption; apply Hs; assumption|].
    unfold references_hold. simpl. split; [|split; [|split]]; try assumption.
    intros r H. apply in_app_iff in H as [H|[<-|[]]]; [apply Hs, H|].
    simpl. split; apply negb_existsb_In; assumption.
Qed.

Lemma references_hold_fresh (d : Date) : references_hold (fresh d).
Proof. repeat split; contradiction. Qed.

Lemma references_hold_apply_all (l : list Op) (db : Db) :
  references_hold db -> references_hold (apply_all l db).
Proof.
  revert db. induction l as [|o l IH]; intros db H; simpl; [exact H|].
  apply IH, references_hold_apply, H.
Qed.

Lemma stamps_wf_intro (db : Db) :
  wf (now db) ->
  List.Forall (fun r => wf (a_created_at r)) (email_aliases db) ->
  List.Forall (fun r => wf (e_received_at r)) (emails db) ->
  List.Forall (fun r => wf (d_created_at r)) (devices db) ->
  List.Forall (fun r => wf (s_timestamp r)) (sync_data db) ->
  stamps_wf db.
Proof. intros. split; [|split; [|split; [|split]]]; assumption. Qed.

Lemma Forall_snoc {A} (P : A -> Prop) (l : list A) (x : A) :
  List.Forall P l -> P x -> List.Forall P (l ++ [x]).
Proof.
  intros. apply List.Forall_app. split; [assumption|].
  constructor; [assumption|constructor].
Qed.

Lemma Forall_map_if {A} (P : A -> Prop) (p : A -> bool) (f : A -> A) (l : list A) :
  (forall x, P x -> P (f x)) -> List.Forall P l ->
  List.Forall P (map (fun x => if p x then f x else x) l).
Proof.
  intros Hf H. apply List.Forall_forall. intros y Hy.
  apply in_map_iff in Hy as (x & <- & Hx). rewrite List.Forall_forall in H.
  destruct (p x); [apply Hf|]; apply H, Hx.
Qed.

Lemma Forall_filter {A} (P : A -> Prop) (p : A -> bool) (l : list A) :
  List.Forall P l -> List.Forall P (List.filter p l).
Proof.
  rewrite !List.Forall_forall. intros H x Hx. apply filter_In in Hx as [Hx _]. auto.
Qed.

Lemma stamps_wf_apply (o : Op) (db : Db) : stamps_wf db -> stamps_wf (apply o db).
Proof.
  intros H. pose proof H as (Hn & Ha & He & Hd & Hs).
  assert (Hct : wf (CURRENT_TIMESTAMP db)) by (apply to_second_wf, Hn).
  destruct o; simpl.
  - destruct (wfb d && _) eqn:E; [|exact H].
    apply andb_true_iff in E as [E _]. apply stamps_wf_intro; try assumption.
    apply wfb_wf, E.
  - unfold createUser. case_ifs; exact H.
  - unfold createAlias. case_ifs; try exact H.
    apply stamps_wf_intro; try assumption. simpl. apply Forall_snoc; assumption.
  - apply stamps_wf_intro; try assumption. simpl.
    apply (Forall_map_if (fun r => wf (a_created_at r))); [auto|assumption].
  - apply stamps_wf_intro; try assumption. simpl. apply Forall_filter, He.
  - unfold delete_alias_row. destruct (_ && _); [exact H|].
    apply stamps_wf_intro; try assumption. simpl. apply Forall_filter, Ha.
  - unfold createEmail. case_ifs; try exact H.
    apply stamps_wf_intro; try assumption. simpl. apply Forall_snoc; assumption.
  - apply stamps_wf_intro; try assumption. simpl.
    apply (Forall_map_if (fun r => wf (e_received_at r))); [auto|assumption].
  - unfold createDevice. case_ifs; try exact H.
    apply stamps_wf_intro; try assumption. simpl. apply Forall_snoc; assumption.
  - apply stamps_wf_intro; try assumption. simpl.
    apply (Forall_map_if (fun r => wf (d_created_at r))); [auto|assumption].
  - unfold createSyncData. case_ifs; try exact H.
    apply stamps_wf_intro; try assumption. simpl. apply Forall_snoc; assumption.
Qed.

Lemma stamps_wf_fresh (d : Date) : wf d -> stamps_wf (fresh d).
Proof. intros H. apply stamps_wf_intro; [exact H|constructor..]. Qed.

Lemma stamps_wf_apply_all (l : list Op) (db : Db) :
  stamps_wf db -> stamps_wf (apply_all l db).
Proof.
  revert db. induction l as [|o l IH]; intros db H; simpl; [exact H|].
  apply IH, stamps_wf_apply, H.
Qed.

(** X4: in every state the engine reaches from an empty database,
    whatever statements of the adapter run and in whatever order, no
    primary key and no [UNIQUE] column holds a value twice. *)
Theorem X4_keys_stay_unique (ops : list Op) (d : Date) :
  keys_unique (apply_all ops (fresh d)).
Proof. apply keys_unique_apply_all, keys_unique_fresh. Qed.

(** X5: in every such state each alias names a stored user, each email a
    stored alias, each device a stored user and each entry of the sync
    log a stored user and a stored device; this holds between the two
    statements of [deleteAlias] as well. *)
Theorem X5_references_stay_valid (ops : list Op) (d : Date) :
  references_hold (apply_all ops (fresh d)).
Proof. apply references_hold_apply_all, references_hold_fresh. Qed.

End StoredRows.

(* ===================================================================== *)
(** ** The order of the rows a query returns *)
(* ===================================================================== *)

Section Sorting.
Import JsDate Store Integrity.

Lemma sql_text_compare (a b : Date) :
  wf a -> wf b ->
  String.compare (sql_text a) (sql_text b) =
  lex_compare (second_fields a) (second_fields b).
Proof.
  intros Ha Hb. unfold sql_text.
  rewrite string_compare_app by (rewrite !length_date_text; reflexivity).
  rewrite date_text_compare by assumption.
  unfold second_fields.
  change [year a; month a; day a; hour a; minute a; second a]
    with (ymd a ++ [hour a; minute a; second a]).
  change [year b; month b; day b; hour b; minute b; second b]
    with (ymd b ++ [hour b; minute b; second b]).
  rewrite lex_compare_app by reflexivity.
  destruct (lex_compare (ymd a) (ymd b)); try reflexivity.
  destruct Ha as (_ & _ & _ & Hha & Hma & Hsa & _).
  destruct Hb as (_ & _ & _ & Hhb & Hmb & Hsb & _).
  rewrite (string_compare_app " " " ") by reflexivity.
  change (String.compare " " " ") with Eq. cbv iota. unfold time_text.
  rewrite string_compare_app by (rewrite !length_digits; reflexivity).
  rewrite (digits_compare 2) by (simpl; lia).
  cbn [lex_compare]. destruct (N.compare (hour a) (hour b)); try reflexivity.
  rewrite (string_compare_app ":" ":") by reflexivity.
  change (String.compare ":" ":") with Eq. cbv iota.
  rewrite string_compare_app by (rewrite !length_digits; reflexivity).
  rewrite (digits_compare 2) by (simpl; lia).
  destruct (N.compare (minute a) (minute b)); try reflexivity.
  rewrite (string_compare_app ":" ":") by reflexivity.
  change (String.compare ":" ":") with Eq. cbv iota.
  rewrite (digits_compare 2) by (simpl; lia).
  destruct (N.compare (second a) (second b)); reflexivity.
Qed.

Lemma not_after_lex (a b : Date) :
  not_after a b <-> lex_compare (second_fields a) (second_fields b) <> Gt.
Proof.
  unfold not_after, le, JsDate.compare, fields, to_second, second_fields.
  cbn [year month day hour minute second millis].
  change [year a; month a; day a; hour a; minute a; second a; 0%N]
    with ([year a; month a; day a; hour a; minute a; second a] ++ [0%N]).
  change [year b; month b; day b; hour b; minute b; second b; 0%N]
    with ([year b; month b; day b; hour b; minute b; second b] ++ [0%N]).
  rewrite lex_compare_app by reflexivity.
  destruct (lex_compare _ _); simpl; split; congruence.
Qed.

Lemma text_desc_not_after (a b : Date) :
  wf a -> wf b -> (text_desc a b = true <-> not_after b a).
Proof.
  intros Ha Hb. unfold text_desc. rewrite sql_text_compare, not_after_lex by assumption.
  rewrite (lex_compare_antisym (second_fields b)).
  destruct (lex_compare (second_fields a) (second_fields b)); simpl; split; congruence.
Qed.


Lemma not_after_trans (a b c : Date) : not_after a b -> not_after b c -> not_after a c.
Proof. unfold not_after. apply le_trans. Qed.

Lemma not_after_total (a b : Date) : not_after a b \/ not_after b a.
Proof.
  rewrite !not_after_lex. rewrite (lex_compare_antisym (second_fields b)).
  destruct (lex_compare (second_fields a) (second_fields b)); simpl;
    [left|left|right]; congruence.
Qed.

(** Insertion sort puts a list in order, for a test that decides a
    total and transitive relation on the elements at hand. *)
Section InsertionSort.
Context {A : Type} (before : A -> A -> bool) (P : A -> Prop) (R : A -> A -> Prop).
Hypothesis before_R : forall x y, P x -> P y -> (before x y = true <-> R x y).
Hypothesis R_total : forall x y, P x -> P y -> R x y \/ R y x.
Hypothesis R_trans : forall x y z, R x y -> R y z -> R x z.

Lemma insert_by_sorted (x : A) (l : list A) :
  P x -> List.Forall P l -> sorted_by R l -> sorted_by R (insert_by before x l).
Proof.
  intros Hx. induction l as [|y l IH]; intros Hl Hs; simpl.
  - split; [constructor | exact I].
  - apply List.Forall_cons_iff in Hl as [Hy Hl]. destruct Hs as [Hyl Hs].
    destruct (before x y) eqn:E.
    + apply before_R in E; [|assumption..]. split; [|split; assumption].
      constructor; [exact E|].
      eapply List.Forall_impl; [|exact Hyl]. intros z Hz. eapply R_trans; eassumption.
    + assert (Hyx : R y x).
      { destruct (R_total x y Hx Hy) as [H|H]; [|exact H].
        apply before_R in H; [congruence|assumption..]. }
      split; [|apply IH; assumption].
      apply List.Forall_forall. intros z Hz.
      apply list_elem_of_In in Hz. rewrite insert_by_perm in Hz.
      apply list_elem_of_In in Hz as [<-|Hz]; [exact Hyx|].
      rewrite List.Forall_forall in Hyl. apply Hyl, Hz.
Qed.

Lemma order_by_sorted (l : list A) :
  List.Forall P l -> sorted_by R (order_by before l).
Proof.
  induction l as [|x l IH]; intros Hl; [exact I|].
  apply List.Forall_cons_iff in Hl as [Hx Hl].
  change (order_by before (x :: l)) with (insert_by before x (order_by before l)).
  apply insert_by_sorted; [exact Hx| |apply IH, Hl].
  apply List.Forall_forall. intros z Hz. apply In_order_by in Hz.
  rewrite List.Forall_forall in Hl. apply Hl, Hz.
Qed.
End InsertionSort.

Lemma sorted_by_map {A B} (f : A -> B) (R : B -> B -> Prop) (l : list A) :
  sorted_by (fun x y => R (f x) (f y)) l -> sorted_by R (map f l).
Proof.
  induction l as [|x l IH]; simpl; [auto|]. intros [H1 H2]. split; [|auto].
  apply List.Forall_forall. intros y Hy. apply in_map_iff in Hy as (z & <- & Hz).
  rewrite List.Forall_forall in H1. apply H1, Hz.
Qed.



End Sorting.

(* ===================================================================== *)
(** ** What the list queries return *)
(* ===================================================================== *)

Section Queries.
Import JsDate Store Interleaving Integrity Samples Cases.

Lemma wf_t0800 : wf t0800.
Proof. vm_compute. repeat split; congruence. Qed.

Lemma keys_unique_household : keys_unique household.
Proof. apply keys_unique_apply_all, keys_unique_fresh. Qed.

Lemma references_hold_household : references_hold household.
Proof. apply references_hold_apply_all, references_hold_fresh. Qed.

Lemma stamps_wf_household : stamps_wf household.
Proof. apply stamps_wf_apply_all, stamps_wf_fresh, wf_t0800. Qed.

Lemma order_by_desc_sorted {A} (stamp : A -> Date) (l : list A) :
  List.Forall (fun r => wf (stamp r)) l ->
  sorted_by (fun x y => not_after (stamp y) (stamp x))
            (order_by (fun x y => text_desc (stamp x) (stamp y)) l).
Proof.
  apply (order_by_sorted _ (fun r => wf (stamp r))).
  - intros x y Hx Hy. apply text_desc_not_after; assumption.
  - intros x y _ _. destruct (not_after_total (stamp x) (stamp y)); auto.
  - intros x y z H1 H2. eapply not_after_trans; eassumption.
Qed.


(** X6: [getAliasesByUserId] returns the aliases of the user it is asked
    for, each stored row of that user once and no other row, and returns
    them newest first: no alias in the list was created, to the second,
    after one that stands before it. *)
Theorem X6_getAliasesByUserId_newest_first (uid : string) (db : Db) :
  stamps_wf db ->
  getAliasesByUserId uid db ≡ₚ
    map alias_of_row
        (List.filter (fun r => String.eqb (a_user_id r) uid) (email_aliases db)) /\
  List.Forall (fun a => userId a = uid) (getAliasesByUserId uid db) /\
  sorted_by (fun x y => not_after (createdAt y) (createdAt x))
            (getAliasesByUserId uid db).
Proof.
  intros (_ & Ha & _). unfold getAliasesByUserId. split; [|split].
  - apply Permutation_map, order_by_perm.
  - apply List.Forall_forall. intros a Hin.
    apply in_map_iff in Hin as (r & <- & Hin). apply In_order_by in Hin.
    apply filter_In in Hin as [_ Hu]. apply String.eqb_eq in Hu. exact Hu.
  - apply sorted_by_map.
    apply (order_by_desc_sorted a_created_at), Forall_filter, Ha.
Qed.

Lemma X6_getAliasesByUserId_newest_first_witness :
  stamps_wf household /\
  map id (getAliasesByUserId "u1" household) = ["a2"; "a1"] /\
  sorted_by (fun x y => not_after (createdAt y) (createdAt x))
            (getAliasesByUserId "u1" household).
Proof.
  split; [exact stamps_wf_household|]. split; [reflexivity|].
  exact (proj2 (proj2 (X6_getAliasesByUserId_newest_first "u1" household
                         stamps_wf_household))).
Defined.



End Queries.

(* ===================================================================== *)
(** ** Whose rows a request can change *)
(* ===================================================================== *)

Section Ownership.
Import JsDate Store Interleaving Integrity AliasRoutes Samples Cases.

Lemma NoDup_map_In_eq {A B} (f : A -> B) (l : list A) (x y : A) :
  NoDup (map f l) -> In x l -> In y l -> f x = f y -> x = y.
Proof.
  induction l as [|z l IH]; simpl; [contradiction|].
  intros H Hx Hy E. apply NoDup_cons in H as [Hz Hl].
  rewrite list_elem_of_In, in_map_iff in Hz.
  destruct Hx as [<-|Hx], Hy as [<-|Hy]; auto.
  - exfalso. apply Hz. exists y. auto.
  - exfalso. apply Hz. exists x. auto.
Qed.


Lemma find_alias_none (uid pid : string) (db : Db) :
  List.find (fun a => String.eqb (id a) pid) (getAliasesByUserId uid db) = None ->
  forall r, In r (email_aliases db) -> a_id r = pid -> a_user_id r <> uid.
Proof.
  intros H r Hin Hid Hu.
  assert (Hf : String.eqb (id (alias_of_row r)) pid = false).
  { apply (find_none _ _ H (alias_of_row r)).
    unfold getAliasesByUserId. apply in_map. apply In_order_by.
    apply filter_In. split; [exact Hin|]. apply String.eqb_eq, Hu. }
  simpl in Hf. apply String.eqb_neq in Hf. contradiction.
Qed.

Lemma filter_map_if {A} (p q : A -> bool) (g : A -> A) (l : list A) :
  (forall r, In r l -> q r = true -> p r = false /\ p (g r) = false) ->
  List.filter p (map (fun r => if q r then g r else r) l) = List.filter p l.
Proof.
  induction l as [|x l IH]; intros H; simpl; [reflexivity|].
  rewrite IH by (intros r Hr; apply H; right; exact Hr).
  destruct (q x) eqn:E; [|reflexivity].
  destruct (H x (or_introl eq_refl) E) as [-> ->]. reflexivity.
Qed.


(** The aliases of [uid] as a request sees them do not depend on the
    rows of other users. *)
Lemma getAliasesByUserId_rows (uid : string) (db db' : Db) :
  List.filter (fun r => String.eqb (a_user_id r) uid) (email_aliases db') =
  List.filter (fun r => String.eqb (a_user_id r) uid) (email_aliases db) ->
  getAliasesByUserId uid db' = getAliasesByUserId uid db.
Proof. intros H. unfold getAliasesByUserId. rewrite H. reflexivity. Qed.







Lemma getAuthenticatedUser_users (authHeader : option string) (db db' : Db) :
  users db' = users db ->
  getAuthenticatedUser authHeader db' = getAuthenticatedUser authHeader db.
Proof.
  intros H. unfold getAuthenticatedUser, getUserById. rewrite H. reflexivity.
Qed.

Lemma getAuthenticatedUser_stored (authHeader : option string) (db : Db) (user : User) :
  getAuthenticatedUser authHeader db = Some user ->
  In (User_id user) (map u_id (users db)).
Proof.
  unfold getAuthenticatedUser, getUserById. destruct authHeader as [h|]; [|discriminate].
  destruct (String.eqb h ""); [discriminate|].
  destruct (List.find _ _) as [r|] eqn:E; [|discriminate].
  intros [= <-]. apply find_some in E as [Hin _]. simpl. apply in_map, Hin.
Qed.

End Ownership.

(* ===================================================================== *)
(** ** Allocation of an alias *)
(* ===================================================================== *)

Section Allocation.
Import JsDate Store Interleaving Integrity AliasRoutes AuthRoutes Samples Cases.

Lemma generate_unique_first_free (fuel attempts : nat) (gen : nat -> string)
    (uid : string) (db : Db) :
  0 < fuel -> 11 <= fuel + attempts ->
  let taken a := In a (map alias (getAliasesByUserId uid db)) in
  match generate_unique fuel attempts gen uid db with
  | Picked a =>
      exists k, attempts <= k < 10 /\ a = gen k /\ ~ taken a /\
                forall j, attempts <= j < k -> taken (gen j)
  | Exhausted => forall k, attempts <= k < 10 -> taken (gen k)
  | OutOfFuel => False
  end.
Proof.
  intros H0 H taken. revert attempts H0 H.
  induction fuel as [|fuel IH]; intros attempts H0 H; [lia|]. simpl.
  destruct (10 <? attempts + 1) eqn:E.
  { apply Nat.ltb_lt in E. intros k Hk. lia. }
  apply Nat.ltb_ge in E.
  destruct (existsb _ _) eqn:Ex.
  - assert (Ht : taken (gen attempts)).
    { apply existsb_exists in Ex as (a & Hin & Ha). apply String.eqb_eq in Ha.
      unfold taken. rewrite <- Ha. apply in_map, Hin. }
    specialize (IH (attempts + 1) ltac:(lia) ltac:(lia)).
    destruct (generate_unique fuel (attempts + 1) gen uid db) as [| |a].
    + exact IH.
    + intros k Hk. destruct (Nat.eq_dec k attempts) as [->|]; [exact Ht|]. apply IH. lia.
    + destruct IH as (k & Hk & -> & Hfree & Hbefore). exists k.
      split; [lia|]. split; [reflexivity|]. split; [exact Hfree|].
      intros j Hj. destruct (Nat.eq_dec j attempts) as [->|]; [exact Ht|].
      apply Hbefore. lia.
  - exists attempts. split; [lia|]. split; [reflexivity|]. split; [|intros; lia].
    intros Ht. apply not_true_iff_false in Ex. apply Ex.
    unfold taken in Ht. apply in_map_iff in Ht as (a & Ha & Hin).
    apply existsb_exists. exists a. split; [exact Hin|]. apply String.eqb_eq, Ha.
Qed.

(** X10: the loop of [POST /api/aliases] that looks for a free alias
    always ends, after at most eleven calls of the generator.  It picks
    the first of the first ten generated strings that is not among the
    user's aliases, and gives up exactly when all ten are among them. *)
Theorem X10_allocation_picks_first_free_candidate
    (gen : nat -> string) (uid : string) (db : Db) :
  let taken a := In a (map alias (getAliasesByUserId uid db)) in
  match generate_unique 11 0 gen uid db with
  | Picked a =>
      exists k, k < 10 /\ a = gen k /\ ~ taken a /\ forall j, j < k -> taken (gen j)
  | Exhausted => forall k, k < 10 -> taken (gen k)
  | OutOfFuel => False
  end.
Proof.
  intros taken.
  pose proof (generate_unique_first_free 11 0 gen uid db ltac:(lia) ltac:(lia)) as H.
  cbv zeta in H. fold taken in H.
  destruct (generate_unique 11 0 gen uid db) as [| |a].
  - exact H.
  - intros k Hk. apply H. lia.
  - destruct H as (k & Hk & -> & Hfree & Hbefore). exists k.
    split; [lia|]. split; [reflexivity|]. split; [exact Hfree|].
    intros j Hj. apply Hbefore. lia.
Qed.


(** X11: [POST /api/aliases] answers 200 only when it has stored the
    alias it reports: a following [GET /api/aliases] with the same
    header lists the user's earlier aliases and the new one, with the id
    and the alias string of the answer, the description and forwarding
    address of the request, active, and stamped with the second of its
    creation; neither its id nor its alias string was stored before, and
    no other user's list changes.  Whenever the answer is not 200,
    nothing is stored. *)
Theorem X11_POST_then_GET_lists_the_alias
    (authHeader : option string) (body : CreateAliasBody) (gen : nat -> string)
    (aliasId : string) (db : Db) :
  match POST authHeader body gen aliasId db with
  | Some (Json200 c, db') =>
      exists user,
        getAuthenticatedUser authHeader db = Some user /\
        c = mkCreatedAlias aliasId (created_alias c) (body_description body)
                           (body_forwardingEmail body) true /\
        ~ In aliasId (map a_id (email_aliases db)) /\
        ~ In (created_alias c) (map a_alias (email_aliases db)) /\
        GET_aliases authHeader db' = Json200 (getAliasesByUserId (User_id user) db') /\
        getAliasesByUserId (User_id user) db' ≡ₚ
          mkEmailAlias aliasId (User_id user) (created_alias c) (body_description body)
                       (body_forwardingEmail body) true
                       (CURRENT_TIMESTAMP db) (CURRENT_TIMESTAMP db)
          :: getAliasesByUserId (User_id user) db /\
        (forall other, other <> User_id user ->
           getAliasesByUserId other db' = getAliasesByUserId other db) /\
        users db' = users db /\ emails db' = emails db /\
        devices db' = devices db /\ sync_data db' = sync_data db
  | Some (_, db') => db' = db
  | None => False
  end.
Proof.
  unfold POST, POST_with_fuel.
  destruct (getAuthenticatedUser authHeader db) as [user|] eqn:Eu; [|reflexivity].
  pose proof (generate_unique_fuel 11 0 gen (User_id user) db ltac:(lia) ltac:(lia)) as Hf.
  destruct (generate_unique 11 0 gen (User_id user) db) as [| |a]; [congruence|reflexivity|].
  unfold createAlias. cbn [new_id new_alias new_userId new_description
                           new_forwardingEmail new_isActive].
  destruct (existsb _ (email_aliases db)) eqn:E1; [reflexivity|].
  destruct (existsb (fun r => String.eqb (a_alias r) a) (email_aliases db)) eqn:E2;
    [reflexivity|].
  destruct (negb _) eqn:E3; [reflexivity|].
  exists user. split; [reflexivity|]. split; [reflexivity|].
  split. { rewrite <- existsb_eqb_In, E1. discriminate. }
  split. { simpl. rewrite <- existsb_eqb_In, E2. discriminate. }
  split.
  { unfold GET_aliases. rewrite (getAuthenticatedUser_users authHeader db) by reflexivity.
    rewrite Eu. reflexivity. }
  split.
  { unfold getAliasesByUserId. cbn [email_aliases set_email_aliases].
    rewrite List.filter_app. cbn [List.filter a_user_id]. rewrite String.eqb_refl.
    etransitivity; [apply Permutation_map, order_by_perm|].
    rewrite map_app. simpl. etransitivity; [symmetry; apply Permutation_cons_append|].
    apply Permutation_cons; [reflexivity|].
    apply Permutation_map. symmetry. apply order_by_perm. }
  split.
  { intros other Hne. apply getAliasesByUserId_rows. simpl.
    rewrite List.filter_app. simpl.
    apply not_eq_sym, String.eqb_neq in Hne. rewrite Hne. apply app_nil_r. }
  repeat split; reflexivity.
Qed.

End Allocation.

(* ===================================================================== *)
(** ** Received mail *)
(* ===================================================================== *)

Section Mail.
Import JsDate Store Interleaving Integrity Samples Cases.

Lemma insert_by_map {A} (before : A -> A -> bool) (f : A -> A) (x : A) (l : list A) :
  (forall x y, before (f x) (f y) = before x y) ->
  insert_by before (f x) (map f l) = map f (insert_by before x l).
Proof.
  intros Hf. induction l as [|y l IH]; simpl; [reflexivity|].
  rewrite Hf. destruct (before x y); simpl; [reflexivity|]. rewrite IH. reflexivity.
Qed.

Lemma order_by_map {A} (before : A -> A -> bool) (f : A -> A) (l : list A) :
  (forall x y, before (f x) (f y) = before x y) ->
  order_by before (map f l) = map f (order_by before l).
Proof.
  intros Hf. induction l as [|x l IH]; [reflexivity|].
  change (order_by before (map f (x :: l)))
    with (insert_by before (f x) (order_by before (map f l))).
  rewrite IH, insert_by_map by exact Hf. reflexivity.
Qed.

Lemma filter_map_same {A} (p : A -> bool) (f : A -> A) (l : list A) :
  (forall x, p (f x) = p x) ->
  List.filter p (map f l) = map f (List.filter p l).
Proof.
  intros Hf. induction l as [|x l IH]; simpl; [reflexivity|].
  rewrite Hf, IH. destruct (p x); reflexivity.
Qed.

(** X12: [createEmail] stores the mail unread under its alias: when it
    returns, [getEmailsByAliasId] of that alias lists the mail with the
    fields given, the flag [isRead] false and the second of its arrival,
    beside the mails listed before, and the list of every other alias is
    unchanged.  It raises, and stores nothing, exactly when the id is
    taken or no stored alias has the given alias id. *)
Theorem X12_createEmail_stores_unread (e : NewEmail) (db : Db) :
  match createEmail e db with
  | (Ret _, db') =>
      ~ In (ne_id e) (map e_id (emails db)) /\
      In (ne_aliasId e) (map a_id (email_aliases db)) /\
      getEmailsByAliasId (ne_aliasId e) db' ≡ₚ
        mkEmail (ne_id e) (ne_aliasId e) (ne_from e) (ne_to e) (ne_subject e)
                (ne_content e) false (CURRENT_TIMESTAMP db)
        :: getEmailsByAliasId (ne_aliasId e) db /\
      forall other, other <> ne_aliasId e ->
        getEmailsByAliasId other db' = getEmailsByAliasId other db
  | (Throw _, db') =>
      db' = db /\
      (In (ne_id e) (map e_id (emails db)) \/
       ~ In (ne_aliasId e) (map a_id (email_aliases db)))
  end.
Proof.
  unfold createEmail.
  destruct (existsb _ (emails db)) eqn:E1.
  { split; [reflexivity|]. left. apply existsb_eqb_In, E1. }
  destruct (negb _) eqn:E2.
  { split; [reflexivity|]. right. rewrite <- existsb_eqb_In.
    apply negb_true_iff in E2. rewrite E2. discriminate. }
  split. { rewrite <- existsb_eqb_In, E1. discriminate. }
  split. { apply existsb_eqb_In. apply negb_false_iff, E2. }
  split.
  - unfold getEmailsByAliasId. cbn [emails set_emails].
    rewrite List.filter_app. cbn [List.filter e_alias_id]. rewrite String.eqb_refl.
    etransitivity; [apply Permutation_map, order_by_perm|].
    rewrite map_app. simpl. etransitivity; [symmetry; apply Permutation_cons_append|].
    apply Permutation_cons; [reflexivity|].
    apply Permutation_map. symmetry. apply order_by_perm.
  - intros other Hne. unfold getEmailsByAliasId. cbn [emails set_emails].
    rewrite List.filter_app. simpl.
    apply not_eq_sym, String.eqb_neq in Hne. rewrite Hne, app_nil_r. reflexivity.
Qed.

(** X13: [markEmailAsRead] never raises and changes one thing: in every
    list [getEmailsByAliasId] returns, the mail with the given id now
    has [isRead] true; every other mail, the order of the list and the
    other tables are as before.  No flag is ever cleared, and marking a
    second time changes nothing. *)
Theorem X13_markEmailAsRead_sets_one_flag (eid aid : string) (db : Db) :
  let db' := snd (markEmailAsRead eid db) in
  fst (markEmailAsRead eid db) = Ret tt /\
  getEmailsByAliasId aid db' =
    map (fun m => if String.eqb (Email_id m) eid then read m else m)
        (getEmailsByAliasId aid db) /\
  snd (markEmailAsRead eid db') = db' /\
  users db' = users db /\ email_aliases db' = email_aliases db /\
  devices db' = devices db /\ sync_data db' = sync_data db.
Proof.
  simpl. split; [reflexivity|]. split; [|split; [|repeat split; reflexivity]].
  - unfold getEmailsByAliasId. simpl.
    rewrite filter_map_same by (intros x; destruct (String.eqb (e_id x) eid); reflexivity).
    rewrite order_by_map
      by (intros x y; destruct (String.eqb (e_id x) eid), (String.eqb (e_id y) eid);
          reflexivity).
    rewrite !map_map. apply map_ext. intros r. simpl.
    destruct (String.eqb (e_id r) eid); reflexivity.
  - unfold set_emails. simpl. f_equal. rewrite map_map. apply map_ext. intros r.
    destruct (String.eqb (e_id r) eid) eqn:E; simpl; rewrite E; [reflexivity|].
    reflexivity.
Qed.

End Mail.

(* ===================================================================== *)
(** ** Devices and the sync route *)
(* ===================================================================== *)

Section Devices.
Import JsDate Store Interleaving Integrity AliasRoutes Sync SyncRoutes Samples Cases.

Lemma find_the_one {A} (p : A -> bool) (l : list A) (x : A) :
  In x l -> p x = true -> (forall y, In y l -> p y = true -> y = x) ->
  List.find p l = Some x.
Proof.
  induction l as [|z l IH]; simpl; [contradiction|]. intros Hin Hp Hu.
  destruct (p z) eqn:E; [f_equal; apply Hu; auto|].
  destruct Hin as [->|Hin]; [congruence|]. apply IH; auto.
Qed.

Lemma find_absent {A} (p : A -> bool) (l : list A) :
  (forall y, In y l -> p y = false) -> List.find p l = None.
Proof.
  induction l as [|z l IH]; simpl; [reflexivity|]. intros H.
  rewrite (H z) by auto. apply IH. auto.
Qed.

Lemma In_getDevicesByUserId (uid : string) (db : Db) (d : Device) :
  In d (getDevicesByUserId uid db) <->
  exists r, In r (devices db) /\ d_user_id r = uid /\ d = device_of_row r.
Proof.
  unfold getDevicesByUserId. rewrite in_map_iff. split.
  - intros (r & <- & Hin). apply In_order_by in Hin. apply filter_In in Hin as [Hin Hu].
    apply String.eqb_eq in Hu. eauto.
  - intros (r & Hin & Hu & ->). exists r. split; [reflexivity|].
    apply In_order_by. apply filter_In. split; [exact Hin|]. apply String.eqb_eq, Hu.
Qed.

(** X14: when [registerDevice] returns, it returns the id it stored the
    device under, and [getDeviceInfo] of the owner and that id gives the
    device with the name and the exported key given, created and last
    synced at the second of registration; under any other user the id
    gives nothing, and the device lists of other users are unchanged.
    It raises, and stores nothing, exactly when the id is taken or the
    user is not stored. *)
Theorem X14_registerDevice_then_getDeviceInfo
    (deviceId exportedDeviceKey userId deviceName : string) (db : Db) :
  match registerDevice deviceId exportedDeviceKey userId deviceName db with
  | (Ret returned, db') =>
      returned = deviceId /\
      In userId (map u_id (users db)) /\
      getDeviceInfo userId deviceId db' =
        Some (mkDevice deviceId userId deviceName exportedDeviceKey
                       (CURRENT_TIMESTAMP db) (CURRENT_TIMESTAMP db)) /\
      getDevicesByUserId userId db' ≡ₚ
        mkDevice deviceId userId deviceName exportedDeviceKey
                 (CURRENT_TIMESTAMP db) (CURRENT_TIMESTAMP db)
        :: getDevicesByUserId userId db /\
      forall other, other <> userId ->
        getDeviceInfo other deviceId db' = None /\
        getDevicesByUserId other db' = getDevicesByUserId other db
  | (Throw _, db') =>
      db' = db /\
      (In deviceId (map d_id (devices db)) \/ ~ In userId (map u_id (users db)))
  end.
Proof.
  unfold registerDevice, and_then, createDevice.
  cbn [nd_id nd_userId nd_deviceName nd_deviceKey].
  destruct (existsb _ (devices db)) eqn:E1.
  { split; [reflexivity|]. left. apply existsb_eqb_In, E1. }
  destruct (negb _) eqn:E2.
  { split; [reflexivity|]. right. rewrite <- existsb_eqb_In.
    apply negb_true_iff in E2. rewrite E2. discriminate. }
  assert (Hfresh : forall r, In r (devices db) -> d_id r <> deviceId).
  { intros r Hin Hid. apply not_true_iff_false in E1. apply E1.
    apply existsb_exists. exists r. split; [exact Hin|]. apply String.eqb_eq, Hid. }
  set (row := mkDeviceRow deviceId userId deviceName exportedDeviceKey
                          (CURRENT_TIMESTAMP db) (CURRENT_TIMESTAMP db)).
  set (db' := set_devices (devices db ++ [row]) db).
  split; [reflexivity|].
  split. { apply existsb_eqb_In. apply negb_false_iff, E2. }
  split; [|split].
  - unfold getDeviceInfo. apply find_the_one.
    + apply In_getDevicesByUserId. exists row. split; [|split; reflexivity].
      simpl. apply in_or_app. right. left. reflexivity.
    + simpl. apply String.eqb_refl.
    + intros d Hin Hid. apply In_getDevicesByUserId in Hin as (r & Hin & Hu & ->).
      simpl in Hid. apply String.eqb_eq in Hid. simpl in Hin.
      apply in_app_or in Hin as [Hin|[<-|[]]]; [|reflexivity].
      exfalso. exact (Hfresh r Hin Hid).
  - unfold getDevicesByUserId. cbn [devices set_devices db'].
    rewrite List.filter_app. cbn [List.filter d_user_id row]. rewrite String.eqb_refl.
    etransitivity; [apply Permutation_map, order_by_perm|].
    rewrite map_app. simpl. etransitivity; [symmetry; apply Permutation_cons_append|].
    apply Permutation_cons; [reflexivity|].
    apply Permutation_map. symmetry. apply order_by_perm.
  - intros other Hne.
    assert (Hsame : getDevicesByUserId other db' = getDevicesByUserId other db).
    { unfold getDevicesByUserId. cbn [devices set_devices db'].
      rewrite List.filter_app. simpl.
      apply not_eq_sym, String.eqb_neq in Hne. rewrite Hne, app_nil_r. reflexivity. }
    split; [|exact Hsame]. unfold getDeviceInfo. rewrite Hsame.
    apply find_absent. intros d Hin.
    apply In_getDevicesByUserId in Hin as (r & Hin & _ & ->). simpl.
    apply String.eqb_neq. apply Hfresh, Hin.
Qed.


Lemma updateDeviceLastSync_devices (uid did : string) (db : Db) :
  getDevicesByUserId uid (snd (updateDeviceLastSync did db)) =
  map (fun d => if String.eqb (Device_id d) did
                then synced (CURRENT_TIMESTAMP db) d else d)
      (getDevicesByUserId uid db).
Proof.
  unfold getDevicesByUserId. simpl.
  rewrite filter_map_same by (intros x; destruct (String.eqb (d_id x) did); reflexivity).
  rewrite order_by_map
    by (intros x y; destruct (String.eqb (d_id x) did), (String.eqb (d_id y) did);
        reflexivity).
  rewrite !map_map. apply map_ext. intros r. simpl.
  destruct (String.eqb (d_id r) did); reflexivity.
Qed.

Section SyncRequest.
Variable CryptoKey : Type.
Variable decryptMasterKey : string -> string -> Res CryptoKey.
Variable Date_parse : string -> option Date.

Lemma round_of_POST_sync (user : User) (did : string) (key : CryptoKey)
    (lastSync : option Date) (db : Db) :
  syncDevice CryptoKey (User_id user) did key lastSync db =
  (mkRound (getSyncDataAfterTimestamp (User_id user) (default epoch lastSync) db)
           (mkSyncResult (getAliasesByUserId (User_id user) db) (now db)),
   snd (updateDeviceLastSync did db)).
Proof. reflexivity. Qed.

(** X15: [POST /api/sync] answers 200 only to a stored user naming a
    device of their own.  The answer then carries that user's aliases as
    stored and the reading of the clock at the start of the round, and
    the one thing written is [last_sync] of the named device, set to the
    current second: the clock, the other tables, the user's other
    devices and the devices of all other users are as before.  With any
    other answer nothing is written. *)
Theorem X15_POST_sync_writes_only_last_sync
    (authHeader : option string) (body : SyncBody) (db : Db) :
  keys_unique db ->
  let (resp, db') := POST_sync CryptoKey decryptMasterKey Date_parse authHeader body db in
  match resp with
  | Json200 answer =>
      exists user, getAuthenticatedUser authHeader db = Some user /\
        (exists d, In d (getDevicesByUserId (User_id user) db) /\
                   Device_id d = body_deviceId body) /\
        answer_aliases answer = getAliasesByUserId (User_id user) db /\
        answer_syncTimestamp answer = toISOString (now db) /\
        now db' = now db /\ users db' = users db /\
        email_aliases db' = email_aliases db /\ emails db' = emails db /\
        sync_data db' = sync_data db /\
        getDevicesByUserId (User_id user) db' =
          map (fun d => if String.eqb (Device_id d) (body_deviceId body)
                        then synced (CURRENT_TIMESTAMP db) d else d)
              (getDevicesByUserId (User_id user) db) /\
        forall other, other <> User_id user ->
          getDevicesByUserId other db' = getDevicesByUserId other db
  | _ => db' = db
  end.
Proof.
  intros Hk. unfold POST_sync.
  destruct (getAuthenticatedUser authHeader db) as [user|] eqn:Eu; [|reflexivity].
  destruct (List.find _ _) as [d0|] eqn:Ef; [|reflexivity].
  destruct (decryptMasterKey _ _) as [key|m]; [|reflexivity].
  assert (Hround : forall lastSync,
    let (resp, db') :=
      let (r, db') := syncDevice CryptoKey (User_id user) (body_deviceId body)
                                 key lastSync db in
      (Json200 (mkSyncAnswer (aliases (result r))
                  (toISOString (syncTimestamp (result r)))), db') in
    match resp with
    | Json200 answer =>
        exists user0, Some user = Some user0 /\
          (exists d, In d (getDevicesByUserId (User_id user0) db) /\
                     Device_id d = body_deviceId body) /\
          answer_aliases answer = getAliasesByUserId (User_id user0) db /\
          answer_syncTimestamp answer = toISOString (now db) /\
          now db' = now db /\ users db' = users db /\
          email_aliases db' = email_aliases db /\ emails db' = emails db /\
          sync_data db' = sync_data db /\
          getDevicesByUserId (User_id user0) db' =
            map (fun d => if String.eqb (Device_id d) (body_deviceId body)
                          then synced (CURRENT_TIMESTAMP db) d else d)
                (getDevicesByUserId (User_id user0) db) /\
          forall other, other <> User_id user0 ->
            getDevicesByUserId other db' = getDevicesByUserId other db
    | _ => db' = db
    end).
  { intros lastSync. rewrite round_of_POST_sync.
    exists user. split; [reflexivity|].
    apply find_some in Ef as [Hin E]. apply String.eqb_eq in E.
    split; [eauto|]. do 7 (split; [reflexivity|]).
    split; [apply updateDeviceLastSync_devices|].
    intros other Hne. unfold getDevicesByUserId. simpl. f_equal. f_equal.
    apply In_getDevicesByUserId in Hin as (r0 & Hin0 & Hu0 & ->). simpl in E.
    apply filter_map_if. intros r Hin Hid. apply String.eqb_eq in Hid. simpl.
    destruct Hk as (_ & _ & _ & _ & _ & Hd & _).
    assert (r = r0) as -> by (apply (NoDup_map_In_eq d_id (devices db)); congruence).
    assert (String.eqb (d_user_id r0) other = false) as ->; [|auto].
    apply String.eqb_neq. congruence. }
  destruct (lastSync_of body) as [text|]; [|exact (Hround None)].
  destruct (Date_parse text) as [lastSync|]; [exact (Hround (Some lastSync))|reflexivity].
Qed.

End SyncRequest.

Lemma X15_POST_sync_writes_only_last_sync_witness :
  keys_unique household /\
  fst (POST_sync unit (fun _ _ => Ret tt) (fun _ => None) (Some "Bearer u1")
                 (mkSyncBody "d1" None) household)
    = Json200 (mkSyncAnswer (getAliasesByUserId "u1" household)
                            "2024-01-16T09:00:00.000Z") /\
  map lastSync
      (getDevicesByUserId "u1"
         (snd (POST_sync unit (fun _ _ => Ret tt) (fun _ => None) (Some "Bearer u1")
                         (mkSyncBody "d1" None) household)))
    = [mkDate 2024 1 16 9 0 0 0] /\
  let (resp, db') := POST_sync unit (fun _ _ => Ret tt) (fun _ => None)
                               (Some "Bearer u1") (mkSyncBody "d1" None) household in
  match resp with
  | Json200 answer =>
      exists user, getAuthenticatedUser (Some "Bearer u1") household = Some user /\
        (exists d, In d (getDevicesByUserId (User_id user) household) /\
                   Device_id d = "d1") /\
        answer_aliases answer = getAliasesByUserId (User_id user) household /\
        answer_syncTimestamp answer = toISOString (now household) /\
        now db' = now household /\ users db' = users household /\
        email_aliases db' = email_aliases household /\ emails db' = emails household /\
        sync_data db' = sync_data household /\
        getDevicesByUserId (User_id user) db' =
          map (fun d => if String.eqb (Device_id d) "d1"
                        then synced (CURRENT_TIMESTAMP household) d else d)
              (getDevicesByUserId (User_id user) household) /\
        forall other, other <> User_id user ->
          getDevicesByUserId other db' = getDevicesByUserId other household
  | _ => db' = household
  end.
Proof.
  split; [exact keys_unique_household|]. split; [reflexivity|]. split; [reflexivity|].
  exact (X15_POST_sync_writes_only_last_sync unit (fun _ _ => Ret tt) (fun _ => None)
           (Some "Bearer u1") (mkSyncBody "d1" None) household keys_unique_household).
Defined.

End Devices.

(* ===================================================================== *)
(** ** Recording a change and reading it back *)
(* ===================================================================== *)

Section Changes.
Import JsDate Store Interleaving Integrity Sync SyncRoutes Samples Cases.

Section RecordedChange.
Variable CryptoKey : Type.
Variable Json : Type.
Variable truthy : Json -> bool.
Variable JSON_stringify : Json -> string.
Variable JSON_parse : string -> Res Json.
Variable encrypt : string -> CryptoKey -> Res string.
Variable decrypt : string -> CryptoKey -> Res string.




End RecordedChange.


End Changes.

(* ===================================================================== *)
(** ** What schema initialisation keeps and adds *)
(* ===================================================================== *)

Section Migrations.
Import Schema Migration.

Lemma keeps_refl (c : Catalog) : keeps c c.
Proof.
  split; [|reflexivity]. intros t cols H. exists []. rewrite app_nil_r. exact H.
Qed.

Lemma keeps_trans (a b c : Catalog) : keeps a b -> keeps b c -> keeps a c.
Proof.
  intros [Ht1 Hi1] [Ht2 Hi2]. split; [|etransitivity; eassumption].
  intros t cols H. destruct (Ht1 t cols H) as (x & Hx).
  destruct (Ht2 t _ Hx) as (y & Hy). exists (x ++ y). rewrite app_assoc. exact Hy.
Qed.

Lemma step_indexes_grow (st : Stmt) (c : Catalog) : indexes c ⊆ indexes (step st c).
Proof.
  rewrite step_unfold. destruct st as [t cols|t col|i t col|sql]; simpl; [| | |reflexivity].
  - destruct (tables c !! t); [reflexivity|]. destruct (indexes c !! t); reflexivity.
  - destruct (tables c !! t); [|reflexivity]. case_bool_decide; reflexivity.
  - destruct (tables c !! t); [|reflexivity]. destruct (tables c !! i); [reflexivity|].
    destruct (indexes c !! i) eqn:Ei; [reflexivity|]. case_bool_decide; [|reflexivity].
    simpl. apply insert_subseteq, Ei.
Qed.

Lemma keeps_step (st : Stmt) (c : Catalog) : keeps c (step st c).
Proof.
  split; [|apply step_indexes_grow]. intros t cols H.
  destruct (step_tables st c t) as [E|[(cols' & _ & Hnone & _)|(col & cols' & _ & Hc & E)]].
  - exists []. rewrite app_nil_r, E. exact H.
  - congruence.
  - exists [col]. rewrite E. congruence.
Qed.

Lemma keeps_after (sql : list Stmt) (c : Catalog) : keeps c (after sql c).
Proof.
  revert c. induction sql as [|st rest IH]; intros c; [apply keeps_refl|].
  rewrite after_cons. pose proof (keeps_step st c) as Hs. rewrite step_unfold in Hs.
  destruct (exec_stmt st c) as [c1|m]; [|apply keeps_refl].
  eapply keeps_trans; [exact Hs|apply IH].
Qed.

Lemma keeps_run (l : list (list Stmt)) (c : Catalog) : keeps c (run l c).
Proof.
  revert c. induction l as [|sql l IH]; intros c; [apply keeps_refl|].
  simpl. eapply keeps_trans; [apply keeps_after|apply IH].
Qed.

Lemma init_one_console (sql : list Stmt) (e : Env) :
  exists lines, console (snd (init_one sql e)) = console e ++ lines.
Proof.
  unfold init_one, try_eff, exec_on.
  destruct (exec sql (cat e)) as [[[]|m] c']; simpl.
  - exists []. rewrite app_nil_r. reflexivity.
  - destruct (_ || _); simpl; [eauto|]. exists []. rewrite app_nil_r. reflexivity.
Qed.

Lemma for_each_console (l : list (list Stmt)) (e : Env) :
  exists lines, console (snd (for_each l e)) = console e ++ lines.
Proof.
  revert e. induction l as [|sql l IH]; intros e; simpl.
  - exists []. rewrite app_nil_r. reflexivity.
  - destruct (init_one_returns sql e) as [Hr _].
    destruct (init_one_console sql e) as (x & Hx). unfold and_then.
    destruct (init_one sql e) as [[[]|m] e']; simpl in *; [|discriminate].
    destruct (IH e') as (y & Hy). exists (x ++ y). rewrite Hy, Hx, app_assoc. reflexivity.
Qed.

(** X19: schema initialisation only ever adds.  From any catalog, with
    either engine, [initializeTables] and [initializeTablesAsync] return
    without raising; every table that existed still exists with its
    columns in their places, new columns coming after them; every index
    that existed still exists unchanged; and the lines already on the
    console stay, new ones coming after them. *)
Theorem X19_initialisation_only_adds (this : DatabaseManager) (e : Env) :
  let e1 := snd (initializeTables this e) in
  let e2 := snd (initializeTablesAsync this e) in
  fst (initializeTables this e) = Ret tt /\
  fst (initializeTablesAsync this e) = Ret tt /\
  keeps (cat e) (cat e1) /\ keeps (cat e) (cat e2) /\
  (exists lines, console e1 = console e ++ lines) /\
  (exists lines, console e2 = console e ++ lines).
Proof.
  assert (Hsame : exists lines, console e = console e ++ lines)
    by (exists []; rewrite app_nil_r; reflexivity).
  intros e1 e2.
  assert (H1 : fst (initializeTables this e) = Ret tt /\ keeps (cat e) (cat e1) /\
               exists lines, console e1 = console e ++ lines).
  { unfold e1, initializeTables. destruct (isCloudflare this).
    - split; [reflexivity|]. split; [apply keeps_refl|exact Hsame].
    - destruct (for_each_returns schemas e) as [Hr Hc].
      split; [exact Hr|]. split; [rewrite Hc; apply keeps_run|apply for_each_console]. }
  assert (H2 : fst (initializeTablesAsync this e) = Ret tt /\ keeps (cat e) (cat e2) /\
               exists lines, console e2 = console e ++ lines).
  { unfold e2, initializeTablesAsync. destruct (_ || _).
    - split; [reflexivity|]. split; [apply keeps_refl|exact Hsame].
    - destruct (for_each_returns schemas e) as [Hr Hc].
      split; [exact Hr|]. split; [rewrite Hc; apply keeps_run|apply for_each_console]. }
  tauto.
Qed.

Lemma untouched_step (t : string) (st : Stmt) (c : Catalog) :
  touches t st = false -> tables (step st c) !! t = tables c !! t.
Proof.
  intros H.
  destruct (step_tables st c t) as [E|[(cols & -> & _)|(col & cols & -> & _)]];
    [exact E| |]; simpl in H; rewrite String.eqb_refl in H; discriminate.
Qed.

Lemma untouched_after (t : string) (sql : list Stmt) (c : Catalog) :
  forallb (fun st => negb (touches t st)) sql = true ->
  tables (after sql c) !! t = tables c !! t.
Proof.
  revert c. induction sql as [|st rest IH]; intros c H; [reflexivity|].
  simpl in H. apply andb_true_iff in H as [H1 H2]. apply negb_true_iff in H1.
  rewrite after_cons. pose proof (untouched_step t st c H1) as Hs.
  rewrite step_unfold in Hs.
  destruct (exec_stmt st c) as [c1|m]; [|reflexivity].
  rewrite IH by exact H2. exact Hs.
Qed.

Lemma untouched_run (t : string) (l : list (list Stmt)) (c : Catalog) :
  forallb (forallb (fun st => negb (touches t st))) l = true ->
  tables (run l c) !! t = tables c !! t.
Proof.
  revert c. induction l as [|sql l IH]; intros c H; [reflexivity|].
  simpl in H. apply andb_true_iff in H as [H1 H2].
  simpl. rewrite IH by exact H2. apply untouched_after, H1.
Qed.

Lemma add_column (t col : string) (cols : list string) (c : Catalog) :
  tables c !! t = Some cols ->
  tables (after [AlterTableAddColumn t col] c) !! t = Some (with_columns [col] cols).
Proof.
  intros H. unfold after, with_columns. simpl. rewrite H.
  case_bool_decide as Hin; simpl.
  - rewrite app_nil_r. exact H.
  - rewrite lookup_insert_eq. reflexivity.
Qed.

Lemma with_columns_twice (a b : string) (cols : list string) :
  a <> b ->
  with_columns [b] (with_columns [a] cols) = with_columns [a; b] cols.
Proof.
  intros Hne. unfold with_columns. simpl.
  case_bool_decide as Ha; simpl.
  - rewrite app_nil_r. reflexivity.
  - rewrite <- app_assoc. f_equal.
    assert (bool_decide (b ∈ cols ++ [a]) = bool_decide (b ∈ cols)) as ->.
    { apply bool_decide_ext. rewrite elem_of_app, list_elem_of_singleton.
      split; [intros [H|H]; [exact H|congruence]|auto]. }
    destruct (bool_decide (b ∈ cols)); reflexivity.
Qed.

Lemma run_cons (sql : list Stmt) (l : list (list Stmt)) (c : Catalog) :
  run (sql :: l) c = run l (after sql c).
Proof. reflexivity. Qed.

Lemma schemas_head :
  schemas =
  [CreateTableIfNotExists "users" users_columns]
    :: [AlterTableAddColumn "users" "master_key_salt"]
    :: [AlterTableAddColumn "users" "is_admin"]
    :: drop 3 schemas.
Proof. reflexivity. Qed.

Lemma run_schemas_split (c : Catalog) :
  run schemas c =
  run (drop 3 schemas)
      (after [AlterTableAddColumn "users" "is_admin"]
         (after [AlterTableAddColumn "users" "master_key_salt"]
            (after [CreateTableIfNotExists "users" users_columns] c))).
Proof. rewrite <- !run_cons, <- schemas_head. reflexivity. Qed.

Lemma schemas_tail_leaves_users :
  forallb (forallb (fun st => negb (touches "users" st))) (drop 3 schemas) = true.
Proof. vm_compute. reflexivity. Qed.

Lemma run_schemas_users (c : Catalog) :
  match tables c !! "users" with
  | Some cols =>
      tables (run schemas c) !! "users" =
      Some (with_columns ["master_key_salt"; "is_admin"] cols)
  | None =>
      indexes c !! "users" = None ->
      tables (run schemas c) !! "users" = Some users_columns
  end.
Proof.
  assert (Hlegacy : forall c0 cols, tables c0 !! "users" = Some cols ->
            tables (run (drop 3 schemas)
                      (after [AlterTableAddColumn "users" "is_admin"]
                         (after [AlterTableAddColumn "users" "master_key_salt"] c0)))
              !! "users" =
            Some (with_columns ["master_key_salt"; "is_admin"] cols)).
  { intros c0 cols H.
    rewrite (untouched_run "users" (drop 3 schemas) _ schemas_tail_leaves_users).
    rewrite (add_column _ _ _ _ (add_column _ _ _ _ H)).
    rewrite with_columns_twice by discriminate. reflexivity. }
  rewrite run_schemas_split.
  destruct (tables c !! "users") as [cols|] eqn:E.
  - assert (after [CreateTableIfNotExists "users" users_columns] c = c) as ->
      by (unfold after; simpl; rewrite E; reflexivity).
    apply Hlegacy, E.
  - intros Hi.
    rewrite (Hlegacy _ users_columns); [reflexivity|].
    unfold after. simpl. rewrite E, Hi. simpl. apply lookup_insert_eq.
Qed.


(** A database file from before the migrations gains the two columns. *)
Example legacy_database_is_migrated :
  tables (cat (snd (initializeTables (mkManager false false) (mkEnv legacy_catalog []))))
    !! "users"
  = Some ["id"; "email"; "encryption_key"; "created_at"; "updated_at";
          "master_key_salt"; "is_admin"].
Proof.
  rewrite (proj2 (initializeTables_cat _ _)). cbn [isCloudflare cat].
  pose proof (run_schemas_users legacy_catalog) as H.
  change (tables legacy_catalog !! "users")
    with (Some ["id"; "email"; "encryption_key"; "created_at"; "updated_at"]) in H.
  exact H.
Qed.

End Migrations.

(* ===================================================================== *)
(** ** Users, the authorization header and the verification route *)
(* ===================================================================== *)

Section Accounts.
Import JsDate Store Interleaving Integrity AliasRoutes AuthRoutes Samples Cases.

Lemma find_snoc {A} (p : A -> bool) (l : list A) (x : A) :
  List.find p (l ++ [x]) =
  match List.find p l with
  | Some y => Some y
  | None => if p x then Some x else None
  end.
Proof.
  induction l as [|y l IH]; simpl; [reflexivity|]. destruct (p y); [reflexivity|exact IH].
Qed.

Lemma find_eqb_none {A} (f : A -> string) (x : string) (l : list A) :
  existsb (fun r => String.eqb (f r) x) l = false ->
  List.find (fun r => String.eqb (f r) x) l = None.
Proof.
  intros H. apply find_absent. intros y Hin.
  apply not_true_iff_false. intros E. apply not_true_iff_false in H. apply H.
  apply existsb_exists. eauto.
Qed.

Lemma find_eqb_some {A} (f : A -> string) (x : string) (l : list A) :
  existsb (fun r => String.eqb (f r) x) l = true ->
  List.find (fun r => String.eqb (f r) x) l <> None.
Proof.
  intros H E. apply existsb_exists in H as (r & Hin & Hr).
  rewrite (find_none _ _ E r Hin) in Hr. discriminate.
Qed.

(** X22: [createUser] followed by a lookup gives the user back.  When it
    returns, [getUserById] of the new id and [getUserByEmail] of the new
    email both give the id, email, key blob, salt and admin flag that
    were passed, and the lookups of every other id and email answer as
    before.  It raises, and stores nothing, exactly when the id or the
    email is already in use. *)
Theorem X22_createUser_then_lookup (u : User) (db : Db) :
  match createUser u db with
  | (Ret _, db') =>
      getUserById (User_id u) db' = Some u /\
      getUserByEmail (User_email u) db' = Some u /\
      (forall uid, uid <> User_id u -> getUserById uid db' = getUserById uid db) /\
      (forall email, email <> User_email u ->
         getUserByEmail email db' = getUserByEmail email db)
  | (Throw _, db') =>
      db' = db /\
      (getUserById (User_id u) db <> None \/ getUserByEmail (User_email u) db <> None)
  end.
Proof.
  unfold createUser, getUserById, getUserByEmail.
  destruct (existsb _ (users db)) eqn:E1.
  { split; [reflexivity|]. left. apply find_eqb_some in E1.
    destruct (List.find _ _); [discriminate|contradiction]. }
  destruct (existsb (fun r => String.eqb (u_email r) (User_email u)) (users db)) eqn:E2.
  { split; [reflexivity|]. right. apply find_eqb_some in E2.
    destruct (List.find _ _); [discriminate|contradiction]. }
  cbn [users set_users]. rewrite !find_snoc.
  rewrite (find_eqb_none u_id _ _ E1), (find_eqb_none u_email _ _ E2).
  cbn [u_id u_email]. rewrite !String.eqb_refl.
  assert (Hu : user_of_row
                 (mkUserRow (User_id u) (User_email u) (encryptionKey u) (masterKeySalt u)
                            (bit (isAdmin u)) (CURRENT_TIMESTAMP db) (CURRENT_TIMESTAMP db))
               = u) by (destruct u as [? ? ? ? []]; reflexivity).
  split; [simpl; f_equal; exact Hu|]. split; [simpl; f_equal; exact Hu|].
  split.
  - intros uid Hne. rewrite find_snoc. cbn [u_id].
    apply not_eq_sym, String.eqb_neq in Hne. rewrite Hne.
    destruct (List.find _ _); reflexivity.
  - intros email Hne. rewrite find_snoc. cbn [u_email].
    apply not_eq_sym, String.eqb_neq in Hne. rewrite Hne.
    destruct (List.find _ _); reflexivity.
Qed.

Lemma substring_all (s : string) : String.substring 0 (String.length s) s = s.
Proof. induction s as [|a s IH]; simpl; [reflexivity|]. rewrite IH. reflexivity. Qed.

Lemma replace_first_Bearer (uid : string) :
  replace_first "Bearer " "" ("Bearer " +:+ uid) = uid.
Proof.
  unfold replace_first.
  change ("Bearer " +:+ uid)
    with (String "B" (String "e" (String "a" (String "r" (String "e"
            (String "r" (String " " uid))))))).
  simpl.
  assert (String.prefix "" uid = true) as -> by (destruct uid; reflexivity).
  simpl. rewrite Nat.sub_0_r. apply substring_all.
Qed.

(** X23: the authorization header is read as the id of the user.  The
    header [Bearer] followed by a space and an id authenticates as the
    stored user with exactly that id, and as nobody when no such user is
    stored; a missing or empty header authenticates as nobody; and
    whoever a header authenticates as is a stored user. *)
Theorem X23_bearer_header_names_the_user (uid : string) (db : Db) :
  getAuthenticatedUser (Some ("Bearer " +:+ uid)) db = getUserById uid db /\
  getAuthenticatedUser None db = None /\
  getAuthenticatedUser (Some "") db = None /\
  forall header user,
    getAuthenticatedUser header db = Some user ->
    exists row, In row (users db) /\ user = user_of_row row.
Proof.
  split; [|split; [reflexivity|split; [reflexivity|]]].
  - unfold getAuthenticatedUser. rewrite replace_first_Bearer. reflexivity.
  - intros header user. unfold getAuthenticatedUser, getUserById.
    destruct header as [h|]; [|discriminate].
    destruct (String.eqb h ""); [discriminate|].
    destruct (List.find _ _) as [r|] eqn:E; [|discriminate].
    intros [= <-]. apply find_some in E as [Hin _]. eauto.
Qed.

Section Verification.
Variable verifyCode : string -> string -> option string.

(** X18: [POST /api/auth/verify] opens a session exactly for a code the
    verification manager accepts for the purpose of a login and an email
    that belongs to a stored user whose [is_admin] is 1.  The session
    then carries that user's id, the email, the admin flag and the token
    drawn for it.  Every other request is answered with an error. *)
Theorem X18_POST_verify_opens_sessions_for_admins
    (email code sessionToken : string) (db : Db) (s : Session) :
  keys_unique db ->
  POST_verify verifyCode email code sessionToken db = Answer200 s <->
  verifyCode email code = Some "login" /\
  exists row, In row (users db) /\ u_email row = email /\ u_is_admin row = 1%Z /\
              s = mkSession (u_id row) email true sessionToken.
Proof.
  intros (_ & Hemail & _). unfold POST_verify, getUserByEmail. split.
  - destruct (verifyCode email code) as [purpose|]; [|discriminate].
    destruct (String.eqb purpose "login") eqn:Ep; simpl; [|discriminate].
    apply String.eqb_eq in Ep. subst purpose.
    destruct (List.find _ _) as [r|] eqn:E; simpl; [|discriminate].
    apply find_some in E as [Hin He]. apply String.eqb_eq in He.
    destruct (Z.eqb (u_is_admin r) 1) eqn:Ea; simpl; [|discriminate].
    intros [= <-]. split; [reflexivity|]. exists r.
    apply Z.eqb_eq in Ea. rewrite He. auto.
  - intros (-> & r & Hin & He & Ha & ->). simpl.
    rewrite (find_the_one _ (users db) r).
    + simpl. rewrite Ha. simpl. rewrite He. reflexivity.
    + exact Hin.
    + apply String.eqb_eq, He.
    + intros y Hy Ey. apply String.eqb_eq in Ey.
      apply (NoDup_map_In_eq u_email (users db)); congruence.
Qed.

End Verification.

Lemma X18_POST_verify_opens_sessions_for_admins_witness :
  keys_unique office /\
  POST_verify toy_verifyCode "spoass@icloud.com" "123456" "token-1" office
    = Answer200 (mkSession "u0" "spoass@icloud.com" true "token-1") /\
  (POST_verify toy_verifyCode "spoass@icloud.com" "123456" "token-1" office
     = Answer200 (mkSession "u0" "spoass@icloud.com" true "token-1") <->
   toy_verifyCode "spoass@icloud.com" "123456" = Some "login" /\
   exists row, In row (users office) /\ u_email row = "spoass@icloud.com" /\
               u_is_admin row = 1%Z /\
               mkSession "u0" "spoass@icloud.com" true "token-1" =
               mkSession (u_id row) "spoass@icloud.com" true "token-1").
Proof.
  assert (H : keys_unique office) by apply keys_unique_apply_all, keys_unique_fresh.
  split; [exact H|]. split; [reflexivity|].
  exact (X18_POST_verify_opens_sessions_for_admins toy_verifyCode
           "spoass@icloud.com" "123456" "token-1" office
           (mkSession "u0" "spoass@icloud.com" true "token-1") H).
Defined.

End Accounts.

(* ===================================================================== *)
(** ** The script that creates the administrators *)
(* ===================================================================== *)

Section Administrators.
Import JsDate Schema Store Interleaving Integrity KeyManager AuthRoutes AdminScript Samples Cases.

Lemma existingUsers_nil (db : Db) (email : string) :
  existingUsers db = [] -> In email adminEmails ->
  existsb (fun r => String.eqb (u_email r) email) (users db) = false.
Proof.
  intros H Hin. apply not_true_iff_false. intros E.
  apply existsb_exists in E as (r & Hr & He). apply String.eqb_eq in He.
  unfold existingUsers in H. apply map_eq_nil in H.
  assert (Hf : In r (List.filter
                       (fun r => existsb (String.eqb (u_email r)) adminEmails) (users db))).
  { apply filter_In. split; [exact Hr|]. apply existsb_exists. exists email.
    split; [exact Hin|]. apply String.eqb_eq, He. }
  rewrite H in Hf. contradiction.
Qed.

Lemma existsb_snoc {A} (p : A -> bool) (l : list A) (x : A) :
  existsb p (l ++ [x]) = existsb p l || p x.
Proof. rewrite existsb_app. simpl. rewrite orb_false_r. reflexivity. Qed.

Section Script.
Variable scryptSync : string -> bytes -> nat -> bytes.
Variable aes_256_cbc_encrypt : bytes -> bytes -> bytes -> bytes.
Variable base64_encode : bytes -> string.

Lemma init_admin_users_runs (d1 d2 : Draw) (e : Env) (db : Db) :
  existingUsers db = [] ->
  ~ In (draw_userId d1) (map u_id (users db)) ->
  ~ In (draw_userId d2) (map u_id (users db)) ->
  draw_userId d1 <> draw_userId d2 ->
  init_admin_users scryptSync aes_256_cbc_encrypt base64_encode d1 d2 e db =
  (Completed adminEmails [], snd (for_each script_schemas e),
   set_users
     ((users db
         ++ [admin_row scryptSync aes_256_cbc_encrypt base64_encode
                       "spoass@icloud.com" d1 db])
        ++ [admin_row scryptSync aes_256_cbc_encrypt base64_encode
                      "laila.torresanz@hotmail.com" d2 db]) db).
Proof.
  intros Hex H1 H2 Hne. unfold init_admin_users. rewrite Hex. simpl.
  unfold insert_admin at 1.
  rewrite <- existsb_eqb_In in H1, H2.
  apply not_true_iff_false in H1, H2. rewrite H1.
  rewrite (existingUsers_nil db "spoass@icloud.com" Hex) by (simpl; auto).
  unfold insert_admin. cbn [users set_users].
  rewrite !existsb_snoc. cbn [u_id u_email]. rewrite H2.
  rewrite (existingUsers_nil db "laila.torresanz@hotmail.com" Hex) by (simpl; auto).
  apply String.eqb_neq in Hne. rewrite Hne. simpl. reflexivity.
Qed.

(** X21: the script [init-admin-users.js] creates the two administrators
    once.  On a database that holds neither of the two emails, with ids
    drawn that are unused and distinct, it completes with both users
    created and none failed; each is then found by its email with the id
    drawn for it, its master key wrapped under the salt drawn for it,
    and the admin flag set, so that [POST /api/auth/verify] opens a
    session for it on a code accepted for a login; the lookup of every
    other email answers as before.  A second run of the script finds
    them, skips the creation and leaves every row as it is. *)
Theorem X21_admin_script_creates_both_once (d1 d2 : Draw) (e : Env) (db : Db) :
  existingUsers db = [] ->
  ~ In (draw_userId d1) (map u_id (users db)) ->
  ~ In (draw_userId d2) (map u_id (users db)) ->
  draw_userId d1 <> draw_userId d2 ->
  let run := init_admin_users scryptSync aes_256_cbc_encrypt base64_encode in
  let wrapped d := encryptMasterKey scryptSync aes_256_cbc_encrypt base64_encode
                     (draw_iv d) (draw_masterKey d) (draw_salt d) in
  let admin email d := mkUser (draw_userId d) email (wrapped d)
                              (String.string_of_list_byte (draw_salt d)) true in
  let e' := snd (fst (run d1 d2 e db)) in
  let db' := snd (run d1 d2 e db) in
  fst (fst (run d1 d2 e db)) = Completed adminEmails [] /\
  getUserByEmail "spoass@icloud.com" db' = Some (admin "spoass@icloud.com" d1) /\
  getUserByEmail "laila.torresanz@hotmail.com" db'
    = Some (admin "laila.torresanz@hotmail.com" d2) /\
  (forall email, ~ In email adminEmails ->
     getUserByEmail email db' = getUserByEmail email db) /\
  (forall verifyCode code token,
     verifyCode "spoass@icloud.com" code = Some "login" ->
     POST_verify verifyCode "spoass@icloud.com" code token db'
       = Answer200 (mkSession (draw_userId d1) "spoass@icloud.com" true token)) /\
  forall d1' d2',
    fst (fst (run d1' d2' e' db')) = Skipped /\ snd (run d1' d2' e' db') = db'.
Proof.
  intros Hex H1 H2 Hne run wrapped admin e' db'.
  pose proof (init_admin_users_runs d1 d2 e db Hex H1 H2 Hne) as Hrun.
  fold run in Hrun.
  assert (Hdb : db' = set_users
     ((users db
         ++ [admin_row scryptSync aes_256_cbc_encrypt base64_encode
                       "spoass@icloud.com" d1 db])
        ++ [admin_row scryptSync aes_256_cbc_encrypt base64_encode
                      "laila.torresanz@hotmail.com" d2 db]) db)
    by (unfold db'; rewrite Hrun; reflexivity).
  pose proof (find_eqb_none u_email _ _
                (existingUsers_nil db "spoass@icloud.com" Hex ltac:(simpl; auto))) as F1.
  pose proof (find_eqb_none u_email _ _
                (existingUsers_nil db "laila.torresanz@hotmail.com" Hex
                   ltac:(simpl; auto))) as F2.
  assert (G1 : getUserByEmail "spoass@icloud.com" db' = Some (admin "spoass@icloud.com" d1)).
  { rewrite Hdb. unfold getUserByEmail. cbn [users set_users].
    rewrite !find_snoc, F1. reflexivity. }
  split; [rewrite Hrun; reflexivity|]. split; [exact G1|]. split; [|split; [|split]].
  - rewrite Hdb. unfold getUserByEmail. cbn [users set_users].
    rewrite !find_snoc, F2. reflexivity.
  - intros email Hnot. rewrite Hdb. unfold getUserByEmail. cbn [users set_users].
    rewrite !find_snoc. cbn [u_email admin_row].
    assert (String.eqb "spoass@icloud.com" email = false) as ->
      by (apply String.eqb_neq; intros <-; apply Hnot; simpl; auto).
    assert (String.eqb "laila.torresanz@hotmail.com" email = false) as ->
      by (apply String.eqb_neq; intros <-; apply Hnot; simpl; auto).
    destruct (List.find (fun r => String.eqb (u_email r) email) (users db)); reflexivity.
  - intros verifyCode code token Hcode. unfold POST_verify. rewrite Hcode, G1. reflexivity.
  - intros d1' d2'. unfold run, init_admin_users.
    assert ((0 <? length (existingUsers db')) = true) as ->; [|split; reflexivity].
    rewrite Hdb. unfold existingUsers. cbn [users set_users].
    rewrite !List.filter_app, !map_app, !length_app. simpl. apply Nat.ltb_lt. lia.
Qed.

End Script.

Lemma X21_admin_script_creates_both_once_witness :
  let run := init_admin_users toy_scrypt toy_encrypt toy_base64 in
  existingUsers household = [] /\
  fst (fst (run draw1 draw2 (mkEnv empty_catalog []) household))
    = Completed adminEmails [] /\
  map u_is_admin
      (users (snd (run draw1 draw2 (mkEnv empty_catalog []) household)))
    = [0; 0; 1; 1]%Z /\
  fst (fst (run draw2 draw1 (snd (fst (run draw1 draw2 (mkEnv empty_catalog []) household)))
                (snd (run draw1 draw2 (mkEnv empty_catalog []) household))))
    = Skipped.
Proof.
  intros run. split; [reflexivity|].
  pose proof (X21_admin_script_creates_both_once toy_scrypt toy_encrypt toy_base64
                draw1 draw2 (mkEnv empty_catalog []) household eq_refl) as H.
  assert (H1 : ~ In (draw_userId draw1) (map u_id (users household)))
    by (vm_compute; intros [E|[E|[]]]; discriminate).
  assert (H2 : ~ In (draw_userId draw2) (map u_id (users household)))
    by (vm_compute; intros [E|[E|[]]]; discriminate).
  assert (H3 : draw_userId draw1 <> draw_userId draw2) by discriminate.
  specialize (H H1 H2 H3). cbv zeta in H.
  destruct H as (Hc & _ & _ & _ & _ & Hs).
  split; [exact Hc|]. split; [reflexivity|]. exact (proj1 (Hs draw2 draw1)).
Defined.

End Administrators.

(* ===================================================================== *)
(** ** The order of the stamps of a row, and further list queries *)
(* ===================================================================== *)

Section Stamps.
Import JsDate Store Interleaving Integrity Samples Cases.

Lemma stamps_ordered_intro (db : Db) :
  List.Forall (fun r => le (u_created_at r) (u_updated_at r) /\
                        le (u_updated_at r) (CURRENT_TIMESTAMP db)) (users db) ->
  List.Forall (fun r => le (a_created_at r) (a_updated_at r) /\
                        le (a_updated_at r) (CURRENT_TIMESTAMP db)) (email_aliases db) ->
  List.Forall (fun r => le (e_received_at r) (CURRENT_TIMESTAMP db)) (emails db) ->
  List.Forall (fun r => le (d_created_at r) (d_last_sync r) /\
                        le (d_last_sync r) (CURRENT_TIMESTAMP db)) (devices db) ->
  List.Forall (fun r => le (s_timestamp r) (CURRENT_TIMESTAMP db)) (sync_data db) ->
  stamps_ordered db.
Proof. intros. split; [|split; [|split; [|split]]]; assumption. Qed.

Lemma stamps_ordered_tick (d : Date) (db : Db) :
  le (now db) d -> stamps_ordered db -> stamps_ordered (set_now d db).
Proof.
  intros Hle (Hu & Ha & He & Hd & Hs).
  assert (Hct : le (CURRENT_TIMESTAMP db) (CURRENT_TIMESTAMP (set_now d db)))
    by (apply to_second_mono, Hle).
  apply stamps_ordered_intro; simpl;
    (eapply List.Forall_impl; [|eassumption]); simpl; intros r H;
    try (destruct H as [H1 H2]; split; [exact H1|]);
    eapply le_trans; eauto.
Qed.

Lemma stamps_ordered_apply (o : Op) (db : Db) :
  stamps_ordered db -> stamps_ordered (apply o db).
Proof.
  intros H. pose proof H as (Hu & Ha & He & Hd & Hs).
  pose proof (le_refl (CURRENT_TIMESTAMP db)) as Hct.
  destruct o; simpl.
  - destruct (wfb d && _) eqn:E; [|exact H].
    apply andb_true_iff in E as [_ E]. apply stamps_ordered_tick; [apply leb_le, E|exact H].
  - unfold createUser. case_ifs; try exact H.
    apply stamps_ordered_intro; try assumption. simpl. apply Forall_snoc; auto.
  - unfold createAlias. case_ifs; try exact H.
    apply stamps_ordered_intro; try assumption. simpl. apply Forall_snoc; auto.
  - apply stamps_ordered_intro; try assumption. simpl.
    apply (Forall_map_if
             (fun r => le (a_created_at r) (a_updated_at r) /\
                       le (a_updated_at r) (CURRENT_TIMESTAMP db))); [|assumption].
    intros r [H1 H2]. simpl. split; [eapply le_trans; eassumption|exact Hct].
  - apply stamps_ordered_intro; try assumption. simpl. apply Forall_filter, He.
  - unfold delete_alias_row. destruct (_ && _); [exact H|].
    apply stamps_ordered_intro; try assumption. simpl. apply Forall_filter, Ha.
  - unfold createEmail. case_ifs; try exact H.
    apply stamps_ordered_intro; try assumption. simpl. apply Forall_snoc; auto.
  - apply stamps_ordered_intro; try assumption. simpl.
    apply (Forall_map_if (fun r => le (e_received_at r) (CURRENT_TIMESTAMP db)));
      [auto|assumption].
  - unfold createDevice. case_ifs; try exact H.
    apply stamps_ordered_intro; try assumption. simpl. apply Forall_snoc; auto.
  - apply stamps_ordered_intro; try assumption. simpl.
    apply (Forall_map_if
             (fun r => le (d_created_at r) (d_last_sync r) /\
                       le (d_last_sync r) (CURRENT_TIMESTAMP db))); [|assumption].
    intros r [H1 H2]. simpl. split; [eapply le_trans; eassumption|exact Hct].
  - unfold createSyncData. case_ifs; try exact H.
    apply stamps_ordered_intro; try assumption. simpl. apply Forall_snoc; auto.
Qed.

(** X24: whatever requests are served and however the clock advances
    between them, from an empty database on, no row carries a stamp
    later than the current second, no user or alias shows an update
    before its creation, and no device a sync before its creation. *)
Theorem X24_stamps_follow_the_clock (ops : list Op) (d : Date) :
  stamps_ordered (apply_all ops (fresh d)).
Proof.
  assert (H : stamps_ordered (fresh d)) by (apply stamps_ordered_intro; constructor).
  revert H. generalize (fresh d). induction ops as [|o ops IH]; intros db H; simpl; [exact H|].
  apply IH, stamps_ordered_apply, H.
Qed.

(** X25: [getEmailsByAliasId] returns the mails of the alias it is asked
    for, each stored mail of that alias once and no other, newest first;
    [getDevicesByUserId] returns the devices of the user it is asked
    for, each once and no other, newest first. *)
Theorem X25_mails_and_devices_newest_first (aid uid : string) (db : Db) :
  stamps_wf db ->
  (getEmailsByAliasId aid db ≡ₚ
     map email_of_row
         (List.filter (fun r => String.eqb (e_alias_id r) aid) (emails db)) /\
   sorted_by (fun x y => not_after (receivedAt y) (receivedAt x))
             (getEmailsByAliasId aid db)) /\
  (getDevicesByUserId uid db ≡ₚ
     map device_of_row
         (List.filter (fun r => String.eqb (d_user_id r) uid) (devices db)) /\
   sorted_by (fun x y => not_after (Device_createdAt y) (Device_createdAt x))
             (getDevicesByUserId uid db)).
Proof.
  intros (_ & _ & He & Hd & _). split; split.
  - apply Permutation_map, order_by_perm.
  - apply sorted_by_map. apply (order_by_desc_sorted e_received_at), Forall_filter, He.
  - apply Permutation_map, order_by_perm.
  - apply sorted_by_map. apply (order_by_desc_sorted d_created_at), Forall_filter, Hd.
Qed.

Lemma X25_mails_and_devices_newest_first_witness :
  stamps_wf household /\
  map Email_id (getEmailsByAliasId "a1" household) = ["e2"; "e1"] /\
  sorted_by (fun x y => not_after (receivedAt y) (receivedAt x))
            (getEmailsByAliasId "a1" household).
Proof.
  split; [exact stamps_wf_household|]. split; [reflexivity|].
  exact (proj2 (proj1 (X25_mails_and_devices_newest_first "a1" "u1" household
                         stamps_wf_household))).
Defined.

End Stamps.

Section LimiterMemory.
Import RateLimit Integrity.

Lemma bounded_isRateLimited (now : Z) (identifier : string) (this : RateLimiter) :
  bounded this -> bounded (snd (isRateLimited now identifier this)).
Proof.
  intros H. unfold isRateLimited.
  destruct (_ <=? _)%Z eqn:E; [exact H|]. apply Z.leb_gt in E.
  intros i. unfold stored. cbn [snd requests maxRequests].
  destruct (decide (identifier = i)) as [->|Hne].
  - rewrite lookup_insert_eq. simpl. rewrite length_app. simpl. lia.
  - rewrite lookup_insert_ne by exact Hne. apply H.
Qed.

Lemma bounded_serve (calls : list (string * Z)) (this : RateLimiter) :
  bounded this -> bounded (snd (serve calls this)).
Proof.
  revert this. induction calls as [|[i now] rest IH]; intros this H; [exact H|].
  simpl. pose proof (bounded_isRateLimited now i this H) as H1.
  destruct (isRateLimited now i this) as [limited this'].
  specialize (IH this' H1). destruct (serve rest this') as [passed final]. exact IH.
Qed.

Lemma serve_maxRequests (calls : list (string * Z)) (r : RateLimiter) :
  maxRequests (snd (serve calls r)) = maxRequests r.
Proof.
  revert r. induction calls as [|[i t] rest IH]; intros r; [reflexivity|]. simpl.
  pose proof (proj1 (isRateLimited_fields t i r)) as F.
  destruct (isRateLimited t i r) as [limited r']. simpl in F.
  specialize (IH r'). destruct (serve rest r') as [passed final]. simpl in *.
  congruence.
Qed.

(** X26: the limiter never keeps more than [maxRequests] times for an
    identifier, whatever calls are made, at whatever times and in
    whatever order; a limiter whose limit is zero or negative keeps
    none and refuses every call. *)
Theorem X26_limiter_keeps_at_most_the_limit
    (max w : Z) (calls : list (string * Z)) (identifier : string) (now : Z) :
  let this := snd (serve calls (new_RateLimiter max w)) in
  (Z.of_nat (length (stored this identifier)) <= Z.max 0 max)%Z /\
  ((max <= 0)%Z -> fst (isRateLimited now identifier this) = true).
Proof.
  intros this.
  assert (Hb : bounded this).
  { apply bounded_serve. intros i. unfold stored. simpl. rewrite lookup_empty. simpl. lia. }
  assert (Hm : maxRequests this = max).
  { unfold this. rewrite serve_maxRequests. reflexivity. }
  split.
  - specialize (Hb identifier). rewrite Hm in Hb. exact Hb.
  - intros Hle. unfold isRateLimited. rewrite Hm.
    destruct (_ <=? _)%Z eqn:E; [reflexivity|]. apply Z.leb_gt in E. lia.
Qed.

End LimiterMemory.

(* ===================================================================== *)
(** ** Registering a device through the route *)
(* ===================================================================== *)

Section DeviceRoutes.
Import JsDate Store Interleaving Integrity AliasRoutes Sync SyncRoutes Samples Cases.

(** X27: [POST /api/sync/register] answers 401, 500 or 200 and never
    404.  When it answers 200 it reports the id and the name of a device
    it has stored for the authenticated user: a following
    [GET /api/sync] with the same header lists the user's earlier
    devices and the new one, with that id and name, the exported key,
    and the second of registration as [createdAt] and [lastSync]; the
    device lists of other users are unchanged.  With 401 or 500 nothing
    is stored. *)
Theorem X27_POST_register_then_GET_lists_the_device
    (authHeader : option string) (deviceName deviceId exportedDeviceKey : string)
    (db : Db) :
  let (resp, db') :=
    POST_register authHeader deviceName deviceId exportedDeviceKey db in
  match resp with
  | Json200 r =>
      exists user,
        getAuthenticatedUser authHeader db = Some user /\
        r = mkRegisteredDevice deviceId deviceName /\
        ~ In deviceId (map d_id (devices db)) /\
        GET_devices authHeader db' = Json200 (getDevicesByUserId (User_id user) db') /\
        getDevicesByUserId (User_id user) db' ≡ₚ
          mkDevice deviceId (User_id user) deviceName exportedDeviceKey
                   (CURRENT_TIMESTAMP db) (CURRENT_TIMESTAMP db)
          :: getDevicesByUserId (User_id user) db /\
        forall other, other <> User_id user ->
          getDevicesByUserId other db' = getDevicesByUserId other db
  | Json401 => getAuthenticatedUser authHeader db = None /\ db' = db
  | Json404 => False
  | Json500 _ => db' = db
  end.
Proof.
  unfold POST_register.
  destruct (getAuthenticatedUser authHeader db) as [user|] eqn:Eu; [|auto].
  unfold registerDevice, and_then, createDevice.
  cbn [nd_id nd_userId nd_deviceName nd_deviceKey].
  destruct (existsb _ (devices db)) eqn:E1; [reflexivity|].
  destruct (negb _) eqn:E2; [reflexivity|].
  exists user. split; [reflexivity|]. split; [reflexivity|].
  split. { rewrite <- existsb_eqb_In, E1. discriminate. }
  split.
  { unfold GET_devices. rewrite (getAuthenticatedUser_users authHeader db) by reflexivity.
    rewrite Eu. reflexivity. }
  split.
  - unfold getDevicesByUserId. cbn [devices set_devices].
    rewrite List.filter_app. cbn [List.filter d_user_id]. rewrite String.eqb_refl.
    etransitivity; [apply Permutation_map, order_by_perm|].
    rewrite map_app. simpl. etransitivity; [symmetry; apply Permutation_cons_append|].
    apply Permutation_cons; [reflexivity|].
    apply Permutation_map. symmetry. apply order_by_perm.
  - intros other Hne. unfold getDevicesByUserId. cbn [devices set_devices].
    rewrite List.filter_app. simpl.
    apply not_eq_sym, String.eqb_neq in Hne. rewrite Hne, app_nil_r. reflexivity.
Qed.

End DeviceRoutes.
